(** * Stenographer query package: lexer, generated parser, query tree

    A shallow embedding of [query/y.go] (the yacc-generated parser together
    with the hand-written lexer of [parser.y]) and of [query/query.go] (the
    query tree, its evaluation against an index file and its time span).

    Conventions of the embedding:
    - a Go [string] is a [list ascii] (a sequence of bytes);
    - Go's [int] is the 64-bit [int], carried as a [Z];
    - a [time.Time] is the number of nanoseconds since Go's zero time
      (January 1, year 1, 00:00:00 UTC), as a [Z]; the zero [Time] is [0];
      a [time.Duration] is a number of nanoseconds;
    - a [net.IP] or [net.IPMask] is the list of its bytes, [nil] being [[]];
    - the parser's value stack [parserS[0..parserp]] is a list whose head is
      [parserS[parserp]]. *)

From Stdlib Require Import String Ascii ZArith List Bool Lia Permutation.
Import ListNotations.
Open Scope Z_scope.
Set Warnings "-register-all".

(* ================================================================= *)
(** ** Go runtime and standard library *)

Definition gostring := list ascii.

Definition str (s : string) : gostring := list_ascii_of_string s.

Abbreviation Time := Z (only parsing).
Abbreviation Duration := Z (only parsing).
Definition IP := list Z.

Definition time_Minute : Duration := 60 * 1000000000.

(** [time.Unix(0, 0)] counted from the zero [Time]. *)
Definition unixToInternal_ns : Z := 62135596800 * 1000000000.

Definition IsZero (t : Time) : bool := t =? 0.
Definition After (t u : Time) : bool := u <? t.
Definition Before (t u : Time) : bool := t <? u.
Definition Add (t : Time) (d : Duration) : Time := t + d.

(** Two's complement wrap-around of a 64-bit signed integer. *)
Definition wrap64 (z : Z) : Z := (z + 2 ^ 63) mod 2 ^ 64 - 2 ^ 63.

Definition time_Unix (sec nsec : Z) : Time :=
  unixToInternal_ns + sec * 1000000000 + nsec.

Definition inb (c : ascii) (l : list ascii) : bool := existsb (Ascii.eqb c) l.

(** [unicode.IsSpace] on a rune below 256. *)
Definition IsSpace (c : ascii) : bool :=
  let n := nat_of_ascii c in
  (Nat.leb 9 n && Nat.leb n 13) || Nat.eqb n 32 || Nat.eqb n 133
  || Nat.eqb n 160.

Fixpoint HasPrefix (s prefix : gostring) {struct prefix} : bool :=
  match prefix, s with
  | [], _ => true
  | p :: prefix', c :: s' => Ascii.eqb c p && HasPrefix s' prefix'
  | _ :: _, [] => false
  end.

Definition isDigit (c : ascii) : bool :=
  let n := nat_of_ascii c in Nat.leb 48 n && Nat.leb n 57.

Definition digitVal (c : ascii) : Z := Z.of_nat (nat_of_ascii c) - 48.

(** The digit loop of [strconv.ParseUint] in base 10: [None] on a byte that is
    no decimal digit. *)
Fixpoint parseDigits (s : gostring) (n : Z) : option Z :=
  match s with
  | [] => Some n
  | c :: s' => if isDigit c then parseDigits s' (n * 10 + digitVal c) else None
  end.

(** [strconv.ParseInt(s, 10, 64)]: an optional sign, at least one decimal
    digit, and a value in the range of [int64]. *)
Definition ParseInt10 (s : gostring) : option Z :=
  let '(neg, body) :=
    match s with
    | c :: s' =>
        if Ascii.eqb c "-" then (true, s')
        else if Ascii.eqb c "+" then (false, s')
        else (false, s)
    | [] => (false, [])
    end in
  match body with
  | [] => None
  | _ :: _ =>
      match parseDigits body 0 with
      | None => None
      | Some n =>
          let v := if neg then - n else n in
          if (- 2 ^ 63 <=? v) && (v <? 2 ^ 63) then Some v else None
      end
  end.

(** [strconv.Atoi] with a 64-bit [int]. *)
Definition Atoi (s : gostring) : option Z := ParseInt10 s.

(** [net.IP.To4]: the 4-byte form of an IPv4 or IPv4-mapped address. *)
Definition To4 (ip : IP) : option IP :=
  match ip with
  | [_; _; _; _] => Some ip
  | [0; 0; 0; 0; 0; 0; 0; 0; 0; 0; 255; 255; a; b; c; d] => Some [a; b; c; d]
  | _ => None
  end.

(** One byte of a CIDR mask with [ones] leading one bits left to place. *)
Definition maskByte (ones : Z) : Z :=
  if 8 <=? ones then 255
  else Z.land (Z.lnot (Z.shiftr 255 ones)) 255.

Fixpoint maskBytes (l : nat) (ones : Z) : list Z :=
  match l with
  | O => []
  | S l' => maskByte ones :: maskBytes l' (Z.max 0 (ones - 8))
  end.

(** [net.CIDRMask(ones, bits)]; [None] is the [nil] mask. *)
Definition CIDRMask (ones bits : Z) : option IP :=
  if negb ((bits =? 32) || (bits =? 128)) then None
  else if (ones <? 0) || (bits <? ones) then None
  else Some (maskBytes (Z.to_nat (bits / 8)) ones).

(** Library functions the package calls and that are taken as they come:
    [time.Parse(time.RFC3339, _)], [net.ParseIP], [time.ParseDuration] and
    [filepath.Base].  [None] is the error (or [nil]) result. *)
Record GoLib := {
  time_Parse_RFC3339 : gostring -> option Time;
  net_ParseIP : gostring -> option IP;
  time_ParseDuration : gostring -> option Duration;
  filepath_Base : gostring -> gostring
}.

(* ================================================================= *)
(** ** Errors *)

(** The texts built with [fmt.Sprintf] and [fmt.Errorf], kept structured. *)
Inductive errmsg :=
| SyntaxError
| BadTime (part : gostring)
| BadIP (part : gostring)
| BadDuration (part : gostring)
| InvalidPort (n : Z)
| InvalidVlan (n : Z)
| InvalidMpls (n : Z)
| InvalidProto (n : Z)
| BadCidr (ip : IP) (n : Z)
| BadIPOrMask (ip mask : IP)
| BadBetween (t1 t2 : Time).

(** ["%v at character %v (%q HERE %q)"] *)
Record error := {
  err_msg : errmsg;
  err_pos : nat;
  err_before : gostring;
  err_after : gostring
}.

(* ================================================================= *)
(** ** parser.y: [ipsFromNet] *)

Definition is_byte (b : Z) : Prop := 0 <= b < 256.

(** [^b] on a byte. *)
Definition byte_not (b : Z) : Z := Z.land (Z.lnot b) 255.

Fixpoint ipsFromNet_loop (ip mask : IP) : IP * IP :=
  match ip, mask with
  | b :: ip', m :: mask' =>
      let (from, to) := ipsFromNet_loop ip' mask' in
      (Z.land b m :: from, Z.lor b (byte_not m) :: to)
  | _, _ => ([], [])
  end.

Definition ipsFromNet (ip mask : IP) : IP * IP * option errmsg :=
  if negb (Nat.eqb (length ip) (length mask))
     || (negb (Nat.eqb (length ip) 4) && negb (Nat.eqb (length ip) 16))
  then ([], [], Some (BadIPOrMask ip mask))
  else let (from, to) := ipsFromNet_loop ip mask in (from, to, None).

(* ================================================================= *)
(** ** query.go: the query tree *)

(** [nilQuery] is the [nil] value of the interface [Query]. *)
Inductive Query :=
| nilQuery
| portQuery (n : Z)
| vlanQuery (n : Z)
| mplsQuery (n : Z)
| protocolQuery (n : Z)
| ipQuery (from to : IP)
| unionQuery (a : list Query)
| intersectQuery (a : list Query)
| timeQuery (a0 a1 : Time).

(** Conversions [portQuery(n)], [vlanQuery(n)] ([uint16]), [mplsQuery(n)]
    ([uint32]) and [protocolQuery(n)] ([byte]) of an [int]. *)
Definition to_uint16 (n : Z) : Z := n mod 65536.
Definition to_uint32 (n : Z) : Z := n mod 4294967296.
Definition to_byte (n : Z) : Z := n mod 256.

(* ================================================================= *)
(** ** parser.y: the lexer *)

(** The field [str] of the Go struct is never read or written. *)
Record parserSymType := {
  yys : Z;
  num : Z;
  ip : IP;
  query : Query;
  dur : Duration;
  time : Time
}.

Definition zeroSym : parserSymType :=
  {| yys := 0; num := 0; ip := []; query := nilQuery; dur := 0; time := 0 |}.

Definition set_yys (v : parserSymType) (s : Z) : parserSymType :=
  {| yys := s; num := num v; ip := ip v; query := query v; dur := dur v;
     time := time v |}.
Definition set_num (v : parserSymType) (n : Z) : parserSymType :=
  {| yys := yys v; num := n; ip := ip v; query := query v; dur := dur v;
     time := time v |}.
Definition set_ip (v : parserSymType) (i : IP) : parserSymType :=
  {| yys := yys v; num := num v; ip := i; query := query v; dur := dur v;
     time := time v |}.
Definition set_query (v : parserSymType) (q : Query) : parserSymType :=
  {| yys := yys v; num := num v; ip := ip v; query := q; dur := dur v;
     time := time v |}.
Definition set_dur (v : parserSymType) (d : Duration) : parserSymType :=
  {| yys := yys v; num := num v; ip := ip v; query := query v; dur := d;
     time := time v |}.
Definition set_time (v : parserSymType) (t : Time) : parserSymType :=
  {| yys := yys v; num := num v; ip := ip v; query := query v; dur := dur v;
     time := t |}.

Definition HOST := 57346.
Definition PORT := 57347.
Definition PROTO := 57348.
Definition AND := 57349.
Definition OR := 57350.
Definition NET := 57351.
Definition MASK := 57352.
Definition TCP := 57353.
Definition UDP := 57354.
Definition ICMP := 57355.
Definition BEFORE := 57356.
Definition AFTER := 57357.
Definition IPP := 57358.
Definition AGO := 57359.
Definition VLAN := 57360.
Definition MPLS := 57361.
Definition BETWEEN := 57362.
Definition IPtok := 57363.
Definition NUM := 57364.
Definition DURATION := 57365.
Definition TIME := 57366.

Record parserLex := {
  now : Time;
  inp : gostring;
  pos : nat;
  out : Query;
  err : option error;
  startTime : Time;
  stopTime : Time
}.

Definition set_pos (x : parserLex) (p : nat) : parserLex :=
  {| now := now x; inp := inp x; pos := p; out := out x; err := err x;
     startTime := startTime x; stopTime := stopTime x |}.
Definition set_out (x : parserLex) (q : Query) : parserLex :=
  {| now := now x; inp := inp x; pos := pos x; out := q; err := err x;
     startTime := startTime x; stopTime := stopTime x |}.
Definition set_err (x : parserLex) (e : option error) : parserLex :=
  {| now := now x; inp := inp x; pos := pos x; out := out x; err := e;
     startTime := startTime x; stopTime := stopTime x |}.
Definition set_startTime (x : parserLex) (t : Time) : parserLex :=
  {| now := now x; inp := inp x; pos := pos x; out := out x; err := err x;
     startTime := t; stopTime := stopTime x |}.
Definition set_stopTime (x : parserLex) (t : Time) : parserLex :=
  {| now := now x; inp := inp x; pos := pos x; out := out x; err := err x;
     startTime := startTime x; stopTime := t |}.

(** The keyword map [tokens], in the order of its literal.  Go ranges over a
    map in an unspecified order; [matchKeyword] takes the order as an
    argument. *)
Definition tokens : list (gostring * Z) :=
  [ (str "after", AFTER); (str "ago", AGO); (str "&&", AND);
    (str "and", AND); (str "before", BEFORE); (str "host", HOST);
    (str "icmp", ICMP); (str "ip", IPP); (str "mask", MASK);
    (str "net", NET); (str "||", OR); (str "or", OR); (str "port", PORT);
    (str "vlan", VLAN); (str "mpls", MPLS); (str "proto", PROTO);
    (str "tcp", TCP); (str "udp", UDP); (str "between", BETWEEN) ].

(** [for t, i := range tokens { if strings.HasPrefix(x.in[x.pos:], t) ... }] *)
Fixpoint matchKeyword (table : list (gostring * Z)) (rest : gostring)
  : option (gostring * Z) :=
  match table with
  | [] => None
  | (t, i) :: table' =>
      if HasPrefix rest t then Some (t, i) else matchKeyword table' rest
  end.

(** The whitespace loop: the number of bytes it steps over. *)
Fixpoint skipSpaces (rest : gostring) : nat :=
  match rest with
  | c :: rest' => if IsSpace c then S (skipSpaces rest') else O
  | [] => O
  end.

(** The loop labelled [L]: bytes consumed and the three flags. *)
Fixpoint scanRun (rest : gostring) (n : nat) (isIP isDuration isTime : bool)
  : nat * bool * bool * bool :=
  match rest with
  | [] => (n, isIP, isDuration, isTime)
  | c :: rest' =>
      if inb c [":"; "."]%char then scanRun rest' (S n) true isDuration isTime
      else if inb c ["0"; "1"; "2"; "3"; "4"; "5"; "6"; "7"; "8"; "9"; "a";
                     "b"; "c"; "d"; "e"; "f"]%char
      then scanRun rest' (S n) isIP isDuration isTime
      else if inb c ["m"; "h"]%char then (S n, isIP, true, isTime)
      else if inb c ["-"; "T"; "+"; "Z"]%char
      then scanRun rest' (S n) isIP isDuration true
      else (n, isIP, isDuration, isTime)
  end.

Definition Error (x : parserLex) (s : errmsg) : parserLex :=
  match err x with
  | None =>
      set_err x (Some {| err_msg := s; err_pos := pos x;
                         err_before := firstn (pos x) (inp x);
                         err_after := skipn (pos x) (inp x) |})
  | Some _ => x
  end.

Definition HandleBetween (x : parserLex) (startT stopT : Time) : parserLex :=
  let x := if IsZero (startTime x) || After (startTime x) startT
           then set_startTime x startT else x in
  if IsZero (stopTime x) || Before (stopTime x) stopT
  then set_stopTime x stopT else x.

Definition HandleAfter (x : parserLex) (after : Time) : parserLex :=
  if IsZero (startTime x) || After (startTime x) after
  then set_startTime x after else x.

Definition HandleBefore (x : parserLex) (before : Time) : parserLex :=
  if IsZero (stopTime x) || Before (stopTime x) before
  then set_stopTime x before else x.

Section Lexer.
Variable lib : GoLib.

Definition Lex (x : parserLex) (yylval : parserSymType)
  : parserLex * parserSymType * Z :=
  let x := set_pos x (pos x + skipSpaces (skipn (pos x) (inp x))) in
  match matchKeyword tokens (skipn (pos x) (inp x)) with
  | Some (t, i) => (set_pos x (pos x + length t), yylval, i)
  | None =>
      let s := pos x in
      let '(n, isIP, isDuration, isTime) :=
        scanRun (skipn s (inp x)) O false false false in
      let x := set_pos x (s + n) in
      let part := firstn n (skipn s (inp x)) in
      if isTime then
        match time_Parse_RFC3339 lib part with
        | Some t => (x, set_time yylval t, TIME)
        | None => (Error x (BadTime part), set_time yylval 0, TIME)
        end
      else if isIP then
        match net_ParseIP lib part with
        | None => (Error x (BadIP part), set_ip yylval [], -1)
        | Some i =>
            match To4 i with
            | Some ip4 => (x, set_ip yylval ip4, IPtok)
            | None => (x, set_ip yylval i, IPtok)
            end
        end
      else if isDuration then
        match time_ParseDuration lib part with
        | Some d => (x, set_dur yylval d, DURATION)
        | None => (Error x (BadDuration part), set_dur yylval 0, DURATION)
        end
      else if negb (Nat.eqb (pos x) s) then
        match Atoi part with
        | None => (x, yylval, -1)
        | Some n => (x, set_num yylval n, NUM)
        end
      else if Nat.leb (length (inp x)) (pos x) then (x, yylval, 0)
      else
        match nth_error (inp x) (pos x) with
        | Some c =>
            if inb c [":"; "."; "("; ")"; "/"]%char
            then (set_pos x (S (pos x)), yylval, Z.of_nat (nat_of_ascii c))
            else (x, yylval, -1)
        | None => (x, yylval, -1)
        end
  end.
End Lexer.

(* ================================================================= *)
(** ** y.go: the generated tables *)

Definition parserEofCode := 1.
Definition parserErrCode := 2.
Definition parserFlag := -1000.
Definition parserPrivate := 57344.
Definition parserLast := 44.

Definition parserExca : list Z := [-1; 1; 1; -1; -2; 0].

Definition parserAct : list Z :=
  [26; 28; 27; 39; 35; 33; 17; 18; 22; 21;
   20; 40; 24; 4; 5; 3; 29; 30; 9; 34;
   11; 12; 13; 14; 15; 8; 36; 6; 7; 16;
   37; 19; 2; 31; 32; 10; 17; 18; 38; 41;
   23; 1; 0; 25].

Definition parserPact : list Z :=
  [9; -1000; 29; -1000; 10; -12; -13; -14; 34; -9;
   9; -1000; -1000; -1000; -22; -22; -22; 9; 9; -1000;
   -1000; -1000; -1000; -17; -6; -1; -1000; -1000; 13; -1000;
   31; -1000; -1000; -1000; -19; -10; -1000; -1000; -22; -1000;
   -1000; -1000].

Definition parserPgo : list Z := [0; 41; 32; 15; 0].

Definition parserR1 : list Z :=
  [0; 1; 2; 2; 2; 3; 3; 3; 3; 3;
   3; 3; 3; 3; 3; 3; 3; 3; 3; 4;
   4].

Definition parserR2 : list Z :=
  [0; 1; 1; 3; 3; 2; 2; 2; 2; 3;
   4; 4; 3; 1; 1; 1; 2; 2; 4; 1;
   2].

Definition parserChk : list Z :=
  [-1000; -1; -2; -3; 4; 5; 18; 19; 16; 9;
   26; 11; 12; 13; 14; 15; 20; 7; 8; 21;
   22; 22; 22; 6; 21; -2; -4; 24; 23; -4;
   -4; -3; -3; 22; 25; 10; 27; 17; 7; 22;
   21; -4].

Definition parserDef : list Z :=
  [0; -2; 1; 2; 0; 0; 0; 0; 0; 0;
   0; 13; 14; 15; 0; 0; 0; 0; 0; 5;
   6; 7; 8; 0; 0; 0; 16; 19; 0; 17;
   0; 3; 4; 9; 0; 0; 12; 20; 0; 10;
   11; 18].

Definition parserTok1 : list Z :=
  [1; 3; 3; 3; 3; 3; 3; 3; 3; 3;
   3; 3; 3; 3; 3; 3; 3; 3; 3; 3;
   3; 3; 3; 3; 3; 3; 3; 3; 3; 3;
   3; 3; 3; 3; 3; 3; 3; 3; 3; 3;
   26; 27; 3; 3; 3; 3; 3; 25].

Definition parserTok2 : list Z :=
  [2; 3; 4; 5; 6; 7; 8; 9; 10; 11;
   12; 13; 14; 15; 16; 17; 18; 19; 20; 21;
   22; 23; 24].

Definition parserTok3 : list Z := [0].

(** [tbl[i]] for an index in range. *)
Definition at_ (tbl : list Z) (i : Z) : Z := nth (Z.to_nat i) tbl 0.

Definition len (tbl : list Z) : Z := Z.of_nat (length tbl).

(* ================================================================= *)
(** ** y.go: [parserlex1] *)

(** The loop over [parserTok3]; [token] is the value left by the last
    iteration. *)
Fixpoint tok3_loop (tbl : list Z) (char token : Z) : Z :=
  match tbl with
  | [] => token
  | t :: tbl' =>
      if t =? char then nth 0 tbl' 0
      else match tbl' with
           | _ :: tbl'' => tok3_loop tbl'' char t
           | [] => t
           end
  end.

Definition translate (char : Z) : Z :=
  let token :=
    if char <=? 0 then at_ parserTok1 0
    else if char <? len parserTok1 then at_ parserTok1 char
    else if (parserPrivate <=? char)
            && (char <? parserPrivate + len parserTok2)
    then at_ parserTok2 (char - parserPrivate)
    else tok3_loop parserTok3 char 0 in
  if token =? 0 then at_ parserTok2 1 else token.

(** [&parserLex{in: in, now: time.Now(), startTime: time.Time{},
    stopTime: time.Time{}}] *)
Definition newLex (now : Time) (input : gostring) : parserLex :=
  {| now := now; inp := input; pos := O; out := nilQuery; err := None;
     startTime := 0; stopTime := 0 |}.

(** What a call leaves behind: it returned, or it panicked. *)
Inductive outcome (A : Type) :=
| Returned (a : A)
| Panicked.
Arguments Returned {A} a.
Arguments Panicked {A}.

Section Parser.
Variable lib : GoLib.

Definition parserlex1 (x : parserLex) (lval : parserSymType)
  : parserLex * parserSymType * Z * Z :=
  let '(x, lval, char) := Lex lib x lval in
  (x, lval, char, translate char).

(* =============================================================== *)
(** ** y.go: the semantic actions of [Parse] *)

(** [parserDollar[i]] of a production with [k] right-hand symbols, read
    from the stack as it was before the reduction. *)
Definition dollar (S : list parserSymType) (k i : nat) : parserSymType :=
  nth (k - i) S zeroSym.

Definition action (nt : Z) (S : list parserSymType) (VAL : parserSymType)
  (x : parserLex) : parserSymType * parserLex :=
  match nt with
  | 1 => (VAL, set_out x (query (dollar S 1 1)))
  | 3 =>
      (set_query VAL (intersectQuery
         [query (dollar S 3 1); query (dollar S 3 3)]), x)
  | 4 =>
      (set_query VAL (unionQuery
         [query (dollar S 3 1); query (dollar S 3 3)]), x)
  | 5 => (set_query VAL (ipQuery (ip (dollar S 2 2)) (ip (dollar S 2 2))), x)
  | 6 =>
      let n := num (dollar S 2 2) in
      let x := if (n <? 0) || (65536 <=? n)
               then Error x (InvalidPort n) else x in
      (set_query VAL (portQuery (to_uint16 n)), x)
  | 7 =>
      let n := num (dollar S 2 2) in
      let x := if (n <? 0) || (65536 <=? n)
               then Error x (InvalidVlan n) else x in
      (set_query VAL (vlanQuery (to_uint16 n)), x)
  | 8 =>
      let n := num (dollar S 2 2) in
      let x := if (n <? 0) || (Z.shiftl 1 20 <=? n)
               then Error x (InvalidMpls n) else x in
      (set_query VAL (mplsQuery (to_uint32 n)), x)
  | 9 =>
      let n := num (dollar S 3 3) in
      let x := if (n <? 0) || (256 <=? n)
               then Error x (InvalidProto n) else x in
      (set_query VAL (protocolQuery (to_byte n)), x)
  | 10 =>
      let a := ip (dollar S 4 2) in
      let n := num (dollar S 4 4) in
      let mask := CIDRMask n (Z.of_nat (length a) * 8) in
      let x := match mask with
               | None => Error x (BadCidr a n)
               | Some _ => x
               end in
      let '(from, to, e) :=
        ipsFromNet a (match mask with Some m => m | None => [] end) in
      let x := match e with Some m => Error x m | None => x end in
      (set_query VAL (ipQuery from to), x)
  | 11 =>
      let '(from, to, e) :=
        ipsFromNet (ip (dollar S 4 2)) (ip (dollar S 4 4)) in
      let x := match e with Some m => Error x m | None => x end in
      (set_query VAL (ipQuery from to), x)
  | 12 =>
      ({| yys := yys VAL; num := num VAL; ip := ip VAL;
          query := query (dollar S 3 2); dur := dur VAL;
          time := time VAL |}, x)
  | 13 => (set_query VAL (protocolQuery 6), x)
  | 14 => (set_query VAL (protocolQuery 17), x)
  | 15 => (set_query VAL (protocolQuery 1), x)
  | 16 =>
      let t := time (dollar S 2 2) in
      (set_query VAL (timeQuery 0 t), HandleBefore x t)
  | 17 =>
      let t := time (dollar S 2 2) in
      (set_query VAL (timeQuery t 0), HandleAfter x t)
  | 18 =>
      let t1 := time (dollar S 4 2) in
      let t2 := time (dollar S 4 4) in
      let x := if After t1 t2 then Error x (BadBetween t1 t2) else x in
      (set_query VAL (timeQuery t1 t2), HandleBetween x t1 t2)
  | 19 => (set_time VAL (time (dollar S 1 1)), x)
  | 20 => (set_time VAL (Add (now x) (- dur (dollar S 2 1))), x)
  | _ => (VAL, x)
  end.

(* =============================================================== *)
(** ** y.go: [Parse] *)

(** The receiver's fields and the local variables of [Parse] that live
    across its labels. *)
Record pstate := {
  plex : parserLex;
  lval : parserSymType;
  char : Z;
  parsertoken : Z;
  parserS : list parserSymType;
  parserVAL : parserSymType;
  parserstate : Z;
  Errflag : Z;
  Nerrs : Z
}.

(** Where control goes next: to the label [parserstack], to the label
    [parsernewstate], out of [Parse] with its result, or into a run-time
    panic (an index out of range). *)
Inductive control :=
| ToStack (p : pstate)
| ToNewstate (p : pstate)
| Ret (r : Z) (x : parserLex)
| Panic.

(** [if parserrcvr.char < 0 { parserrcvr.char, parsertoken = parserlex1(...) }] *)
Definition lookahead (p : pstate) : pstate :=
  if char p <? 0 then
    let '(x, lv, c, t) := parserlex1 (plex p) (lval p) in
    {| plex := x; lval := lv; char := c; parsertoken := t;
       parserS := parserS p; parserVAL := parserVAL p;
       parserstate := parserstate p; Errflag := Errflag p;
       Nerrs := Nerrs p |}
  else p.

(** First loop over [parserExca]: the table after the pair [-1, state]. *)
Fixpoint exca_find (tbl : list Z) (state : Z) : option (list Z) :=
  match tbl with
  | a :: b :: tbl' =>
      if (a =? -1) && (b =? state) then Some tbl' else exca_find tbl' state
  | _ => None
  end.

(** Second loop over [parserExca]: the action of the first pair whose token
    is negative or the lookahead. *)
Fixpoint exca_scan (tbl : list Z) (token : Z) : option Z :=
  match tbl with
  | n :: a :: tbl' =>
      if (n <? 0) || (n =? token) then Some a else exca_scan tbl' token
  | _ => None
  end.

(** The loop that pops the stack down to a state shifting [error]. *)
Fixpoint recover (S : list parserSymType)
  : option (list parserSymType * Z) :=
  match S with
  | [] => None
  | v :: S' =>
      let n := at_ parserPact (yys v) + parserErrCode in
      if (0 <=? n) && (n <? parserLast)
         && (at_ parserChk (at_ parserAct n) =? parserErrCode)
      then Some (S, at_ parserAct n)
      else recover S'
  end.

(** Reduction by production [n] (every production of this grammar has a
    right-hand side, so [parserS[parserp+1]] is [$1]). *)
Definition reduce (p : pstate) (n : Z) : control :=
  let k := Z.to_nat (at_ parserR2 n) in
  let S' := skipn k (parserS p) in
  let VAL := nth (k - 1) (parserS p) zeroSym in
  let nt := at_ parserR1 n in
  let g := at_ parserPgo nt in
  let j := g + yys (nth 0 S' zeroSym) + 1 in
  let state :=
    if parserLast <=? j then at_ parserAct g
    else if negb (at_ parserChk (at_ parserAct j) =? - nt)
         then at_ parserAct g
         else at_ parserAct j in
  let '(VAL, x) := action n (parserS p) VAL (plex p) in
  ToStack {| plex := x; lval := lval p; char := char p;
             parsertoken := parsertoken p; parserS := S';
             parserVAL := VAL; parserstate := state;
             Errflag := Errflag p; Nerrs := Nerrs p |}.

(** The error branch of [parserdefault] ([parserErrorVerbose] is false, so
    the message is ["syntax error"]). *)
Definition on_error (p : pstate) : control :=
  if Errflag p =? 3 then
    if parsertoken p =? parserEofCode then Ret 1 (plex p)
    else ToNewstate {| plex := plex p; lval := lval p; char := -1;
                       parsertoken := -1; parserS := parserS p;
                       parserVAL := parserVAL p;
                       parserstate := parserstate p;
                       Errflag := Errflag p; Nerrs := Nerrs p |}
  else if (Errflag p =? 0) || (Errflag p =? 1) || (Errflag p =? 2) then
    let x := if Errflag p =? 0 then Error (plex p) SyntaxError
             else plex p in
    let nerrs := if Errflag p =? 0 then Nerrs p + 1 else Nerrs p in
    match recover (parserS p) with
    | Some (S', state) =>
        ToStack {| plex := x; lval := lval p; char := char p;
                   parsertoken := parsertoken p; parserS := S';
                   parserVAL := parserVAL p; parserstate := state;
                   Errflag := 3; Nerrs := nerrs |}
    | None => Ret 1 x
    end
  else reduce p 0.

Definition parserdefault (p : pstate) : control :=
  let n := at_ parserDef (parserstate p) in
  if n =? -2 then
    let p := lookahead p in
    match exca_find parserExca (parserstate p) with
    | None => Panic
    | Some tbl =>
        match exca_scan tbl (parsertoken p) with
        | None => Panic
        | Some n =>
            if n <? 0 then Ret 0 (plex p)
            else if n =? 0 then on_error p
            else reduce p n
        end
    end
  else if n =? 0 then on_error p
  else reduce p n.

Definition parsernewstate (p : pstate) : control :=
  let n := at_ parserPact (parserstate p) in
  if n <=? parserFlag then parserdefault p
  else
    let p := lookahead p in
    let n := n + parsertoken p in
    if (n <? 0) || (parserLast <=? n) then parserdefault p
    else
      let n := at_ parserAct n in
      if at_ parserChk n =? parsertoken p then
        ToStack {| plex := plex p; lval := lval p; char := -1;
                   parsertoken := -1; parserS := parserS p;
                   parserVAL := lval p; parserstate := n;
                   Errflag := if 0 <? Errflag p then Errflag p - 1
                              else Errflag p;
                   Nerrs := Nerrs p |}
      else parserdefault p.

Definition parserstack (p : pstate) : control :=
  parsernewstate
    {| plex := plex p; lval := lval p; char := char p;
       parsertoken := parsertoken p;
       parserS := set_yys (parserVAL p) (parserstate p) :: parserS p;
       parserVAL := parserVAL p; parserstate := parserstate p;
       Errflag := Errflag p; Nerrs := Nerrs p |}.

Definition initial (x : parserLex) : pstate :=
  {| plex := x; lval := zeroSym; char := -1; parsertoken := -1;
     parserS := []; parserVAL := zeroSym; parserstate := 0;
     Errflag := 0; Nerrs := 0 |}.

(** [fuel] bounds the number of jumps to a label; [None] is "not yet
    done". *)
Fixpoint run (fuel : nat) (c : control) : option (outcome (Z * parserLex)) :=
  match c with
  | Ret r x => Some (Returned (r, x))
  | Panic => Some Panicked
  | ToStack p =>
      match fuel with
      | O => None
      | S fuel' => run fuel' (parserstack p)
      end
  | ToNewstate p =>
      match fuel with
      | O => None
      | S fuel' => run fuel' (parsernewstate p)
      end
  end.

Definition parserParse (fuel : nat) (x : parserLex)
  : option (outcome (Z * parserLex)) :=
  run fuel (ToStack (initial x)).

(** [parse], with [time.Now()] given as [now]. *)
Definition parse (fuel : nat) (now : Time) (input : gostring)
  : option (outcome (Query * Time * Time * option error)) :=
  let lex := newLex now input in
  match parserParse fuel lex with
  | None => None
  | Some Panicked => Some Panicked
  | Some (Returned (_, lex)) =>
      match err lex with
      | Some e => Some (Returned (nilQuery, 0, 0, Some e))
      | None =>
          Some (Returned (out lex, startTime lex, stopTime lex, None))
      end
  end.

Definition NewQuery := parse.
End Parser.

(* ================================================================= *)
(** ** query.go: evaluation and time span *)

(** [timeQuery.GetTimeSpan] *)
Definition timeQuery_GetTimeSpan (a0 a1 startTime stopTime : Time)
  : Time * Time :=
  let hasStartTime := negb (IsZero a0) in
  let startTime2 := Add a0 (- time_Minute) in
  let hasStopTime := negb (IsZero a1) in
  let stopTime2 := Add a1 time_Minute in
  let startTime :=
    if hasStartTime
    then if IsZero startTime || After startTime startTime2
         then startTime2 else startTime
    else startTime in
  let stopTime :=
    if hasStopTime
    then if IsZero stopTime || Before stopTime stopTime2
         then stopTime2 else stopTime
    else stopTime in
  (startTime, stopTime).

(** [GetTimeSpan] of every variant; a call on the [nil] interface panics. *)
Fixpoint GetTimeSpan (q : Query) (startTime stopTime : Time)
  : outcome (Time * Time) :=
  let fix loop (a : list Query) (startTime stopTime : Time) :=
    match a with
    | [] => Returned (startTime, stopTime)
    | query :: a' =>
        match GetTimeSpan query startTime stopTime with
        | Returned (startTime, stopTime) => loop a' startTime stopTime
        | Panicked => Panicked
        end
    end in
  match q with
  | nilQuery => Panicked
  | portQuery _ => Returned (startTime, stopTime)
  | vlanQuery _ => Returned (startTime, stopTime)
  | mplsQuery _ => Returned (startTime, stopTime)
  | protocolQuery _ => Returned (startTime, stopTime)
  | ipQuery _ _ => Returned (startTime, stopTime)
  | unionQuery a => loop a startTime stopTime
  | intersectQuery a => loop a startTime stopTime
  | timeQuery a0 a1 =>
      Returned (timeQuery_GetTimeSpan a0 a1 startTime stopTime)
  end.

(** [base] *)
Definition base (q : Query) : outcome bool :=
  match q with
  | nilQuery => Panicked
  | unionQuery _ => Returned false
  | intersectQuery _ => Returned false
  | _ => Returned true
  end.

Section Evaluation.
Variable lib : GoLib.

(** The packages [base] and [indexfile] are collaborators: the type of
    position sets with its two sentinels, its [nil] value, union and
    intersection, the errors of an index lookup, and an index file with
    its name and its five lookups.  The [context.Context] is only handed
    on and the statistics of [log] do not reach the result; neither is
    modelled. *)
Variable Positions : Type.
Variable IndexErr : Type.
Variables AllPositions NoPositions nilPositions : Positions.
Variables Union Intersect : Positions -> Positions -> Positions.

Record IndexFile := {
  Name : gostring;
  PortPositions : Z -> Positions * option IndexErr;
  VLANPositions : Z -> Positions * option IndexErr;
  MPLSPositions : Z -> Positions * option IndexErr;
  ProtoPositions : Z -> Positions * option IndexErr;
  IPPositions : IP -> IP -> Positions * option IndexErr
}.

Inductive lookupError :=
| FromIndex (e : IndexErr)
| BadBasename (last : gostring).

Definition fromIndex (r : Positions * option IndexErr)
  : Positions * option lookupError :=
  (fst r, option_map FromIndex (snd r)).

(** [timeQuery.LookupIn] *)
Definition timeQuery_LookupIn (a0 a1 : Time) (index : IndexFile)
  : Positions * option lookupError :=
  let last := filepath_Base lib (Name index) in
  match ParseInt10 last with
  | None => (nilPositions, Some (BadBasename last))
  | Some intval =>
      let fileTime := time_Unix 0 (wrap64 (intval * 1000)) in
      let hasStartTime := negb (IsZero a0) in
      let startTime := Add a0 (- time_Minute) in
      let hasStopTime := negb (IsZero a1) in
      let stopTime := Add a1 time_Minute in
      if hasStartTime && hasStopTime then
        if Before fileTime startTime || After fileTime stopTime
        then (NoPositions, None)
        else (AllPositions, None)
      else if hasStartTime && Before fileTime startTime
      then (NoPositions, None)
      else if hasStopTime && After fileTime stopTime
      then (NoPositions, None)
      else (AllPositions, None)
  end.

(** [LookupIn] of every variant. *)
Fixpoint LookupIn (q : Query) (index : IndexFile)
  : outcome (Positions * option lookupError) :=
  let fix loop (combine : Positions -> Positions -> Positions)
               (a : list Query) (positions : Positions) :=
    match a with
    | [] => Returned (positions, None)
    | query :: a' =>
        match LookupIn query index with
        | Returned (pos, None) => loop combine a' (combine positions pos)
        | Returned (_, Some e) => Returned (nilPositions, Some e)
        | Panicked => Panicked
        end
    end in
  match q with
  | nilQuery => Panicked
  | portQuery n => Returned (fromIndex (PortPositions index n))
  | vlanQuery n => Returned (fromIndex (VLANPositions index n))
  | mplsQuery n => Returned (fromIndex (MPLSPositions index n))
  | protocolQuery n => Returned (fromIndex (ProtoPositions index n))
  | ipQuery from to => Returned (fromIndex (IPPositions index from to))
  | unionQuery a => loop Union a nilPositions
  | intersectQuery a => loop Intersect a AllPositions
  | timeQuery a0 a1 => Returned (timeQuery_LookupIn a0 a1 index)
  end.
End Evaluation.

(* ================================================================= *)
(** ** A sample of the library functions

    The theorems below hold for every [GoLib].  To run the lexer and the
    parser on concrete texts, [sampleLib] tabulates what the Go library
    returns on a few inputs and fails on every other one. *)

Fixpoint assoc {A : Type} (tbl : list (string * A)) (s : gostring)
  : option A :=
  match tbl with
  | [] => None
  | (k, v) :: tbl' =>
      if list_eq_dec ascii_dec (str k) s then Some v else assoc tbl' s
  end.

(** The text after the last ['/'] of a path without a trailing slash. *)
Fixpoint lastElement (s acc : gostring) : gostring :=
  match s with
  | [] => acc
  | c :: s' =>
      if Ascii.eqb c "/" then lastElement s' [] else lastElement s' (acc ++ [c])
  end.

Definition sampleLib : GoLib := {|
  time_Parse_RFC3339 := assoc
    [ ("2018-01-01T12:00:00Z"%string, 63650404800 * 1000000000);
      ("2018-01-01T13:00:00Z"%string, 63650408400 * 1000000000);
      ("2015-01-01T13:14:15Z"%string, 63555714855 * 1000000000) ];
  net_ParseIP := assoc
    [ ("1.2.3.4"%string, [0; 0; 0; 0; 0; 0; 0; 0; 0; 0; 255; 255; 1; 2; 3; 4]);
      ("255.255.254.0"%string,
       [0; 0; 0; 0; 0; 0; 0; 0; 0; 0; 255; 255; 255; 255; 254; 0]);
      ("::1"%string, [0; 0; 0; 0; 0; 0; 0; 0; 0; 0; 0; 0; 0; 0; 0; 1]) ];
  time_ParseDuration := assoc
    [ ("45m"%string, 45 * time_Minute); ("3h"%string, 180 * time_Minute);
      ("2h"%string, 120 * time_Minute); ("1.5h"%string, 90 * time_Minute);
      ("-5m"%string, -5 * time_Minute) ];
  filepath_Base := fun s => lastElement s []
|}.



(* ================================================================= *)
(** ** Vocabulary of the statements *)

(** The literal run at the head of [rest]: the bytes the loop [L] consumes,
    [x.in[s:x.pos]]. *)
Definition runLength (rest : gostring) : nat :=
  fst (fst (fst (scanRun rest O false false false))).

Definition literalRun (rest : gostring) : gostring :=
  firstn (runLength rest) rest.

Definition hasTimeChar (part : gostring) : bool :=
  existsb (fun c => inb c ["-"; "T"; "+"; "Z"]%char) part.

Definition hasIPChar (part : gostring) : bool :=
  existsb (fun c => inb c [":"; "."]%char) part.

(** The last byte of the run is an [m] or an [h]. *)
Fixpoint endsWithUnit (part : gostring) : bool :=
  match part with
  | [] => false
  | [c] => inb c ["m"; "h"]%char
  | _ :: part' => endsWithUnit part'
  end.

(** The kinds of literal, and the priority among them in the words of the
    specification: duration first, then timestamp, then address, then
    integer. *)
Inductive literalKind := KDuration | KTime | KIP | KInteger | KNone.

Definition claimedKind (part : gostring) : literalKind :=
  if endsWithUnit part then KDuration
  else if hasTimeChar part then KTime
  else if hasIPChar part then KIP
  else match part with [] => KNone | _ :: _ => KInteger end.

(** The priority of the [switch] in [Lex]. *)
Definition lexKind (part : gostring) : literalKind :=
  if hasTimeChar part then KTime
  else if hasIPChar part then KIP
  else if endsWithUnit part then KDuration
  else match part with [] => KNone | _ :: _ => KInteger end.

(** A property [Iv] of every semantic value held by a parser state and a
    property [Ix] of its lexer. *)
Definition pstate_all (Iv : parserSymType -> Prop) (Ix : parserLex -> Prop)
  (p : pstate) : Prop :=
  Ix (plex p) /\ Iv (lval p) /\ Iv (parserVAL p) /\ Forall Iv (parserS p).

Definition control_all (Iv : parserSymType -> Prop) (Ix : parserLex -> Prop)
  (c : control) : Prop :=
  match c with
  | ToStack p => pstate_all Iv Ix p
  | ToNewstate p => pstate_all Iv Ix p
  | Ret _ x => Ix x
  | Panic => True
  end.

(** A range error names a value at or above the bound of its field. *)
Definition aboveBound (m : errmsg) : Prop :=
  match m with
  | InvalidPort n => 65536 <= n
  | InvalidVlan n => 65536 <= n
  | InvalidMpls n => 2 ^ 20 <= n
  | InvalidProto n => 256 <= n
  | _ => True
  end.

Definition errorsAboveBound (x : parserLex) : Prop :=
  forall e, err x = Some e -> aboveBound (err_msg e).

Definition numNonneg (v : parserSymType) : Prop := 0 <= num v.

(** [fileTime] lies in [[start - 1 minute, stop + 1 minute]], a zero bound
    leaving its side open. *)
Definition withinSlack (start stop fileTime : Time) : bool :=
  (IsZero start || (start - time_Minute <=? fileTime))
  && (IsZero stop || (fileTime <=? stop + time_Minute)).

(** An index file for running examples: positions are lists of offsets,
    the sentinels those of package [base], and every lookup finds the one
    record at offset 0. *)
Definition sampleIndex (name : string) : IndexFile (list Z) unit :=
  {| Name := str name;
     PortPositions := fun _ => ([0], None);
     VLANPositions := fun _ => ([0], None);
     MPLSPositions := fun _ => ([0], None);
     ProtoPositions := fun _ => ([0], None);
     IPPositions := fun _ _ => ([0], None) |}.

(** The time leaves of a tree, from left to right, as pairs of bounds. *)
Fixpoint timeLeaves (q : Query) : list (Time * Time) :=
  let fix all (a : list Query) : list (Time * Time) :=
    match a with
    | [] => []
    | query :: a' => timeLeaves query ++ all a'
    end in
  match q with
  | timeQuery a0 a1 => [(a0, a1)]
  | unionQuery a => all a
  | intersectQuery a => all a
  | _ => []
  end.

(** The tree holds a [nil] query somewhere. *)
Fixpoint hasNil (q : Query) : bool :=
  let fix any (a : list Query) : bool :=
    match a with
    | [] => false
    | query :: a' => hasNil query || any a'
    end in
  match q with
  | nilQuery => true
  | unionQuery a => any a
  | intersectQuery a => any a
  | _ => false
  end.

(** The loop of [unionQuery.GetTimeSpan] and [intersectQuery.GetTimeSpan]
    on its own. *)
Fixpoint spanAll (a : list Query) (startTime stopTime : Time)
  : outcome (Time * Time) :=
  match a with
  | [] => Returned (startTime, stopTime)
  | query :: a' =>
      match GetTimeSpan query startTime stopTime with
      | Returned (startTime, stopTime) => spanAll a' startTime stopTime
      | Panicked => Panicked
      end
  end.

(** Widening a pair of bounds by one time leaf. *)
Definition widen (bounds leaf : Time * Time) : Time * Time :=
  timeQuery_GetTimeSpan (fst leaf) (snd leaf) (fst bounds) (snd bounds).

(** Chains of one-word leaves joined by operator words, as texts and as the
    trees a left fold builds from them. *)
Inductive leafWord := Wtcp | Wudp | Wicmp.

Definition leafText (l : leafWord) : gostring :=
  match l with
  | Wtcp => str "tcp"
  | Wudp => str "udp"
  | Wicmp => str "icmp"
  end.

Definition leafQuery (l : leafWord) : Query :=
  match l with
  | Wtcp => protocolQuery 6
  | Wudp => protocolQuery 17
  | Wicmp => protocolQuery 1
  end.

Inductive opWord := Wand | Wampersands | Wor | Wbars.

Definition opText (w : opWord) : gostring :=
  match w with
  | Wand => str "and"
  | Wampersands => str "&&"
  | Wor => str "or"
  | Wbars => str "||"
  end.

Definition opQuery (w : opWord) (l r : Query) : Query :=
  match w with
  | Wand => intersectQuery [l; r]
  | Wampersands => intersectQuery [l; r]
  | Wor => unionQuery [l; r]
  | Wbars => unionQuery [l; r]
  end.

Definition chainTail (rest : list (opWord * leafWord)) : gostring :=
  flat_map (fun wl => (str " " ++ opText (fst wl))
                      ++ str " " ++ leafText (snd wl)) rest.

Definition chainText (first : leafWord) (rest : list (opWord * leafWord))
  : gostring :=
  leafText first ++ chainTail rest.

Definition foldLeft (q : Query) (rest : list (opWord * leafWord)) : Query :=
  fold_left (fun q wl => opQuery (fst wl) q (leafQuery (snd wl))) rest q.

(** A parser state between two tokens, with nothing looked ahead and no
    error met. *)
Definition between (x : parserLex) (lv VAL : parserSymType)
  (S : list parserSymType) (state : Z) : pstate :=
  {| plex := x; lval := lv; char := -1; parsertoken := -1; parserS := S;
     parserVAL := VAL; parserstate := state; Errflag := 0; Nerrs := 0 |}.

(** Vocabulary of the termination argument. *)

(** A rank of the states that every reduction lowers: the states that
    reduce to [time], those that reduce to [top], those that reduce to
    [query], the one that reduces to the start symbol, the rest. *)
Definition rankTable : list Z :=
  [0; 0; 1; 2; 0; 0; 0; 0; 0; 0;
   0; 3; 3; 3; 0; 0; 0; 0; 0; 3;
   3; 3; 3; 0; 0; 1; 3; 4; 0; 3;
   0; 2; 2; 3; 0; 0; 3; 4; 0; 3;
   3; 3].

Definition rank (state : Z) : nat := Z.to_nat (at_ rankTable state).

(** Bytes left to read, counting a token looked ahead and not yet
    shifted. *)
Definition remaining (p : pstate) : nat :=
  (length (inp (plex p)) - pos (plex p)) + (if 0 <? char p then 1 else 0).

(** What bounds the number of jumps [Parse] still makes. *)
Definition potential (p : pstate) : nat :=
  5 * remaining p + rank (parserstate p).

(** No error recovery under way, the cursor inside the input, and the
    lookahead translated. *)
Definition steady (p : pstate) : Prop :=
  Errflag p = 0 /\ (pos (plex p) <= length (inp (plex p)))%nat
  /\ (0 <= char p -> parsertoken p = translate (char p)).

(** A jump from [p] that returns, or goes on from a steady state of lower
    potential. *)
Definition progress (p : pstate) (c : control) : Prop :=
  match c with
  | ToStack p' => steady p' /\ (potential p' < potential p)%nat
  | ToNewstate _ => False
  | Ret _ _ => True
  | Panic => False
  end.

Definition rankAt (i : nat) : nat := Z.to_nat (nth i rankTable 0).

(** The check, on the tables, that a reduction in state [i] leads to a
    state of lower rank whatever state it uncovers. *)
Definition lowersRank (i : nat) : bool :=
  let n := nth i parserDef 0 in
  if (n =? 0) || (n =? -2) then true
  else
    let nt := at_ parserR1 n in
    let g := at_ parserPgo nt in
    negb (nt =? 0)
    && Nat.ltb (rankAt (Z.to_nat (at_ parserAct g))) (rankAt i)
    && forallb (fun k => negb (nth k parserChk 0 =? - nt)
                         || Nat.ltb (rankAt k) (rankAt i)) (seq 0 42).

(** A byte at which [Lex] finds no token: no white space, no first byte of a
    keyword, no byte of a literal run, no punctuation. *)
Definition startsNoToken (g : ascii) : bool :=
  negb (IsSpace g)
  && negb (existsb (fun ti => match fst ti with
                              | c :: _ => Ascii.eqb g c
                              | [] => true
                              end) tokens)
  && negb (inb g [":"; "."; "0"; "1"; "2"; "3"; "4"; "5"; "6"; "7"; "8"; "9";
                  "a"; "b"; "c"; "d"; "e"; "f"; "m"; "h"; "-"; "T"; "+";
                  "Z"; "("; ")"; "/"]%char).

(** The three leaves made of a keyword and an integer, with their bounds. *)
Inductive numField := Fport | Fvlan | Fmpls.

Definition fieldText (f : numField) : gostring :=
  match f with
  | Fport => str "port"
  | Fvlan => str "vlan"
  | Fmpls => str "mpls"
  end.

Definition fieldBound (f : numField) : Z :=
  match f with
  | Fport => 65536
  | Fvlan => 65536
  | Fmpls => 2 ^ 20
  end.

Definition fieldQuery (f : numField) (n : Z) : Query :=
  match f with
  | Fport => portQuery n
  | Fvlan => vlanQuery n
  | Fmpls => mplsQuery n
  end.

Definition fieldError (f : numField) (n : Z) : errmsg :=
  match f with
  | Fport => InvalidPort n
  | Fvlan => InvalidVlan n
  | Fmpls => InvalidMpls n
  end.

(** The error as [Error] builds it when the whole input has been read. *)
Definition errorAtEnd (m : errmsg) (input : gostring) : error :=
  {| err_msg := m; err_pos := length input; err_before := input;
     err_after := [] |}.

(** The loop of [unionQuery.LookupIn] and [intersectQuery.LookupIn] on its
    own. *)
Fixpoint lookupAll (lib : GoLib) (Positions IndexErr : Type)
  (AllPositions NoPositions nilPositions : Positions)
  (Union Intersect combine : Positions -> Positions -> Positions)
  (index : IndexFile Positions IndexErr) (a : list Query)
  (positions : Positions)
  : outcome (Positions * option (lookupError IndexErr)) :=
  match a with
  | [] => Returned (positions, None)
  | query :: a' =>
      match LookupIn lib Positions IndexErr AllPositions NoPositions
                     nilPositions Union Intersect query index with
      | Returned (pos, None) =>
          lookupAll lib Positions IndexErr AllPositions NoPositions
                    nilPositions Union Intersect combine index a'
                    (combine positions pos)
      | Returned (_, Some e) => Returned (nilPositions, Some e)
      | Panicked => Panicked
      end
  end.

(** A bound of a time leaf that is unset, or late enough for the slack of
    one minute to leave it after the zero time. *)
Definition usualBounds (leaf : Time * Time) : Prop :=
  (fst leaf = 0 \/ time_Minute < fst leaf)
  /\ (snd leaf = 0 \/ 0 < snd leaf).

(** The bounds [wide] reach at least as far as the set bounds of [b]. *)
Definition covers (wide b : Time * Time) : Prop :=
  (fst b <> 0 -> 0 < fst wide <= fst b)
  /\ (snd b <> 0 -> snd b <= snd wide).

Definition withSlack (leaf : Time * Time) : Time * Time :=
  (if fst leaf =? 0 then 0 else fst leaf - time_Minute,
   if snd leaf =? 0 then 0 else snd leaf + time_Minute).

(** What Go's [net.ParseIP] gives for every text it accepts: 16 bytes. *)
Definition sixteenBytes (lib : GoLib) : Prop :=
  forall s i, net_ParseIP lib s = Some i ->
    length i = 16%nat /\ Forall is_byte i.

(** The first twelve bytes of an IPv4 address in its 16-byte form. *)
Definition v4InV6Prefix : list Z := [0; 0; 0; 0; 0; 0; 0; 0; 0; 0; 255; 255].

(* ================================================================= *)
(** ** Query texts *)

(** The texts that the grammar of [parser.y] derives, token by token.  Every
    token of a text comes with the white space in front of it (a [g], which
    may be empty); literals are kept as the bytes of the input. *)

(** [time: TIME | DURATION AGO] *)
Inductive timeText :=
| Stamp (g part : gostring)
| Ago (g part g2 : gostring).

(** [query1] and [query]: the operands, and the chains of operands joined by
    [AND] and [OR]. *)
Inductive query1Text :=
| Thost (g1 g2 a : gostring)
| Tfield (f : numField) (g1 g2 ds : gostring)
| Tproto (g1 g2 g3 ds : gostring)
| Tcidr (g1 g2 a g3 g4 ds : gostring)
| Tmask (g1 g2 a g3 g4 m : gostring)
| Tparen (g1 : gostring) (q : queryText) (g2 : gostring)
| Tword (g : gostring) (l : leafWord)
| Tbefore (g : gostring) (t : timeText)
| Tafter (g : gostring) (t : timeText)
| Tbetween (g1 : gostring) (t1 : timeText) (g2 : gostring) (t2 : timeText)
with queryText :=
| Tone (o : query1Text)
| Tbin (q : queryText) (g : gostring) (w : opWord) (o : query1Text).

Scheme query1Text_mut := Induction for query1Text Sort Prop
  with queryText_mut := Induction for queryText Sort Prop.

(** The bytes of a text. *)
Definition textT (t : timeText) : gostring :=
  match t with
  | Stamp g part => g ++ part
  | Ago g part g2 => g ++ part ++ g2 ++ str "ago"
  end.

Fixpoint text1 (o : query1Text) : gostring :=
  match o with
  | Thost g1 g2 a => g1 ++ str "host" ++ g2 ++ a
  | Tfield f g1 g2 ds => g1 ++ fieldText f ++ g2 ++ ds
  | Tproto g1 g2 g3 ds => g1 ++ str "ip" ++ g2 ++ str "proto" ++ g3 ++ ds
  | Tcidr g1 g2 a g3 g4 ds =>
      g1 ++ str "net" ++ g2 ++ a ++ g3 ++ str "/" ++ g4 ++ ds
  | Tmask g1 g2 a g3 g4 m =>
      g1 ++ str "net" ++ g2 ++ a ++ g3 ++ str "mask" ++ g4 ++ m
  | Tparen g1 q g2 => g1 ++ str "(" ++ textQ q ++ g2 ++ str ")"
  | Tword g l => g ++ leafText l
  | Tbefore g t => g ++ str "before" ++ textT t
  | Tafter g t => g ++ str "after" ++ textT t
  | Tbetween g1 t1 g2 t2 =>
      g1 ++ str "between" ++ textT t1 ++ g2 ++ str "and" ++ textT t2
  end
with textQ (q : queryText) : gostring :=
  match q with
  | Tone o => text1 o
  | Tbin q g w o => textQ q ++ g ++ opText w ++ text1 o
  end.

(** A chain [first w1 o1 w2 o2 ...] with no parentheses around its operands
    but their own: the text it is, and the derivation that nests to the
    left. *)
Definition restText (rest : list (gostring * opWord * query1Text))
  : gostring :=
  flat_map (fun gwo => let '(g, w, o) := gwo in g ++ opText w ++ text1 o)
           rest.

Definition flatText (first : query1Text)
  (rest : list (gostring * opWord * query1Text)) : gostring :=
  text1 first ++ restText rest.

Definition leftNested (q : queryText)
  (rest : list (gostring * opWord * query1Text)) : queryText :=
  fold_left (fun q gwo => let '(g, w, o) := gwo in Tbin q g w o) rest q.

(** A run of white space. *)
Definition spaces (g : gostring) : Prop := forallb IsSpace g = true.

(** With [follow] after it in the input, [part] is read by [Lex] as one
    literal of the kind [k]: no keyword begins there, and the loop [L] stops
    exactly at the end of [part]. *)
Definition literalAt (k : literalKind) (part follow : gostring) : Prop :=
  matchKeyword tokens (part ++ follow) = None
  /\ literalRun (part ++ follow) = part
  /\ lexKind part = k.

Section Reading.
Variable lib : GoLib.

(** The texts that [Lex] cuts into the tokens they are written with, when
    [follow] comes after them: the gaps are white space, every literal is
    read as a whole and with its kind, and the addresses and integers are
    accepted by [net.ParseIP] and [strconv.Atoi] (a literal that is not would
    end the token stream). *)
Definition wellSpacedT (t : timeText) (follow : gostring) : Prop :=
  match t with
  | Stamp g part => spaces g /\ literalAt KTime part follow
  | Ago g part g2 =>
      spaces g /\ spaces g2
      /\ literalAt KDuration part (g2 ++ str "ago" ++ follow)
  end.

Definition addressAt (a follow : gostring) : Prop :=
  literalAt KIP a follow /\ net_ParseIP lib a <> None.

Definition integerAt (ds follow : gostring) : Prop :=
  literalAt KInteger ds follow /\ Atoi ds <> None.

Fixpoint wellSpaced1 (o : query1Text) (follow : gostring) : Prop :=
  match o with
  | Thost g1 g2 a => spaces g1 /\ spaces g2 /\ addressAt a follow
  | Tfield f g1 g2 ds => spaces g1 /\ spaces g2 /\ integerAt ds follow
  | Tproto g1 g2 g3 ds =>
      spaces g1 /\ spaces g2 /\ spaces g3 /\ integerAt ds follow
  | Tcidr g1 g2 a g3 g4 ds =>
      spaces g1 /\ spaces g2 /\ spaces g3 /\ spaces g4
      /\ addressAt a (g3 ++ str "/" ++ g4 ++ ds ++ follow)
      /\ integerAt ds follow
  | Tmask g1 g2 a g3 g4 m =>
      spaces g1 /\ spaces g2 /\ spaces g3 /\ spaces g4
      /\ addressAt a (g3 ++ str "mask" ++ g4 ++ m ++ follow)
      /\ addressAt m follow
  | Tparen g1 q g2 =>
      spaces g1 /\ spaces g2 /\ wellSpacedQ q (g2 ++ str ")" ++ follow)
  | Tword g l => spaces g
  | Tbefore g t => spaces g /\ wellSpacedT t follow
  | Tafter g t => spaces g /\ wellSpacedT t follow
  | Tbetween g1 t1 g2 t2 =>
      spaces g1 /\ spaces g2
      /\ wellSpacedT t1 (g2 ++ str "and" ++ textT t2 ++ follow)
      /\ wellSpacedT t2 follow
  end
with wellSpacedQ (q : queryText) (follow : gostring) : Prop :=
  match q with
  | Tone o => wellSpaced1 o follow
  | Tbin q g w o =>
      wellSpacedQ q (g ++ opText w ++ text1 o ++ follow)
      /\ spaces g /\ wellSpaced1 o follow
  end.

(** The values that [Lex] gives to the literals. *)
Definition timeValue (now : Time) (t : timeText) : Time :=
  match t with
  | Stamp _ part =>
      match time_Parse_RFC3339 lib part with Some v => v | None => 0 end
  | Ago _ part _ =>
      Add now (- match time_ParseDuration lib part with
                 | Some d => d
                 | None => 0
                 end)
  end.

Definition ipValue (a : gostring) : IP :=
  match net_ParseIP lib a with
  | Some i => match To4 i with Some ip4 => ip4 | None => i end
  | None => []
  end.

Definition numValue (ds : gostring) : Z :=
  match Atoi ds with Some n => n | None => 0 end.

(** The tree of a text: what the actions of the productions build, read
    along the derivation. *)
Fixpoint tree1 (now : Time) (o : query1Text) : Query :=
  match o with
  | Thost _ _ a => ipQuery (ipValue a) (ipValue a)
  | Tfield f _ _ ds =>
      match f with
      | Fport => portQuery (to_uint16 (numValue ds))
      | Fvlan => vlanQuery (to_uint16 (numValue ds))
      | Fmpls => mplsQuery (to_uint32 (numValue ds))
      end
  | Tproto _ _ _ ds => protocolQuery (to_byte (numValue ds))
  | Tcidr _ _ a _ _ ds =>
      let mask := CIDRMask (numValue ds)
                           (Z.of_nat (length (ipValue a)) * 8) in
      let '(from, to, _) :=
        ipsFromNet (ipValue a)
                   (match mask with Some m => m | None => [] end) in
      ipQuery from to
  | Tmask _ _ a _ _ m =>
      let '(from, to, _) := ipsFromNet (ipValue a) (ipValue m) in
      ipQuery from to
  | Tparen _ q _ => treeQ now q
  | Tword _ l => leafQuery l
  | Tbefore _ t => timeQuery 0 (timeValue now t)
  | Tafter _ t => timeQuery (timeValue now t) 0
  | Tbetween _ t1 _ t2 => timeQuery (timeValue now t1) (timeValue now t2)
  end
with treeQ (now : Time) (q : queryText) : Query :=
  match q with
  | Tone o => tree1 now o
  | Tbin q _ w o => opQuery w (treeQ now q) (tree1 now o)
  end.

(** The lexer moved over a gap and a token. *)
Definition adv (x : parserLex) (g t : gostring) : parserLex :=
  set_pos x (pos x + length g + length t).

(** The lexer after a text: the cursor behind it, and the calls of [Error]
    and of [HandleBefore], [HandleAfter] and [HandleBetween] that [Lex] and
    the actions make on the way, in the order of the text. *)
Definition readT (t : timeText) (x : parserLex) : parserLex :=
  match t with
  | Stamp g part =>
      match time_Parse_RFC3339 lib part with
      | Some _ => adv x g part
      | None => Error (adv x g part) (BadTime part)
      end
  | Ago g part g2 =>
      adv (match time_ParseDuration lib part with
           | Some _ => adv x g part
           | None => Error (adv x g part) (BadDuration part)
           end) g2 (str "ago")
  end.

Definition checkRange (x : parserLex) (n bound : Z) (m : errmsg)
  : parserLex :=
  if (n <? 0) || (bound <=? n) then Error x m else x.

Definition checkNet (x : parserLex) (e : option errmsg) : parserLex :=
  match e with Some m => Error x m | None => x end.

Fixpoint read1 (o : query1Text) (x : parserLex) : parserLex :=
  match o with
  | Thost g1 g2 a => adv (adv x g1 (str "host")) g2 a
  | Tfield f g1 g2 ds =>
      checkRange (adv (adv x g1 (fieldText f)) g2 ds)
                 (numValue ds) (fieldBound f) (fieldError f (numValue ds))
  | Tproto g1 g2 g3 ds =>
      checkRange (adv (adv (adv x g1 (str "ip")) g2 (str "proto")) g3 ds)
                 (numValue ds) 256 (InvalidProto (numValue ds))
  | Tcidr g1 g2 a g3 g4 ds =>
      let x := adv (adv (adv (adv x g1 (str "net")) g2 a) g3 (str "/"))
                   g4 ds in
      let mask := CIDRMask (numValue ds)
                           (Z.of_nat (length (ipValue a)) * 8) in
      let x := match mask with
               | None => Error x (BadCidr (ipValue a) (numValue ds))
               | Some _ => x
               end in
      checkNet x (snd (ipsFromNet (ipValue a)
                         (match mask with Some m => m | None => [] end)))
  | Tmask g1 g2 a g3 g4 m =>
      checkNet (adv (adv (adv (adv x g1 (str "net")) g2 a) g3 (str "mask"))
                    g4 m)
               (snd (ipsFromNet (ipValue a) (ipValue m)))
  | Tparen g1 q g2 => adv (readQ q (adv x g1 (str "("))) g2 (str ")")
  | Tword g l => adv x g (leafText l)
  | Tbefore g t =>
      HandleBefore (readT t (adv x g (str "before"))) (timeValue (now x) t)
  | Tafter g t =>
      HandleAfter (readT t (adv x g (str "after"))) (timeValue (now x) t)
  | Tbetween g1 t1 g2 t2 =>
      let x' := readT t2 (adv (readT t1 (adv x g1 (str "between")))
                              g2 (str "and")) in
      let T1 := timeValue (now x) t1 in
      let T2 := timeValue (now x) t2 in
      HandleBetween
        (if After T1 T2 then Error x' (BadBetween T1 T2) else x') T1 T2
  end
with readQ (q : queryText) (x : parserLex) : parserLex :=
  match q with
  | Tone o => read1 o x
  | Tbin q g w o => read1 o (adv (readQ q x) g (opText w))
  end.

(** The same for a chain given as the list of its operands. *)
Fixpoint wellSpacedRest (rest : list (gostring * opWord * query1Text))
  (follow : gostring) : Prop :=
  match rest with
  | [] => True
  | (g, w, o) :: rest' =>
      spaces g /\ wellSpaced1 o (restText rest' ++ follow)
      /\ wellSpacedRest rest' follow
  end.

Definition wellSpacedChain (first : query1Text)
  (rest : list (gostring * opWord * query1Text)) (follow : gostring)
  : Prop :=
  wellSpaced1 first (restText rest ++ follow) /\ wellSpacedRest rest follow.

Definition foldTree (now : Time) (q : Query)
  (rest : list (gostring * opWord * query1Text)) : Query :=
  fold_left (fun q gwo => let '(_, w, o) := gwo in
                          opQuery w q (tree1 now o)) rest q.

Definition readRest (rest : list (gostring * opWord * query1Text))
  (x : parserLex) : parserLex :=
  fold_left (fun x gwo => let '(g, w, o) := gwo in
                          read1 o (adv x g (opText w))) rest x.

(** A time whose literal the library accepts. *)
Definition accepted (t : timeText) : Prop :=
  match t with
  | Stamp _ part => time_Parse_RFC3339 lib part <> None
  | Ago _ part _ => time_ParseDuration lib part <> None
  end.

(** What [parse] returns for a lexer that has read a text whose tree is
    [q]. *)
Definition parsed (x : parserLex) (q : Query)
  : Query * Time * Time * option error :=
  match err x with
  | Some e => (nilQuery, 0, 0, Some e)
  | None => (q, startTime x, stopTime x, None)
  end.
End Reading.

(** The error that [Error] builds with [before] read and [after] left. *)
Definition errorAt (m : errmsg) (before after : gostring) : error :=
  {| err_msg := m; err_pos := length before; err_before := before;
     err_after := after |}.

(** The text ahead of the cursor. *)
Definition ahead (x : parserLex) : gostring := skipn (pos x) (inp x).

(** States of the automaton in which an operand, a chain or a time may
    begin, and the states that the tables reach once it has been read (the
    goto of [query1], [query] and [time]). *)
Inductive chainPlace := AtStart | InParen.

Inductive operandPlace := First (c : chainPlace) | AfterAnd | AfterOr.

Inductive timePlace := OfBefore | OfAfter | OfBetween | OfBetweenAnd.

Definition chainState (c : chainPlace) : Z :=
  match c with AtStart => 0 | InParen => 10 end.

Definition chainGoto (c : chainPlace) : Z :=
  match c with AtStart => 2 | InParen => 25 end.

Definition operandState (c : operandPlace) : Z :=
  match c with First c => chainState c | AfterAnd => 17 | AfterOr => 18 end.

Definition operandGoto (c : operandPlace) : Z :=
  match c with First _ => 3 | AfterAnd => 31 | AfterOr => 32 end.

Definition opPlace (w : opWord) : operandPlace :=
  match w with
  | Wand | Wampersands => AfterAnd
  | Wor | Wbars => AfterOr
  end.

Definition timeState (c : timePlace) : Z :=
  match c with
  | OfBefore => 14 | OfAfter => 15 | OfBetween => 16 | OfBetweenAnd => 38
  end.

Definition timeGoto (c : timePlace) : Z :=
  match c with
  | OfBefore => 26 | OfAfter => 29 | OfBetween => 30 | OfBetweenAnd => 41
  end.

(** The state to which the tables shift the lexer's token [c] in [state], if
    they do. *)
Definition shiftTo (state c : Z) : option Z :=
  let n := at_ parserPact state in
  if n <=? parserFlag then None
  else
    let n := n + translate c in
    if (n <? 0) || (parserLast <=? n) then None
    else if at_ parserChk (at_ parserAct n) =? translate c
         then Some (at_ parserAct n)
         else None.

(** The production by which [state] reduces without looking ahead. *)
Definition reduces (state : Z) : option Z :=
  if at_ parserPact state <=? parserFlag then
    let n := at_ parserDef state in
    if (n =? -2) || (n =? 0) then None else Some n
  else None.

(** The code given by [Lex] to a token of one byte. *)
Definition charCode (c : ascii) : Z := Z.of_nat (nat_of_ascii c).

(** [c'] is reached from [c] by jumps to the labels of [Parse]. *)
Definition reaches (lib : GoLib) (c c' : control) : Prop :=
  exists k, forall fuel, run lib (k + fuel) c = run lib fuel c'.

(** Where the reading of an operand, of a chain, leaves [Parse]. *)
Definition operand_read (lib : GoLib) (o : query1Text) : Prop :=
  forall c x follow lv VAL S,
    wellSpaced1 lib o follow -> ahead x = text1 o ++ follow ->
    exists lv' VAL',
      reaches lib (ToStack (between x lv VAL S (operandState c)))
                  (ToStack (between (read1 lib o x) lv' VAL'
                              (set_yys VAL (operandState c) :: S)
                              (operandGoto c)))
      /\ query VAL' = tree1 lib (now x) o
      /\ ahead (read1 lib o x) = follow
      /\ now (read1 lib o x) = now x.

Definition chain_read (lib : GoLib) (q : queryText) : Prop :=
  forall c x follow lv VAL S,
    wellSpacedQ lib q follow -> ahead x = textQ q ++ follow ->
    exists lv' VAL',
      reaches lib (ToStack (between x lv VAL S (chainState c)))
                  (ToStack (between (readQ lib q x) lv' VAL'
                              (set_yys VAL (chainState c) :: S)
                              (chainGoto c)))
      /\ query VAL' = treeQ lib (now x) q
      /\ ahead (readQ lib q x) = follow
      /\ now (readQ lib q x) = now x.

(** A library that knows the first instants of the year 1: Go's zero time
    and five minutes later. *)
Definition yearOneLib : GoLib := {|
  time_Parse_RFC3339 := assoc
    [ ("0001-01-01T00:00:00Z"%string, 0);
      ("0001-01-01T00:05:00Z"%string, 5 * time_Minute) ];
  net_ParseIP := fun _ => None;
  time_ParseDuration := fun _ => None;
  filepath_Base := fun s => lastElement s []
|}.

(* ================================================================= *)
(** ** The bounds that Go checks *)

(** [i] is an index of the table [tbl]. *)
Definition inTable (tbl : list Z) (i : Z) : bool :=
  (0 <=? i) && (i <? len tbl).

(** [x.in[x.pos:]] and [x.in[:x.pos]] are slices of the input: [Lex] takes
    the first on its way to the keywords, and every access after it is
    guarded by [x.pos < len(x.in)]; [Error] takes both when it records. *)
Definition cursor_ok (x : parserLex) : bool :=
  Nat.leb (pos x) (length (inp x)).

Definition Error_ok (x : parserLex) : bool :=
  match err x with
  | None => cursor_ok x
  | Some _ => true
  end.

(** [parserS[parserpt-k : parserpt+1]] is a slice of the stack. *)
Definition slice_ok (k : nat) (S : list parserSymType) : bool :=
  Nat.ltb k (length S).

(** The loop over [parserTok3] reads [parserTok3[i+1]] behind a match. *)
Fixpoint tok3_ok (tbl : list Z) (char : Z) : bool :=
  match tbl with
  | [] => true
  | t :: tbl' =>
      if t =? char then match tbl' with [] => false | _ :: _ => true end
      else match tbl' with
           | _ :: tbl'' => tok3_ok tbl'' char
           | [] => true
           end
  end.

(** The indices of [parserlex1] after the call of [Lex]. *)
Definition translate_ok (char : Z) : bool :=
  let token :=
    if char <=? 0 then at_ parserTok1 0
    else if char <? len parserTok1 then at_ parserTok1 char
    else if (parserPrivate <=? char)
            && (char <? parserPrivate + len parserTok2)
    then at_ parserTok2 (char - parserPrivate)
    else tok3_loop parserTok3 char 0 in
  (if char <=? 0 then inTable parserTok1 0
   else if char <? len parserTok1 then inTable parserTok1 char
   else if (parserPrivate <=? char)
           && (char <? parserPrivate + len parserTok2)
   then inTable parserTok2 (char - parserPrivate)
   else tok3_ok parserTok3 char)
  && (if token =? 0 then inTable parserTok2 1 else true).

(** The slice and the calls of [Error] of the action of a production. *)
Definition range_ok (x : parserLex) (n bound : Z) : bool :=
  if (n <? 0) || (bound <=? n) then Error_ok x else true.

Definition action_ok (nt : Z) (S : list parserSymType) (x : parserLex)
  : bool :=
  match nt with
  | 1 => slice_ok 1 S
  | 3 => slice_ok 3 S
  | 4 => slice_ok 3 S
  | 5 => slice_ok 2 S
  | 6 => slice_ok 2 S && range_ok x (num (dollar S 2 2)) 65536
  | 7 => slice_ok 2 S && range_ok x (num (dollar S 2 2)) 65536
  | 8 => slice_ok 2 S && range_ok x (num (dollar S 2 2)) (Z.shiftl 1 20)
  | 9 => slice_ok 3 S && range_ok x (num (dollar S 3 3)) 256
  | 10 =>
      slice_ok 4 S
      && (let a := ip (dollar S 4 2) in
          let n := num (dollar S 4 4) in
          let mask := CIDRMask n (Z.of_nat (length a) * 8) in
          (match mask with None => Error_ok x | Some _ => true end)
          && (let x := match mask with
                       | None => Error x (BadCidr a n)
                       | Some _ => x
                       end in
              match snd (ipsFromNet a (match mask with
                                       | Some m => m
                                       | None => []
                                       end)) with
              | Some _ => Error_ok x
              | None => true
              end))
  | 11 =>
      slice_ok 4 S
      && match snd (ipsFromNet (ip (dollar S 4 2)) (ip (dollar S 4 4))) with
         | Some _ => Error_ok x
         | None => true
         end
  | 12 => slice_ok 3 S
  | 13 => slice_ok 1 S
  | 14 => slice_ok 1 S
  | 15 => slice_ok 1 S
  | 16 => slice_ok 2 S
  | 17 => slice_ok 2 S
  | 18 =>
      slice_ok 4 S
      && (if After (time (dollar S 4 2)) (time (dollar S 4 4))
          then Error_ok x else true)
  | 19 => slice_ok 1 S
  | 20 => slice_ok 2 S
  | _ => true
  end.

(** The loop that pops the stack down to a state shifting [error]. *)
Fixpoint recover_ok (S : list parserSymType) : bool :=
  match S with
  | [] => true
  | v :: S' =>
      inTable parserPact (yys v)
      && (let n := at_ parserPact (yys v) + parserErrCode in
          if (0 <=? n) && (n <? parserLast)
          then inTable parserAct n
               && inTable parserChk (at_ parserAct n)
               && (if at_ parserChk (at_ parserAct n) =? parserErrCode
                   then true else recover_ok S')
          else recover_ok S')
  end.

Section Checked.
Variable lib : GoLib.

Definition lookahead_ok (p : pstate) : bool :=
  if char p <? 0
  then cursor_ok (plex p)
       && translate_ok (snd (Lex lib (plex p) (lval p)))
  else true.

(** Reduction by production [n]: [parserR2[n]], [parserS[parserp+1]],
    [parserR1[n]], [parserPgo[...]], [parserS[parserp].yys], the goto in
    [parserAct] and [parserChk], then the action. *)
Definition reduce_ok (p : pstate) (n : Z) : bool :=
  inTable parserR2 n
  && (let k := Z.to_nat (at_ parserR2 n) in
      Nat.leb k (length (parserS p))
      && inTable parserR1 n
      && (let nt := at_ parserR1 n in
          let g := at_ parserPgo nt in
          let j := g + yys (nth 0 (skipn k (parserS p)) zeroSym) + 1 in
          inTable parserPgo nt
          && Nat.ltb k (length (parserS p))
          && (if parserLast <=? j then inTable parserAct g
              else inTable parserAct j
                   && inTable parserChk (at_ parserAct j)
                   && (if negb (at_ parserChk (at_ parserAct j) =? - nt)
                       then inTable parserAct g else true)))
      && action_ok n (parserS p) (plex p)).

Definition on_error_ok (p : pstate) : bool :=
  if Errflag p =? 3 then true
  else if (Errflag p =? 0) || (Errflag p =? 1) || (Errflag p =? 2) then
    (if Errflag p =? 0 then Error_ok (plex p) else true)
    && recover_ok (parserS p)
  else reduce_ok p 0.

Definition parserdefault_ok (p : pstate) : bool :=
  inTable parserDef (parserstate p)
  && (let n := at_ parserDef (parserstate p) in
      if n =? -2 then
        lookahead_ok p
        && (let p := lookahead lib p in
            match exca_find parserExca (parserstate p) with
            | None => false
            | Some tbl =>
                match exca_scan tbl (parsertoken p) with
                | None => false
                | Some n =>
                    if n <? 0 then true
                    else if n =? 0 then on_error_ok p
                    else reduce_ok p n
                end
            end)
      else if n =? 0 then on_error_ok p
      else reduce_ok p n).

Definition parsernewstate_ok (p : pstate) : bool :=
  inTable parserPact (parserstate p)
  && (let n := at_ parserPact (parserstate p) in
      if n <=? parserFlag then parserdefault_ok p
      else
        lookahead_ok p
        && (let p := lookahead lib p in
            let n := n + parsertoken p in
            if (n <? 0) || (parserLast <=? n) then parserdefault_ok p
            else
              inTable parserAct n
              && inTable parserChk (at_ parserAct n)
              && (if at_ parserChk (at_ parserAct n) =? parsertoken p
                  then true else parserdefault_ok p))).

(** [parserS[parserp] = parserVAL] comes after the stack has grown. *)
Definition parserstack_ok (p : pstate) : bool :=
  parsernewstate_ok
    {| plex := plex p; lval := lval p; char := char p;
       parsertoken := parsertoken p;
       parserS := set_yys (parserVAL p) (parserstate p) :: parserS p;
       parserVAL := parserVAL p; parserstate := parserstate p;
       Errflag := Errflag p; Nerrs := Nerrs p |}.

(** [Parse] and [parse] with the bounds checked: a jump to a label that
    would take an index or a slice out of range ends in the panic. *)
Fixpoint run_checked (fuel : nat) (c : control)
  : option (outcome (Z * parserLex)) :=
  match c with
  | Ret r x => Some (Returned (r, x))
  | Panic => Some Panicked
  | ToStack p =>
      match fuel with
      | O => None
      | S fuel' =>
          if parserstack_ok p then run_checked fuel' (parserstack lib p)
          else Some Panicked
      end
  | ToNewstate p =>
      match fuel with
      | O => None
      | S fuel' =>
          if parsernewstate_ok p
          then run_checked fuel' (parsernewstate lib p)
          else Some Panicked
      end
  end.

Definition parse_checked (fuel : nat) (now : Time) (input : gostring)
  : option (outcome (Query * Time * Time * option error)) :=
  let lex := newLex now input in
  match run_checked fuel (ToStack (initial lex)) with
  | None => None
  | Some Panicked => Some Panicked
  | Some (Returned (_, lex)) =>
      match err lex with
      | Some e => Some (Returned (nilQuery, 0, 0, Some e))
      | None =>
          Some (Returned (out lex, startTime lex, stopTime lex, None))
      end
  end.
End Checked.

(** The pairs of states that follow each other on the stack: a state and
    the state to which a token is shifted or a nonterminal leads from
    it. *)
Definition transitions : list (Z * Z) :=
  [(0, 1); (0, 2); (0, 3); (0, 4); (0, 5); (0, 6); (0, 7); (0, 8); (0, 9);
   (0, 10); (0, 11); (0, 12); (0, 13); (0, 14); (0, 15); (0, 16); (2, 17);
   (2, 18); (4, 19); (5, 20); (6, 21); (7, 22); (8, 1); (8, 2); (8, 23);
   (9, 24); (10, 3); (10, 4); (10, 5); (10, 6); (10, 7); (10, 8); (10, 9);
   (10, 10); (10, 11); (10, 12); (10, 13); (10, 14); (10, 15); (10, 16);
   (10, 25); (14, 26); (14, 27); (14, 28); (15, 27); (15, 28); (15, 29);
   (16, 27); (16, 28); (16, 30); (17, 4); (17, 5); (17, 6); (17, 7); (17, 8);
   (17, 9); (17, 10); (17, 11); (17, 12); (17, 13); (17, 14); (17, 15);
   (17, 16); (17, 31); (18, 4); (18, 5); (18, 6); (18, 7); (18, 8); (18, 9);
   (18, 10); (18, 11); (18, 12); (18, 13); (18, 14); (18, 15); (18, 16);
   (18, 32); (23, 33); (24, 34); (24, 35); (25, 17); (25, 18); (25, 36);
   (28, 37); (30, 38); (34, 39); (35, 40); (38, 27); (38, 28); (38, 41)].

Definition follows (below above : Z) : bool :=
  existsb (fun t => (fst t =? below) && (snd t =? above)) transitions.

(** The states of a stack, from the top: each follows the one below it, and
    the bottom is the state 0. *)
Fixpoint validPath (path : list Z) : bool :=
  match path with
  | [] => false
  | s :: rest =>
      match rest with
      | [] => s =? 0
      | s' :: _ => follows s' s && validPath rest
      end
  end.

Definition allStates : list Z := map Z.of_nat (seq 0 42).

(** [P] holds of every state found [k] entries below [s] on a stack, and
    every such stack is that deep. *)
Fixpoint backAll (k : nat) (s : Z) (P : Z -> bool) : bool :=
  match k with
  | O => P s
  | S k' =>
      negb (s =? 0)
      && forallb (fun s' => negb (follows s' s) || backAll k' s' P) allStates
  end.

(** The state that the goto of [reduce] finds above [s0] for the left-hand
    side of production [n]. *)
Definition gotoState (s0 n : Z) : Z :=
  let nt := at_ parserR1 n in
  let g := at_ parserPgo nt in
  let j := g + s0 + 1 in
  if parserLast <=? j then at_ parserAct g
  else if negb (at_ parserChk (at_ parserAct j) =? - nt)
       then at_ parserAct g
       else at_ parserAct j.

(** The checks, on the tables, that [transitions] holds every shift and
    every goto, and that a state which reduces sits on a stack deep enough
    for its production. *)
Definition shiftsListed (s : Z) : bool :=
  (at_ parserPact s <=? parserFlag)
  || forallb (fun m => negb (at_ parserChk (at_ parserAct m)
                             =? m - at_ parserPact s)
                       || follows s (at_ parserAct m))
             (map Z.of_nat (seq 0 44)).

Definition reductionFits (s : Z) : bool :=
  let n := at_ parserDef s in
  if (n =? 0) || (n =? -2) then true
  else backAll (Z.to_nat (at_ parserR2 n)) s
               (fun s0 => follows s0 (gotoState s0 n)).

(** The states on the stack of a parser state about to be pushed. *)
Definition pathOf (p : pstate) : list Z :=
  parserstate p :: map yys (parserS p).

(** A parser state whose own state is on top of the stack, as it is at the
    label [parsernewstate]; a jump that goes on from a stack with valid
    states. *)
Definition pushedOn (p : pstate) : Prop :=
  exists rest,
    map yys (parserS p) = parserstate p :: rest
    /\ validPath (parserstate p :: rest) = true.

Definition sound (c : control) : Prop :=
  match c with
  | ToStack p' => validPath (pathOf p') = true
  | ToNewstate _ => False
  | Ret _ _ => True
  | Panic => False
  end.

(* ================================================================= *)
(** * Properties *)

(** ** Bytes *)

Lemma byte_cases (P : Z -> bool) :
  forallb P (map Z.of_nat (seq 0 256)) = true ->
  forall b, is_byte b -> P b = true.
Proof.
  intros H b Hb.
  rewrite forallb_forall in H. apply H.
  apply in_map_iff. exists (Z.to_nat b). split.
  - apply Z2Nat.id. apply Hb.
  - apply in_seq. unfold is_byte in Hb. lia.
Qed.

Lemma byte_not_eq b : is_byte b -> byte_not b = 255 - b.
Proof.
  intros Hb.
  apply Z.eqb_eq.
  apply (byte_cases (fun b => byte_not b =? 255 - b)); [ | exact Hb ].
  vm_compute. reflexivity.
Qed.

Lemma byte_and_le_or b m :
  is_byte b -> is_byte m -> Z.land b m <= Z.lor b (byte_not m).
Proof.
  intros Hb Hm.
  apply Z.leb_le.
  pose (P := fun b => forallb (fun m => Z.land b m <=? Z.lor b (byte_not m))
                              (map Z.of_nat (seq 0 256))).
  assert (HP : P b = true).
  { apply byte_cases; [ | exact Hb ]. vm_compute. reflexivity. }
  unfold P in HP.
  exact (byte_cases _ HP m Hm).
Qed.

(** ** [ipsFromNet] *)

Lemma ipsFromNet_loop_length ip : forall mask,
  length ip = length mask ->
  length (fst (ipsFromNet_loop ip mask)) = length ip
  /\ length (snd (ipsFromNet_loop ip mask)) = length ip.
Proof.
  induction ip as [ | b ip IH ]; intros [ | m mask ] Hlen;
    simpl in *; try discriminate; auto.
  injection Hlen as Hlen.
  destruct (IH mask Hlen) as [H1 H2].
  destruct (ipsFromNet_loop ip mask) as [from to]; simpl in *.
  split; congruence.
Qed.

Lemma ipsFromNet_loop_nth ip : forall mask i,
  length ip = length mask ->
  (i < length ip)%nat ->
  nth i (fst (ipsFromNet_loop ip mask)) 0
    = Z.land (nth i ip 0) (nth i mask 0)
  /\ nth i (snd (ipsFromNet_loop ip mask)) 0
    = Z.lor (nth i ip 0) (byte_not (nth i mask 0)).
Proof.
  induction ip as [ | b ip IH ]; intros [ | m mask ] i Hlen Hi;
    simpl in *; try discriminate; try lia.
  injection Hlen as Hlen.
  specialize (IH mask).
  destruct (ipsFromNet_loop ip mask) as [from to]; simpl in *.
  destruct i as [ | i ]; simpl; [ auto | ].
  apply IH; [ exact Hlen | lia ].
Qed.

Lemma Forall_nth_byte l i :
  Forall is_byte l -> (i < length l)%nat -> is_byte (nth i l 0).
Proof.
  intros H Hi. rewrite Forall_forall in H. apply H. apply nth_In. exact Hi.
Qed.

(** C5. For an address and a mask of the same length, 4 or 16, the
    construction returns no error and two addresses of that length with
    [from[i] = ip[i] & mask[i]] and [to[i] = ip[i] | ^mask[i]] at every index
    [i], so that [from[i] <= to[i]]; for operands of different lengths, or of
    a length that is neither 4 nor 16, it returns an error and no range. *)
Theorem ipsFromNet_spec (ip mask : IP) :
  (length ip = length mask ->
   length ip = 4%nat \/ length ip = 16%nat ->
   Forall is_byte ip -> Forall is_byte mask ->
   exists from to,
     ipsFromNet ip mask = (from, to, None)
     /\ length from = length ip /\ length to = length ip
     /\ forall i, (i < length ip)%nat ->
          nth i from 0 = Z.land (nth i ip 0) (nth i mask 0)
          /\ nth i to 0 = Z.lor (nth i ip 0) (byte_not (nth i mask 0))
          /\ nth i from 0 <= nth i to 0)
  /\ (length ip <> length mask
      \/ (length ip <> 4%nat /\ length ip <> 16%nat) ->
      ipsFromNet ip mask = ([], [], Some (BadIPOrMask ip mask))).
Proof.
  split.
  - intros Hlen H416 Hip Hmask.
    unfold ipsFromNet.
    assert (Hguard :
      negb (Nat.eqb (length ip) (length mask))
      || (negb (Nat.eqb (length ip) 4) && negb (Nat.eqb (length ip) 16))
      = false).
    { rewrite <- Hlen, Nat.eqb_refl. simpl.
      destruct H416 as [-> | ->]; reflexivity. }
    rewrite Hguard.
    pose proof (ipsFromNet_loop_length ip mask Hlen) as [L1 L2].
    pose proof (ipsFromNet_loop_nth ip mask) as Hnth.
    destruct (ipsFromNet_loop ip mask) as [from to]; simpl in *.
    exists from, to. repeat split; auto.
    + apply (Hnth i Hlen H).
    + apply (Hnth i Hlen H).
    + destruct (Hnth i Hlen H) as [-> ->].
      apply byte_and_le_or.
      * apply Forall_nth_byte; assumption.
      * apply Forall_nth_byte; [ assumption | congruence ].
  - intros Hbad. unfold ipsFromNet.
    destruct Hbad as [Hne | [H4 H16]].
    + apply Nat.eqb_neq in Hne. rewrite Hne. reflexivity.
    + apply Nat.eqb_neq in H4, H16. rewrite H4, H16.
      rewrite orb_true_r. reflexivity.
Qed.

Lemma ipsFromNet_spec_witness :
  (exists from to,
     ipsFromNet [1; 2; 3; 4] [255; 0; 0; 0] = (from, to, None)
     /\ length from = 4%nat /\ length to = 4%nat
     /\ forall i, (i < 4)%nat ->
          nth i from 0 = Z.land (nth i [1; 2; 3; 4] 0) (nth i [255; 0; 0; 0] 0)
          /\ nth i to 0
             = Z.lor (nth i [1; 2; 3; 4] 0)
                     (byte_not (nth i [255; 0; 0; 0] 0))
          /\ nth i from 0 <= nth i to 0)
  /\ ipsFromNet [1; 2; 3; 4] [255; 0]
     = ([], [], Some (BadIPOrMask [1; 2; 3; 4] [255; 0])).
Proof.
  split.
  - apply (proj1 (ipsFromNet_spec [1; 2; 3; 4] [255; 0; 0; 0])).
    + reflexivity.
    + left; reflexivity.
    + repeat constructor; unfold is_byte; lia.
    + repeat constructor; unfold is_byte; lia.
  - apply (proj2 (ipsFromNet_spec [1; 2; 3; 4] [255; 0])).
    left. simpl. lia.
Defined.

(** ** Lists of bytes *)

Lemma skipn_app_more {A} (l a b : list A) p :
  skipn p l = a ++ b -> skipn (p + length a) l = b.
Proof.
  intros H.
  rewrite Nat.add_comm, <- skipn_skipn, H.
  rewrite skipn_app, skipn_all, Nat.sub_diag. reflexivity.
Qed.

Lemma firstn_app_exact {A} (a b : list A) : firstn (length a) (a ++ b) = a.
Proof.
  rewrite firstn_app, Nat.sub_diag, firstn_all. simpl.
  apply app_nil_r.
Qed.

(** ** The keyword matcher *)

Lemma keyword_cases (P : gostring -> Z -> Prop) :
  Forall (fun ti => P (fst ti) (snd ti)) tokens ->
  forall t i, In (t, i) tokens -> P t i.
Proof.
  intros H t i Hin. rewrite Forall_forall in H. exact (H (t, i) Hin).
Qed.

Lemma keyword_skipSpaces t i rest :
  In (t, i) tokens -> skipSpaces (t ++ rest) = O.
Proof.
  intros Hin. revert rest.
  apply (keyword_cases (fun t _ => forall rest, skipSpaces (t ++ rest) = O))
    with (i := i); [ | exact Hin ].
  repeat constructor.
Qed.

Lemma keyword_match t i rest :
  In (t, i) tokens -> matchKeyword tokens (t ++ rest) = Some (t, i).
Proof.
  intros Hin. revert rest.
  apply (keyword_cases
           (fun t i => forall rest,
                matchKeyword tokens (t ++ rest) = Some (t, i)));
    [ | exact Hin ].
  repeat (constructor; [ intros rest; reflexivity | ]).
  constructor.
Qed.

Lemma matchKeyword_In table rest t i :
  matchKeyword table rest = Some (t, i) ->
  In (t, i) table /\ HasPrefix rest t = true.
Proof.
  induction table as [ | [t' i'] table IH ]; simpl; [ discriminate | ].
  destruct (HasPrefix rest t') eqn:E.
  - intros H. injection H as -> ->. auto.
  - intros H. destruct (IH H). auto.
Qed.

Lemma HasPrefix_app rest t :
  HasPrefix rest t = true -> exists rest', rest = t ++ rest'.
Proof.
  revert rest. induction t as [ | c t IH ]; intros rest H.
  - exists rest. reflexivity.
  - destruct rest as [ | d rest ]; simpl in H; [ discriminate | ].
    apply andb_true_iff in H. destruct H as [Hc Ht].
    apply Ascii.eqb_eq in Hc. subst d.
    destruct (IH rest Ht) as [rest' ->].
    exists rest'. reflexivity.
Qed.

Lemma HasPrefix_app_true t rest : HasPrefix (t ++ rest) t = true.
Proof.
  induction t as [ | c t IH ]; simpl; [ reflexivity | ].
  rewrite Ascii.eqb_refl. exact IH.
Qed.

(** C9. The keyword matcher asks for no word boundary: whenever the text at
    the cursor begins with a keyword, whatever follows it, [Lex] returns that
    keyword's token and moves the cursor by exactly the keyword's length,
    leaving the rest (the [name] of [hostname]) for the next call. *)
Theorem Lex_keyword_prefix (lib : GoLib) (x : parserLex)
  (yylval : parserSymType) (t : gostring) (i : Z) (rest : gostring) :
  In (t, i) tokens ->
  skipn (pos x) (inp x) = t ++ rest ->
  Lex lib x yylval = (set_pos x (pos x + length t), yylval, i)
  /\ skipn (pos x + length t) (inp x) = rest.
Proof.
  intros Hin Hrest. split.
  - unfold Lex. cbn [pos inp set_pos].
    rewrite Hrest, (keyword_skipSpaces t i rest Hin), Nat.add_0_r.
    rewrite Hrest, (keyword_match t i rest Hin).
    reflexivity.
  - apply skipn_app_more. exact Hrest.
Qed.

Lemma Lex_keyword_prefix_witness :
  Lex sampleLib (newLex 0 (str "hostname")) zeroSym
  = (set_pos (newLex 0 (str "hostname")) 4, zeroSym, HOST)
  /\ skipn 4 (str "hostname") = str "name".
Proof.
  apply (Lex_keyword_prefix sampleLib (newLex 0 (str "hostname")) zeroSym
           (str "host") HOST (str "name")).
  - unfold tokens. simpl. tauto.
  - reflexivity.
Defined.

(** ** The literal scanner *)

Lemma endsWithUnit_cons c part :
  inb c ["m"; "h"]%char = false ->
  endsWithUnit (c :: part) = endsWithUnit part.
Proof.
  intros Hc. destruct part as [ | d part ]; simpl; [ | reflexivity ].
  simpl in Hc. exact Hc.
Qed.

Ltac char_excluded E :=
  revert E; unfold inb; simpl;
  repeat match goal with
         | |- context [Ascii.eqb ?ch ?d] =>
             destruct (Ascii.eqb_spec ch d); [ subst; reflexivity | ]
         end;
  discriminate.

Ltac flags_done :=
  cbn [orb];
  rewrite ?orb_false_r, ?orb_true_r, ?Nat.add_0_r, ?Nat.add_1_r;
  cbn [orb]; reflexivity.

Lemma scanRun_spec rest : forall n0 a b c,
  exists k,
    (k <= length rest)%nat
    /\ scanRun rest n0 a b c
       = ((n0 + k)%nat,
          a || hasIPChar (firstn k rest),
          b || endsWithUnit (firstn k rest),
          c || hasTimeChar (firstn k rest)).
Proof.
  induction rest as [ | ch rest IH ]; intros n0 a b c.
  - exists O. split; [ simpl; lia | ]. cbn. flags_done.
  - cbn [scanRun].
    destruct (inb ch [":"; "."]%char) eqn:E1.
    { destruct (IH (S n0) true b c) as [k [Hk ->]].
      exists (S k). split; [ simpl; lia | ].
      assert (Hu : inb ch ["m"; "h"]%char = false) by char_excluded E1.
      assert (Ht : inb ch ["-"; "T"; "+"; "Z"]%char = false)
        by char_excluded E1.
      rewrite Nat.add_succ_comm.
      cbn [firstn]. rewrite (endsWithUnit_cons _ _ Hu).
      unfold hasIPChar, hasTimeChar. cbn [existsb].
      rewrite E1, Ht. flags_done. }
    destruct (inb ch ["0"; "1"; "2"; "3"; "4"; "5"; "6"; "7"; "8"; "9"; "a";
                      "b"; "c"; "d"; "e"; "f"]%char) eqn:E2.
    { destruct (IH (S n0) a b c) as [k [Hk ->]].
      exists (S k). split; [ simpl; lia | ].
      assert (Hu : inb ch ["m"; "h"]%char = false) by char_excluded E2.
      assert (Ht : inb ch ["-"; "T"; "+"; "Z"]%char = false)
        by char_excluded E2.
      rewrite Nat.add_succ_comm.
      cbn [firstn]. rewrite (endsWithUnit_cons _ _ Hu).
      unfold hasIPChar, hasTimeChar. cbn [existsb].
      rewrite E1, Ht. flags_done. }
    destruct (inb ch ["m"; "h"]%char) eqn:E3.
    { exists 1%nat. split; [ simpl; lia | ].
      assert (Ht : inb ch ["-"; "T"; "+"; "Z"]%char = false)
        by char_excluded E3.
      cbn [firstn endsWithUnit]. unfold hasIPChar, hasTimeChar.
      cbn [existsb]. rewrite E1, E3, Ht. flags_done. }
    destruct (inb ch ["-"; "T"; "+"; "Z"]%char) eqn:E4.
    { destruct (IH (S n0) a b true) as [k [Hk ->]].
      exists (S k). split; [ simpl; lia | ].
      rewrite Nat.add_succ_comm.
      cbn [firstn]. rewrite (endsWithUnit_cons _ _ E3).
      unfold hasIPChar, hasTimeChar. cbn [existsb].
      rewrite E1, E4. flags_done. }
    exists O. split; [ lia | ]. cbn. flags_done.
Qed.

Lemma scanRun_literalRun rest :
  scanRun rest O false false false
  = (length (literalRun rest), hasIPChar (literalRun rest),
     endsWithUnit (literalRun rest), hasTimeChar (literalRun rest)).
Proof.
  unfold literalRun, runLength.
  destruct (scanRun_spec rest O false false false) as [k [Hk E]].
  rewrite E. simpl. rewrite firstn_length_le by exact Hk. reflexivity.
Qed.

Lemma pos_moved s n : negb (Nat.eqb (s + n) s) = negb (Nat.eqb n 0).
Proof.
  f_equal. destruct (Nat.eqb_spec (s + n) s), (Nat.eqb_spec n 0);
    try reflexivity; lia.
Qed.

Lemma firstn_literalRun rest :
  firstn (length (literalRun rest)) rest = literalRun rest.
Proof.
  unfold literalRun.
  destruct (Nat.le_ge_cases (runLength rest) (length rest)) as [H | H].
  - rewrite firstn_length_le by exact H. reflexivity.
  - rewrite (firstn_all2 rest H), firstn_all. reflexivity.
Qed.

(** What [Lex] does where no keyword matches, read off the content of the
    literal run. *)
Lemma Lex_literal (lib : GoLib) (x : parserLex) (yylval : parserSymType) :
  let s := (pos x + skipSpaces (skipn (pos x) (inp x)))%nat in
  let rest := skipn s (inp x) in
  let part := literalRun rest in
  let x' := set_pos x (s + length part) in
  matchKeyword tokens rest = None ->
  Lex lib x yylval =
    match lexKind part with
    | KTime =>
        match time_Parse_RFC3339 lib part with
        | Some t => (x', set_time yylval t, TIME)
        | None => (Error x' (BadTime part), set_time yylval 0, TIME)
        end
    | KIP =>
        match net_ParseIP lib part with
        | None => (Error x' (BadIP part), set_ip yylval [], -1)
        | Some i =>
            match To4 i with
            | Some ip4 => (x', set_ip yylval ip4, IPtok)
            | None => (x', set_ip yylval i, IPtok)
            end
        end
    | KDuration =>
        match time_ParseDuration lib part with
        | Some d => (x', set_dur yylval d, DURATION)
        | None => (Error x' (BadDuration part), set_dur yylval 0, DURATION)
        end
    | KInteger =>
        match Atoi part with
        | None => (x', yylval, -1)
        | Some n => (x', set_num yylval n, NUM)
        end
    | KNone =>
        if Nat.leb (length (inp x)) s then (x', yylval, 0)
        else
          match nth_error (inp x) s with
          | Some c =>
              if inb c [":"; "."; "("; ")"; "/"]%char
              then (set_pos x (S s), yylval, Z.of_nat (nat_of_ascii c))
              else (x', yylval, -1)
          | None => (x', yylval, -1)
          end
    end.
Proof.
  intros s rest part x' Hkw.
  unfold Lex. cbn [pos inp set_pos].
  fold s. fold rest. rewrite Hkw.
  rewrite (scanRun_literalRun rest).
  cbn [pos inp set_pos]. fold rest.
  rewrite (firstn_literalRun rest). fold part.
  change (set_pos (set_pos x s) (s + length part)) with x'.
  unfold lexKind.
  destruct (hasTimeChar part); [ reflexivity | ].
  destruct (hasIPChar part); [ reflexivity | ].
  destruct (endsWithUnit part); [ reflexivity | ].
  rewrite pos_moved.
  destruct part as [ | c part' ] eqn:Epart.
  - cbn [length negb Nat.eqb]. subst x'.
    cbn [length]. rewrite Nat.add_0_r. cbn [pos inp set_pos].
    reflexivity.
  - reflexivity.
Qed.

Lemma Lex_keyword (lib : GoLib) (x : parserLex) (yylval : parserSymType) t i :
  let s := (pos x + skipSpaces (skipn (pos x) (inp x)))%nat in
  matchKeyword tokens (skipn s (inp x)) = Some (t, i) ->
  Lex lib x yylval = (set_pos x (s + length t), yylval, i).
Proof.
  intros s Hkw. unfold Lex. cbn [pos inp set_pos]. fold s.
  rewrite Hkw. reflexivity.
Qed.

(** Every way [Lex] can end, as a case analysis on an equation
    [H : Lex lib x yylval = (x', yylval', c)]. *)
Ltac lex_cases H :=
  match type of H with
  | Lex ?lib ?x ?lv = _ =>
      let E := fresh "Ekw" in
      destruct (matchKeyword tokens
                  (skipn (pos x + skipSpaces (skipn (pos x) (inp x)))
                         (inp x))) as [ [? ?] | ] eqn:E;
      [ rewrite (Lex_keyword lib x lv _ _ E) in H
      | rewrite (Lex_literal lib x lv E) in H;
        let K := fresh "Ekind" in
        destruct (lexKind _) eqn:K;
        repeat match type of H with
               | context [match ?u with _ => _ end] => destruct u eqn:?
               | context [if ?u then _ else _] => destruct u eqn:?
               end ];
      injection H as <- <- <-
  end.

Lemma parseDigits_nonneg s : forall n v,
  0 <= n -> parseDigits s n = Some v -> 0 <= v.
Proof.
  induction s as [ | c s IH ]; simpl; intros n v Hn H.
  - injection H as <-. exact Hn.
  - destruct (isDigit c) eqn:Ed; [ | discriminate ].
    apply (IH _ _ ) in H; [ exact H | ].
    unfold isDigit in Ed. apply andb_true_iff in Ed. destruct Ed as [E1 E2].
    apply Nat.leb_le in E1, E2. unfold digitVal. lia.
Qed.

Lemma Atoi_nonneg part n :
  hasTimeChar part = false -> Atoi part = Some n -> 0 <= n.
Proof.
  unfold Atoi, ParseInt10. intros Ht H.
  destruct part as [ | c part ]; [ discriminate | ].
  unfold hasTimeChar in Ht. cbn [existsb] in Ht.
  apply orb_false_iff in Ht. destruct Ht as [Hc _].
  assert (Hminus : Ascii.eqb c "-" = false).
  { unfold inb in Hc. simpl in Hc.
    destruct (Ascii.eqb c "-"); [ discriminate | reflexivity ]. }
  rewrite Hminus in H.
  destruct (Ascii.eqb c "+").
  - destruct part as [ | d part ]; [ discriminate | ].
    destruct (parseDigits (d :: part) 0) as [ m | ] eqn:Ed; [ | discriminate ].
    apply parseDigits_nonneg in Ed; [ | lia ].
    destruct ((- 2 ^ 63 <=? m) && (m <? 2 ^ 63)); [ | discriminate ].
    injection H as <-. exact Ed.
  - destruct (parseDigits (c :: part) 0) as [ m | ] eqn:Ed; [ | discriminate ].
    apply parseDigits_nonneg in Ed; [ | lia ].
    destruct ((- 2 ^ 63 <=? m) && (m <? 2 ^ 63)); [ | discriminate ].
    injection H as <-. exact Ed.
Qed.

Lemma lexKind_integer part :
  lexKind part = KInteger -> hasTimeChar part = false.
Proof.
  unfold lexKind. destruct (hasTimeChar part); [ discriminate | reflexivity ].
Qed.

Lemma keyword_not_NUM t i : In (t, i) tokens -> i <> NUM.
Proof.
  apply (keyword_cases (fun _ i => i <> NUM)).
  repeat (constructor; [ discriminate | ]). constructor.
Qed.

(** The [num] field after a call of [Lex] is the one before, or the value
    of an integer literal, which is not negative. *)
Lemma Lex_num (lib : GoLib) x yylval x' yylval' c :
  Lex lib x yylval = (x', yylval', c) ->
  (c <> NUM /\ num yylval' = num yylval) \/ (c = NUM /\ 0 <= num yylval').
Proof.
  intros H. lex_cases H; cbn [num set_time set_ip set_dur set_num];
    try (left; split; [ discriminate | reflexivity ]).
  - left. split; [ | reflexivity ].
    apply matchKeyword_In in Ekw. destruct Ekw as [Hin _].
    exact (keyword_not_NUM _ _ Hin).
  - right. split; [ reflexivity | ].
    eapply Atoi_nonneg; [ | eassumption ].
    apply lexKind_integer. assumption.
  - left. split; [ | reflexivity ].
    intros E. unfold NUM in E.
    assert (Z.of_nat (nat_of_ascii a) < 256).
    { pose proof (nat_ascii_bounded a). lia. }
    lia.
Qed.


(** ** The error sink *)

Lemma Error_recorded x m e : err x = Some e -> Error x m = x.
Proof. unfold Error. intros ->. reflexivity. Qed.

Lemma Error_first x m :
  err x = None ->
  err (Error x m)
  = Some {| err_msg := m; err_pos := pos x;
            err_before := firstn (pos x) (inp x);
            err_after := skipn (pos x) (inp x) |}.
Proof. unfold Error. intros ->. reflexivity. Qed.

Lemma Error_keeps x m e : err x = Some e -> err (Error x m) = Some e.
Proof. intros H. rewrite (Error_recorded x m e H). exact H. Qed.

Lemma Lex_err_keeps (lib : GoLib) x yylval x' yylval' c e :
  Lex lib x yylval = (x', yylval', c) ->
  err x = Some e -> err x' = Some e.
Proof.
  intros H He. lex_cases H; try (apply Error_keeps); exact He.
Qed.

Lemma Handle_err x t u :
  err (HandleBefore x t) = err x /\ err (HandleAfter x t) = err x
  /\ err (HandleBetween x t u) = err x.
Proof.
  unfold HandleBefore, HandleAfter, HandleBetween.
  repeat split;
    repeat match goal with
           | |- context [if ?b then _ else _] => destruct b
           end; reflexivity.
Qed.

(** ** The semantic actions *)

Lemma action_default nt S VAL x :
  ~ In nt [1; 3; 4; 5; 6; 7; 8; 9; 10; 11; 12; 13; 14; 15; 16; 17; 18; 19; 20]
  -> action nt S VAL x = (VAL, x).
Proof.
  intros Hn.
  destruct nt as [ | p | p ]; try reflexivity.
  do 6 (try (destruct p as [ p | p | ]; try reflexivity));
    exfalso; apply Hn; simpl; tauto.
Qed.

(** Case analysis on the production of an [action]. *)
Ltac action_cases nt S VAL x :=
  let Hin := fresh "Hin" in
  destruct (in_dec Z.eq_dec nt
              [1; 3; 4; 5; 6; 7; 8; 9; 10; 11; 12; 13; 14; 15; 16; 17; 18;
               19; 20]) as [Hin | Hin];
  [ repeat (destruct Hin as [ <- | Hin ]; [ | ]); [ .. | destruct Hin ]
  | rewrite (action_default nt S VAL x Hin) ].

Lemma action_err_keeps nt S VAL x e :
  err x = Some e -> err (snd (action nt S VAL x)) = Some e.
Proof.
  intros He.
  action_cases nt S VAL x; cbn [action snd]; try exact He.
  all: repeat match goal with
         | |- context [match ?u with _ => _ end] => destruct u
         | |- context [if ?u then _ else _] => destruct u
         end;
       cbn [snd set_out err];
       rewrite ?(proj1 (Handle_err _ _ 0)),
               ?(proj1 (proj2 (Handle_err _ _ 0))),
               ?(proj2 (proj2 (Handle_err _ _ _)));
       repeat first [ exact He | apply Error_keeps ].
Qed.

(** ** Invariants of [Parse] *)

Section ComponentInvariant.
Variable lib : GoLib.
Variable Iv : parserSymType -> Prop.
Variable Ix : parserLex -> Prop.
Hypothesis Iv_zero : Iv zeroSym.
Hypothesis Iv_yys : forall v s, Iv v -> Iv (set_yys v s).
Hypothesis I_Lex : forall x yylval x' yylval' c,
  Ix x -> Iv yylval -> Lex lib x yylval = (x', yylval', c) ->
  Ix x' /\ Iv yylval'.
Hypothesis I_action : forall nt S VAL x,
  Ix x -> Iv VAL -> Forall Iv S ->
  Iv (fst (action nt S VAL x)) /\ Ix (snd (action nt S VAL x)).
Hypothesis I_syntax : forall x, Ix x -> Ix (Error x SyntaxError).

Lemma Forall_nth_default S k : Forall Iv S -> Iv (nth k S zeroSym).
Proof.
  intros H. destruct (Nat.lt_ge_cases k (length S)) as [Hk | Hk].
  - rewrite Forall_forall in H. apply H. apply nth_In. exact Hk.
  - rewrite nth_overflow by exact Hk. exact Iv_zero.
Qed.

Lemma Forall_skipn S k : Forall Iv S -> Forall Iv (skipn k S).
Proof.
  intros H. rewrite Forall_forall in *. intros v Hv. apply H.
  rewrite <- (firstn_skipn k S). apply in_or_app. right. exact Hv.
Qed.

Lemma lookahead_all p :
  pstate_all Iv Ix p -> pstate_all Iv Ix (lookahead lib p).
Proof.
  intros (Hx & Hl & Hv & Hs). unfold lookahead, parserlex1.
  destruct (char p <? 0); [ | repeat split; assumption ].
  destruct (Lex lib (plex p) (lval p)) as [[x' lv'] c] eqn:E.
  destruct (I_Lex _ _ _ _ _ Hx Hl E).
  repeat split; assumption.
Qed.

Lemma reduce_all p n :
  pstate_all Iv Ix p -> control_all Iv Ix (reduce p n).
Proof.
  intros (Hx & Hl & Hv & Hs). unfold reduce.
  pose proof (I_action n (parserS p)
                (nth (Z.to_nat (at_ parserR2 n) - 1) (parserS p) zeroSym)
                (plex p) Hx (Forall_nth_default _ _ Hs) Hs) as [Ha Hb].
  destruct (action n (parserS p) _ (plex p)) as [VAL x].
  cbn [control_all pstate_all plex lval parserVAL parserS].
  repeat split; try assumption. apply Forall_skipn. exact Hs.
Qed.

Lemma recover_all S S' state :
  Forall Iv S -> recover S = Some (S', state) -> Forall Iv S'.
Proof.
  induction S as [ | v S IH ]; simpl; [ discriminate | ].
  intros H.
  destruct ((0 <=? at_ parserPact (yys v) + parserErrCode)
            && (at_ parserPact (yys v) + parserErrCode <? parserLast)
            && (at_ parserChk
                  (at_ parserAct (at_ parserPact (yys v) + parserErrCode))
                =? parserErrCode)).
  - intros E. injection E as <- <-. exact H.
  - apply IH. inversion H. assumption.
Qed.

Lemma on_error_all p :
  pstate_all Iv Ix p -> control_all Iv Ix (on_error p).
Proof.
  intros Hp. pose proof Hp as (Hx & Hl & Hv & Hs). unfold on_error.
  destruct (Errflag p =? 3).
  { destruct (parsertoken p =? parserEofCode); [ exact Hx | ].
    repeat split; assumption. }
  destruct ((Errflag p =? 0) || (Errflag p =? 1) || (Errflag p =? 2));
    [ | apply reduce_all; exact Hp ].
  assert (Hx' : Ix (if Errflag p =? 0 then Error (plex p) SyntaxError
                    else plex p)).
  { destruct (Errflag p =? 0); [ apply I_syntax | ]; exact Hx. }
  destruct (recover (parserS p)) as [[S' state] | ] eqn:E; [ | exact Hx' ].
  repeat split; try assumption.
  exact (recover_all _ _ _ Hs E).
Qed.

Lemma parserdefault_all p :
  pstate_all Iv Ix p -> control_all Iv Ix (parserdefault lib p).
Proof.
  intros Hp. unfold parserdefault.
  destruct (at_ parserDef (parserstate p) =? -2).
  - pose proof (lookahead_all p Hp) as Hp'.
    destruct (exca_find parserExca (parserstate (lookahead lib p)));
      [ | exact I ].
    destruct (exca_scan l (parsertoken (lookahead lib p))); [ | exact I ].
    destruct (z <? 0); [ apply Hp' | ].
    destruct (z =? 0); [ apply on_error_all | apply reduce_all ]; exact Hp'.
  - destruct (at_ parserDef (parserstate p) =? 0);
      [ apply on_error_all | apply reduce_all ]; exact Hp.
Qed.

Lemma parsernewstate_all p :
  pstate_all Iv Ix p -> control_all Iv Ix (parsernewstate lib p).
Proof.
  intros Hp. unfold parsernewstate.
  destruct (at_ parserPact (parserstate p) <=? parserFlag);
    [ apply parserdefault_all; exact Hp | ].
  pose proof (lookahead_all p Hp) as Hp'.
  destruct ((at_ parserPact (parserstate p) + parsertoken (lookahead lib p) <? 0)
            || (parserLast <=? at_ parserPact (parserstate p)
                               + parsertoken (lookahead lib p)));
    [ apply parserdefault_all; exact Hp' | ].
  destruct (at_ parserChk _ =? parsertoken (lookahead lib p));
    [ | apply parserdefault_all; exact Hp' ].
  destruct Hp' as (Hx & Hl & Hv & Hs).
  repeat split; assumption.
Qed.

Lemma parserstack_all p :
  pstate_all Iv Ix p -> control_all Iv Ix (parserstack lib p).
Proof.
  intros (Hx & Hl & Hv & Hs). unfold parserstack.
  apply parsernewstate_all.
  repeat split; try assumption.
  cbn [parserS]. constructor; [ apply Iv_yys | ]; assumption.
Qed.

(** A property of the lexer state that [Lex], the semantic actions and the
    syntax error keep holds when [Parse] returns. *)
Lemma run_all fuel : forall c r x,
  control_all Iv Ix c ->
  run lib fuel c = Some (Returned (r, x)) -> Ix x.
Proof.
  induction fuel as [ | fuel IH ]; intros c r x Hc H.
  - destruct c; simpl in H; try discriminate.
    injection H as <- <-. exact Hc.
  - destruct c; simpl in H; try discriminate.
    + apply (IH _ _ _ (parserstack_all _ Hc) H).
    + apply (IH _ _ _ (parsernewstate_all _ Hc) H).
    + injection H as <- <-. exact Hc.
Qed.

Lemma parserParse_all fuel x0 r x :
  Ix x0 -> parserParse lib fuel x0 = Some (Returned (r, x)) -> Ix x.
Proof.
  intros H0. apply run_all.
  repeat split; try assumption. constructor.
Qed.
End ComponentInvariant.


(** C6. The error sink keeps the first error: [Error] on a lexer that holds
    an error changes nothing; from any point of [Parse] at which an error is
    recorded, whatever the lexer and the semantic actions report afterwards,
    [Parse] ends with that same error; and [parse] then returns that error
    with the [nil] query and zero times, so that a result never carries both
    a query and an error. *)
Theorem first_error_wins (lib : GoLib) :
  (forall x m e, err x = Some e -> Error x m = x)
  /\ (forall p fuel r x e,
        err (plex p) = Some e ->
        run lib fuel (ToStack p) = Some (Returned (r, x)) ->
        err x = Some e)
  /\ (forall fuel now input r x e,
        parserParse lib fuel (newLex now input) = Some (Returned (r, x)) ->
        err x = Some e ->
        parse lib fuel now input = Some (Returned (nilQuery, 0, 0, Some e)))
  /\ (forall fuel now input q start stop e,
        parse lib fuel now input = Some (Returned (q, start, stop, Some e)) ->
        q = nilQuery /\ start = 0 /\ stop = 0).
Proof.
  split; [ exact Error_recorded | ].
  split.
  { intros p fuel r x e He H.
    apply (run_all lib (fun _ => True) (fun x => err x = Some e))
      with (fuel := fuel) (c := ToStack p) (r := r); auto.
    - intros x0 lv x' lv' c H0 _ HL. split; [ | exact I ].
      exact (Lex_err_keeps lib _ _ _ _ _ _ HL H0).
    - intros nt S VAL x0 H0 _ _. split; [ exact I | ].
      apply action_err_keeps. exact H0.
    - intros x0 H0. apply Error_keeps. exact H0.
    - repeat split; auto.
      clear. induction (parserS p); constructor; auto. }
  split.
  { intros fuel now input r x e H He. unfold parse.
    rewrite H, He. reflexivity. }
  intros fuel now input q start stop e. unfold parse.
  destruct (parserParse lib fuel (newLex now input)) as [[[r x] | ] | ];
    try discriminate.
  destruct (err x); intros H; injection H as <- <- <- ?; try discriminate.
  auto.
Qed.

Lemma first_error_wins_witness :
  parse sampleLib 20 0 (str "port 77777 and port 88888")
  = Some (Returned
            (nilQuery, 0, 0,
             Some {| err_msg := InvalidPort 77777; err_pos := 10;
                     err_before := str "port 77777";
                     err_after := str " and port 88888" |})).
Proof.
  destruct (first_error_wins sampleLib) as (_ & _ & H & _).
  eapply (H 20%nat 0 (str "port 77777 and port 88888") 0).
  - vm_compute. reflexivity.
  - reflexivity.
Defined.

(** ** Range checks of the numeric leaves *)

Lemma Error_None_iff x m (b : bool) :
  err x = None ->
  (err (if b then Error x m else x) <> None <-> b = true).
Proof.
  intros Hx. destruct b.
  - rewrite (Error_first x m Hx). split; [ reflexivity | discriminate ].
  - rewrite Hx. split; [ congruence | discriminate ].
Qed.

(** With no error recorded so far, the action of [port n] and of
    [vlan n] records an error exactly when [n < 0] or [n >= 65536], the one of
    [mpls n] exactly when [n < 0] or [n >= 2^20], the one of [ip proto n]
    exactly when [n < 0] or [n >= 256]; a value inside its range is accepted:
    the leaf carries [n] itself and the lexer state is left as it was. *)
Lemma numeric_action_check
  (vkw vip vnum VAL : parserSymType) (S : list parserSymType)
  (x : parserLex) :
  err x = None ->
  let n := num vnum in
  let S2 := vnum :: vkw :: S in
  let S3 := vnum :: vkw :: vip :: S in
  ((err (snd (action 6 S2 VAL x)) <> None <-> n < 0 \/ 65536 <= n)
   /\ (0 <= n < 65536 ->
       action 6 S2 VAL x = (set_query VAL (portQuery n), x)))
  /\ ((err (snd (action 7 S2 VAL x)) <> None <-> n < 0 \/ 65536 <= n)
      /\ (0 <= n < 65536 ->
          action 7 S2 VAL x = (set_query VAL (vlanQuery n), x)))
  /\ ((err (snd (action 8 S2 VAL x)) <> None <-> n < 0 \/ 2 ^ 20 <= n)
      /\ (0 <= n < 2 ^ 20 ->
          action 8 S2 VAL x = (set_query VAL (mplsQuery n), x)))
  /\ ((err (snd (action 9 S3 VAL x)) <> None <-> n < 0 \/ 256 <= n)
      /\ (0 <= n < 256 ->
          action 9 S3 VAL x = (set_query VAL (protocolQuery n), x))).
Proof.
  intros Hx n S2 S3.
  assert (E2 : dollar S2 2 2 = vnum) by reflexivity.
  assert (E3 : dollar S3 3 3 = vnum) by reflexivity.
  cbn [action snd]. rewrite E2, E3. fold n.
  change (Z.shiftl 1 20) with (2 ^ 20).
  repeat split.
  all: try (intros H; apply (Error_None_iff x _ _ Hx) in H;
            apply orb_true_iff in H; destruct H as [H | H];
            [ apply Z.ltb_lt in H | apply Z.leb_le in H ]; lia).
  all: try (intros H; apply (Error_None_iff x _ _ Hx);
            apply orb_true_iff; destruct H as [H | H];
            [ left; apply Z.ltb_lt | right; apply Z.leb_le ]; lia).
  all: intros [H1 H2];
       apply Z.ltb_ge in H1; rewrite H1;
       apply Z.leb_gt in H2; rewrite H2; cbn [orb];
       unfold to_uint16, to_uint32, to_byte;
       rewrite Z.mod_small; [ reflexivity | ];
       apply Z.ltb_ge in H1; apply Z.leb_gt in H2; lia.
Qed.

(** With no error recorded so far, the action of [between T1 and T2]
    records an error exactly when [T1] is after [T2]; in either case it
    builds the leaf [timeQuery{T1, T2}], and when [T1 <= T2] it leaves no
    error. *)
Lemma between_action_check
  (vkw vt1 vand vt2 VAL : parserSymType) (S : list parserSymType)
  (x : parserLex) :
  err x = None ->
  let T1 := time vt1 in
  let T2 := time vt2 in
  let r := action 18 (vt2 :: vand :: vt1 :: vkw :: S) VAL x in
  (err (snd r) <> None <-> T2 < T1)
  /\ query (fst r) = timeQuery T1 T2
  /\ (T1 <= T2 -> err (snd r) = None).
Proof.
  intros Hx T1 T2 r. subst r. cbn [action fst snd].
  change (dollar (vt2 :: vand :: vt1 :: vkw :: S) 4 2) with vt1.
  change (dollar (vt2 :: vand :: vt1 :: vkw :: S) 4 4) with vt2.
  fold T1 T2.
  rewrite (proj2 (proj2 (Handle_err _ T1 T2))).
  split; [ | split; [ reflexivity | ] ].
  - rewrite (Error_None_iff x _ _ Hx). unfold After. apply Z.ltb_lt.
  - intros Hle. unfold After.
    destruct (Z.ltb_spec T2 T1); [ lia | exact Hx ].
Qed.

(** ** Integer literals are never negative *)

Lemma Error_aboveBound x m :
  errorsAboveBound x -> aboveBound m -> errorsAboveBound (Error x m).
Proof.
  unfold errorsAboveBound, Error. intros Hx Hm e.
  destruct (err x) eqn:E.
  - rewrite E. apply Hx.
  - cbn [err set_err]. intros H. injection H as <-. exact Hm.
Qed.

Lemma Lex_aboveBound (lib : GoLib) x yylval x' yylval' c :
  errorsAboveBound x -> Lex lib x yylval = (x', yylval', c) ->
  errorsAboveBound x'.
Proof.
  intros Hx H.
  assert (Hp : forall n, errorsAboveBound (set_pos x n)) by (intros n; exact Hx).
  lex_cases H; try apply Error_aboveBound; try apply Hp; exact I.
Qed.

Lemma Handle_aboveBound x t u :
  errorsAboveBound x ->
  errorsAboveBound (HandleBefore x t) /\ errorsAboveBound (HandleAfter x t)
  /\ errorsAboveBound (HandleBetween x t u).
Proof.
  unfold errorsAboveBound. intros Hx.
  destruct (Handle_err x t u) as (-> & -> & ->). auto.
Qed.

Lemma range_check_aboveBound x (n bound : Z) (m : errmsg) :
  0 <= n -> (bound <= n -> aboveBound m) ->
  errorsAboveBound x ->
  errorsAboveBound (if (n <? 0) || (bound <=? n) then Error x m else x).
Proof.
  intros Hn Hm Hx.
  destruct (Z.ltb_spec n 0); [ lia | ].
  destruct (Z.leb_spec bound n); cbn [orb]; [ | exact Hx ].
  apply Error_aboveBound; auto.
Qed.

Lemma ipsFromNet_error ip mask from to m :
  ipsFromNet ip mask = (from, to, Some m) -> m = BadIPOrMask ip mask.
Proof.
  unfold ipsFromNet.
  destruct (negb (Nat.eqb (length ip) (length mask))
            || (negb (Nat.eqb (length ip) 4)
                && negb (Nat.eqb (length ip) 16))).
  - intros H. injection H as _ _ <-. reflexivity.
  - destruct (ipsFromNet_loop ip mask). discriminate.
Qed.

Lemma action_aboveBound nt S VAL x :
  errorsAboveBound x -> numNonneg VAL -> Forall numNonneg S ->
  numNonneg (fst (action nt S VAL x))
  /\ errorsAboveBound (snd (action nt S VAL x)).
Proof.
  intros Hx Hv Hs.
  assert (Hd : forall k i, 0 <= num (dollar S k i)).
  { intros k i. unfold dollar.
    apply (Forall_nth_default numNonneg); [ unfold numNonneg; simpl; lia | ].
    exact Hs. }
  action_cases nt S VAL x; cbn [action fst snd]; try (split; assumption).
  all: try (destruct (CIDRMask _ _));
       try (destruct (ipsFromNet _ _) as [[from to] [m | ]] eqn:Enet;
            [ apply ipsFromNet_error in Enet; subst m | ]);
       cbn [fst snd]; (split; [ exact Hv | ]).
  all: try (apply range_check_aboveBound; cbn [aboveBound]; auto;
            change (Z.shiftl 1 20) with (2 ^ 20); auto).
  all: try (apply Handle_aboveBound; try exact 0).
  all: try (destruct (After _ _)).
  all: repeat apply Error_aboveBound; try exact Hx; exact I.
Qed.

(** C10. An integer token never carries a negative value: whenever [Lex]
    returns [NUM], the value it stores is at least 0.  Hence no parse of a
    text takes the [n < 0] side of a range check: a range error that [parse]
    returns always names a value at or above the bound of its field. *)
Theorem integer_tokens_nonneg (lib : GoLib) :
  (forall x yylval x' yylval',
     Lex lib x yylval = (x', yylval', NUM) -> 0 <= num yylval')
  /\ (forall fuel now input q start stop e,
        parse lib fuel now input = Some (Returned (q, start, stop, Some e)) ->
        aboveBound (err_msg e)).
Proof.
  split.
  - intros x lv x' lv' H.
    destruct (Lex_num lib _ _ _ _ _ H) as [[Hc _] | [_ Hn]];
      [ congruence | exact Hn ].
  - intros fuel now input q start stop e. unfold parse.
    destruct (parserParse lib fuel (newLex now input)) as [[[r x] | ] | ] eqn:E;
      try discriminate.
    assert (Hx : errorsAboveBound x).
    { apply (parserParse_all lib numNonneg errorsAboveBound)
        with (fuel := fuel) (x0 := newLex now input) (r := r);
        try exact E.
      - unfold numNonneg. simpl. lia.
      - intros v s0 Hv. exact Hv.
      - intros x0 lv x1 lv1 c Hx0 Hlv HL. split.
        + exact (Lex_aboveBound lib _ _ _ _ _ Hx0 HL).
        + unfold numNonneg in *.
          destruct (Lex_num lib _ _ _ _ _ HL) as [[_ ->] | [_ Hn]];
            assumption.
      - intros nt S VAL x0. apply action_aboveBound.
      - intros x0 Hx0. apply Error_aboveBound; [ exact Hx0 | exact I ].
      - intros e0 He0. discriminate. }
    destruct (err x) as [e0 | ] eqn:Ee; intros H; [ | discriminate ].
    injection H as <- <- <- <-. apply Hx. exact Ee.
Qed.

Lemma integer_tokens_nonneg_witness :
  0 <= num (set_num zeroSym 80)
  /\ aboveBound (InvalidPort 77777).
Proof.
  destruct (integer_tokens_nonneg sampleLib) as [H1 H2]. split.
  - apply (H1 (set_pos (newLex 0 (str "port 80")) 4) zeroSym
              (set_pos (newLex 0 (str "port 80")) 7) (set_num zeroSym 80)).
    vm_compute. reflexivity.
  - apply (H2 20%nat 0 (str "port 77777") nilQuery 0 0
              {| err_msg := InvalidPort 77777; err_pos := 10;
                 err_before := str "port 77777"; err_after := [] |}).
    vm_compute. reflexivity.
Defined.


(** ** Classification of literals *)

(** C2 (amended). Where no keyword matches, the literal run is classified in
    the order of the [switch]: a run with one of [-], [T], [+], [Z] is a
    timestamp, parsed as RFC 3339, even when it ended on an [m] or [h];
    otherwise a run with a [:] or a [.] is an address; otherwise a run that
    ended on a consumed [m] or [h] is a duration; otherwise a run that is not
    empty is a decimal integer. *)
Theorem Lex_literal_priority (lib : GoLib) (x : parserLex)
  (yylval : parserSymType) :
  let s := (pos x + skipSpaces (skipn (pos x) (inp x)))%nat in
  let rest := skipn s (inp x) in
  let part := literalRun rest in
  let x' := set_pos x (s + length part) in
  matchKeyword tokens rest = None ->
  (hasTimeChar part = true ->
   Lex lib x yylval =
     match time_Parse_RFC3339 lib part with
     | Some t => (x', set_time yylval t, TIME)
     | None => (Error x' (BadTime part), set_time yylval 0, TIME)
     end)
  /\ (hasTimeChar part = false -> hasIPChar part = true ->
      Lex lib x yylval =
        match net_ParseIP lib part with
        | None => (Error x' (BadIP part), set_ip yylval [], -1)
        | Some i =>
            match To4 i with
            | Some ip4 => (x', set_ip yylval ip4, IPtok)
            | None => (x', set_ip yylval i, IPtok)
            end
        end)
  /\ (hasTimeChar part = false -> hasIPChar part = false ->
      endsWithUnit part = true ->
      Lex lib x yylval =
        match time_ParseDuration lib part with
        | Some d => (x', set_dur yylval d, DURATION)
        | None => (Error x' (BadDuration part), set_dur yylval 0, DURATION)
        end)
  /\ (hasTimeChar part = false -> hasIPChar part = false ->
      endsWithUnit part = false -> part <> [] ->
      Lex lib x yylval =
        match Atoi part with
        | None => (x', yylval, -1)
        | Some n => (x', set_num yylval n, NUM)
        end).
Proof.
  intros s rest part x' Hkw.
  pose proof (Lex_literal lib x yylval Hkw) as H.
  fold s rest part x' in H. unfold lexKind in H.
  repeat split.
  - intros Ht. rewrite Ht in H. exact H.
  - intros Ht Hi. rewrite Ht, Hi in H. exact H.
  - intros Ht Hi Hu. rewrite Ht, Hi, Hu in H. exact H.
  - intros Ht Hi Hu Hne. rewrite Ht, Hi, Hu in H.
    destruct part; [ congruence | exact H ].
Qed.

Lemma Lex_literal_priority_witness :
  Lex sampleLib (newLex 0 (str "45m")) zeroSym
  = (set_pos (newLex 0 (str "45m")) 3, set_dur zeroSym (45 * time_Minute),
     DURATION).
Proof.
  apply (Lex_literal_priority sampleLib (newLex 0 (str "45m")) zeroSym);
    reflexivity.
Defined.

(** C2 as written fails: the run [1.5h] ended on a consumed [h], so the
    claim makes it a duration (and [time.ParseDuration] reads it as 90
    minutes), yet [Lex] takes it for an address, records [bad IP] and returns
    -1; the run [-5m] ended on a consumed [m], yet [Lex] returns [TIME] with
    [bad time]. *)
Lemma Lex_duration_first_counterexample :
  (literalRun (str "1.5h") = str "1.5h"
   /\ claimedKind (str "1.5h") = KDuration
   /\ time_ParseDuration sampleLib (str "1.5h") = Some (90 * time_Minute)
   /\ Lex sampleLib (newLex 0 (str "1.5h")) zeroSym
      = (Error (set_pos (newLex 0 (str "1.5h")) 4) (BadIP (str "1.5h")),
         zeroSym, -1))
  /\ (literalRun (str "-5m") = str "-5m"
      /\ claimedKind (str "-5m") = KDuration
      /\ Lex sampleLib (newLex 0 (str "-5m")) zeroSym
         = (Error (set_pos (newLex 0 (str "-5m")) 3) (BadTime (str "-5m")),
            zeroSym, TIME)).
Proof. repeat split. Qed.


(** ** Evaluation of a time leaf *)

Lemma wrap64_small z : - 2 ^ 63 <= z < 2 ^ 63 -> wrap64 z = z.
Proof.
  intros H. unfold wrap64. rewrite Z.mod_small; lia.
Qed.

Section TimeLeaf.
Variable lib : GoLib.
Variable Positions : Type.
Variable IndexErr : Type.
Variables AllPositions NoPositions nilPositions : Positions.
Variables Union Intersect : Positions -> Positions -> Positions.

Let lookup :=
  LookupIn lib Positions IndexErr AllPositions NoPositions nilPositions
           Union Intersect.

(** C3 (amended). A time leaf is decided by the name of the index file
    alone.  When the base name is the decimal count [micros] of microseconds
    of the file's timestamp (with [micros * 1000] in the range of [int64]),
    the leaf yields [AllPositions] if that timestamp lies in
    [[start - 1 minute, stop + 1 minute]] (a zero bound leaving its side
    open) and [NoPositions] if it does not, with no error; when the base name
    is no decimal [int64], the leaf yields an error and no set; and two index
    files of the same name get the same answer, whatever their records. *)
Theorem timeQuery_whole_file (a0 a1 : Time)
  (index : IndexFile Positions IndexErr) :
  (forall micros,
     ParseInt10 (filepath_Base lib (Name _ _ index)) = Some micros ->
     - 2 ^ 63 <= micros * 1000 < 2 ^ 63 ->
     lookup (timeQuery a0 a1) index
     = Returned
         (if withinSlack a0 a1 (time_Unix 0 (micros * 1000))
          then AllPositions else NoPositions, None))
  /\ (ParseInt10 (filepath_Base lib (Name _ _ index)) = None ->
      lookup (timeQuery a0 a1) index
      = Returned
          (nilPositions,
           Some (BadBasename _ (filepath_Base lib (Name _ _ index)))))
  /\ (forall index' : IndexFile Positions IndexErr,
        Name _ _ index' = Name _ _ index ->
        lookup (timeQuery a0 a1) index' = lookup (timeQuery a0 a1) index).
Proof.
  split; [ | split ].
  - intros micros Hname Hrange.
    subst lookup. cbn [LookupIn]. unfold timeQuery_LookupIn.
    rewrite Hname, (wrap64_small _ Hrange).
    unfold withinSlack, Before, After, Add, IsZero.
    set (fileTime := time_Unix 0 (micros * 1000)).
    destruct (a0 =? 0); destruct (a1 =? 0); cbn [negb andb orb];
      repeat match goal with
             | |- context [?u <? ?v] => destruct (Z.ltb_spec u v)
             | |- context [?u <=? ?v] => destruct (Z.leb_spec u v)
             end; cbn [negb andb orb]; try reflexivity; lia.
  - intros Hname. subst lookup. cbn [LookupIn]. unfold timeQuery_LookupIn.
    rewrite Hname. reflexivity.
  - intros index' Heq. subst lookup. cbn [LookupIn].
    unfold timeQuery_LookupIn. rewrite Heq. reflexivity.
Qed.
End TimeLeaf.

Lemma timeQuery_whole_file_witness :
  LookupIn sampleLib (list Z) unit [-1] [] [] (@app Z) (@app Z)
    (timeQuery (63650404800 * 1000000000) 0)
    (sampleIndex "/idx/1514808000000000")
  = Returned ([-1], None).
Proof.
  assert (R : - 2 ^ 63 <= 1514808000000000 * 1000 < 2 ^ 63) by lia.
  exact (proj1 (timeQuery_whole_file sampleLib (list Z) unit [-1] [] []
                  (@app Z) (@app Z) (63650404800 * 1000000000) 0
                  (sampleIndex "/idx/1514808000000000"))
               1514808000000000 eq_refl R).
Defined.

(** C3 as written fails on an index file whose name holds no timestamp: the
    leaf answers with an error, which is neither of the two sets. *)
Lemma timeQuery_not_a_set_counterexample :
  LookupIn sampleLib (list Z) unit [-1] [] [] (@app Z) (@app Z)
    (timeQuery (63650404800 * 1000000000) 0) (sampleIndex "/idx/current")
  = Returned ([], Some (BadBasename unit (str "current")))
  /\ LookupIn sampleLib (list Z) unit [-1] [] [] (@app Z) (@app Z)
       (timeQuery (63650404800 * 1000000000) 0) (sampleIndex "/idx/current")
     <> Returned ([-1], None)
  /\ LookupIn sampleLib (list Z) unit [-1] [] [] (@app Z) (@app Z)
       (timeQuery (63650404800 * 1000000000) 0) (sampleIndex "/idx/current")
     <> Returned ([], None).
Proof. repeat split; discriminate. Qed.

(** ** Time span *)

Lemma Query_nested_ind (P : Query -> Prop) :
  P nilQuery ->
  (forall n, P (portQuery n)) -> (forall n, P (vlanQuery n)) ->
  (forall n, P (mplsQuery n)) -> (forall n, P (protocolQuery n)) ->
  (forall from to, P (ipQuery from to)) ->
  (forall a, Forall P a -> P (unionQuery a)) ->
  (forall a, Forall P a -> P (intersectQuery a)) ->
  (forall a0 a1, P (timeQuery a0 a1)) ->
  forall q, P q.
Proof.
  intros Hnil Hport Hvlan Hmpls Hproto Hip Hunion Hinter Htime.
  fix IH 1. intros q.
  destruct q as [ | n | n | n | n | from to | a | a | a0 a1 ].
  - exact Hnil.
  - apply Hport.
  - apply Hvlan.
  - apply Hmpls.
  - apply Hproto.
  - apply Hip.
  - apply Hunion.
    induction a as [ | q a IHa ]; constructor; [ apply IH | exact IHa ].
  - apply Hinter.
    induction a as [ | q a IHa ]; constructor; [ apply IH | exact IHa ].
  - apply Htime.
Qed.

Lemma GetTimeSpan_union a s e : GetTimeSpan (unionQuery a) s e = spanAll a s e.
Proof.
  revert s e. induction a as [ | q a IH ]; intros s e; [ reflexivity | ].
  change (GetTimeSpan (unionQuery (q :: a)) s e)
    with (match GetTimeSpan q s e with
          | Returned (s', e') => GetTimeSpan (unionQuery a) s' e'
          | Panicked => Panicked
          end).
  cbn [spanAll].
  destruct (GetTimeSpan q s e) as [[s' e'] | ]; [ apply IH | reflexivity ].
Qed.

Lemma GetTimeSpan_intersect a s e :
  GetTimeSpan (intersectQuery a) s e = spanAll a s e.
Proof.
  revert s e. induction a as [ | q a IH ]; intros s e; [ reflexivity | ].
  change (GetTimeSpan (intersectQuery (q :: a)) s e)
    with (match GetTimeSpan q s e with
          | Returned (s', e') => GetTimeSpan (intersectQuery a) s' e'
          | Panicked => Panicked
          end).
  cbn [spanAll].
  destruct (GetTimeSpan q s e) as [[s' e'] | ]; [ apply IH | reflexivity ].
Qed.

Lemma timeLeaves_cons_union q a :
  timeLeaves (unionQuery (q :: a)) = timeLeaves q ++ timeLeaves (unionQuery a).
Proof. reflexivity. Qed.

Lemma timeLeaves_cons_intersect q a :
  timeLeaves (intersectQuery (q :: a))
  = timeLeaves q ++ timeLeaves (intersectQuery a).
Proof. reflexivity. Qed.

Lemma timeLeaves_union_intersect a :
  timeLeaves (intersectQuery a) = timeLeaves (unionQuery a).
Proof. reflexivity. Qed.

Lemma hasNil_union_intersect a :
  hasNil (intersectQuery a) = hasNil (unionQuery a).
Proof. reflexivity. Qed.

Lemma hasNil_cons q a :
  hasNil (unionQuery (q :: a)) = hasNil q || hasNil (unionQuery a).
Proof. reflexivity. Qed.

Lemma spanAll_leaves a :
  Forall (fun q => forall s e,
            hasNil q = false ->
            GetTimeSpan q s e
            = Returned (fold_left widen (timeLeaves q) (s, e))) a ->
  forall s e,
    hasNil (unionQuery a) = false ->
    spanAll a s e
    = Returned (fold_left widen (timeLeaves (unionQuery a)) (s, e)).
Proof.
  induction 1 as [ | q a Hq Ha IH ]; intros s e Hn; [ reflexivity | ].
  rewrite hasNil_cons in Hn. apply orb_false_iff in Hn.
  destruct Hn as [Hn1 Hn2].
  cbn [spanAll]. rewrite (Hq s e Hn1).
  rewrite timeLeaves_cons_union, fold_left_app.
  destruct (fold_left widen (timeLeaves q) (s, e)) as [s' e'].
  apply IH. exact Hn2.
Qed.

(** The time span of a tree is its seed widened by every time leaf in
    turn. *)
Lemma GetTimeSpan_leaves q : forall s e,
  hasNil q = false ->
  GetTimeSpan q s e = Returned (fold_left widen (timeLeaves q) (s, e)).
Proof.
  induction q as [ | n | n | n | n | from to | a IH | a IH | a0 a1 ]
    using Query_nested_ind; intros s e Hn; try reflexivity.
  - discriminate.
  - rewrite GetTimeSpan_union. apply spanAll_leaves; assumption.
  - rewrite GetTimeSpan_intersect, timeLeaves_union_intersect.
    apply spanAll_leaves; assumption.
Qed.

Lemma widen_after (A : Time) s e :
  A <> 0 -> (s = 0 \/ s = A - time_Minute) ->
  widen (s, e) (A, 0) = (A - time_Minute, e).
Proof.
  intros HA Hs.
  unfold widen, timeQuery_GetTimeSpan, IsZero, After, Add. cbn [fst snd].
  apply Z.eqb_neq in HA. rewrite HA. cbn [negb Z.eqb].
  replace (A + - time_Minute) with (A - time_Minute) by lia.
  destruct Hs as [-> | ->]; [ reflexivity | ].
  rewrite Z.ltb_irrefl, orb_false_r.
  destruct (A - time_Minute =? 0); reflexivity.
Qed.

Lemma widen_before (B : Time) s e :
  B <> 0 -> (e = 0 \/ e = B + time_Minute) ->
  widen (s, e) (0, B) = (s, B + time_Minute).
Proof.
  intros HB He.
  unfold widen, timeQuery_GetTimeSpan, IsZero, Before, Add. cbn [fst snd].
  apply Z.eqb_neq in HB. rewrite HB. cbn [negb Z.eqb].
  destruct He as [-> | ->]; [ reflexivity | ].
  rewrite Z.ltb_irrefl, orb_false_r.
  destruct (B + time_Minute =? 0); reflexivity.
Qed.

Lemma widen_after_before (A B : Time) leaves : forall s e,
  A <> 0 -> B <> 0 ->
  (forall l, In l leaves -> l = (A, 0) \/ l = (0, B)) ->
  (s = 0 \/ s = A - time_Minute) -> (e = 0 \/ e = B + time_Minute) ->
  (fst (fold_left widen leaves (s, e)) = A - time_Minute
   \/ (fst (fold_left widen leaves (s, e)) = s /\ ~ In (A, 0) leaves))
  /\ (snd (fold_left widen leaves (s, e)) = B + time_Minute
      \/ (snd (fold_left widen leaves (s, e)) = e /\ ~ In (0, B) leaves)).
Proof.
  induction leaves as [ | l leaves IH ]; intros s e HA HB Hall Hs He.
  - split; right; split; auto.
  - cbn [fold_left].
    assert (Hl : l = (A, 0) \/ l = (0, B)) by (apply Hall; left; reflexivity).
    assert (Hall' : forall l', In l' leaves -> l' = (A, 0) \/ l' = (0, B))
      by (intros l' H'; apply Hall; right; exact H').
    destruct Hl as [-> | ->].
    + rewrite (widen_after A s e HA Hs).
      destruct (IH (A - time_Minute) e HA HB Hall' (or_intror eq_refl) He)
        as [H1 H2].
      split.
      * left. destruct H1 as [H1 | [H1 _]]; exact H1.
      * destruct H2 as [H2 | [H2 Hn]]; [ left; exact H2 | right ].
        split; [ exact H2 | ].
        intros [Hin | Hin]; [ | contradiction ].
        injection Hin as -> _. contradiction.
    + rewrite (widen_before B s e HB He).
      destruct (IH s (B + time_Minute) HA HB Hall' Hs (or_intror eq_refl))
        as [H1 H2].
      split.
      * destruct H1 as [H1 | [H1 Hn]]; [ left; exact H1 | right ].
        split; [ exact H1 | ].
        intros [Hin | Hin]; [ | contradiction ].
        injection Hin as <- _. contradiction.
      * left. destruct H2 as [H2 | [H2 _]]; exact H2.
Qed.

(** ** Keywords after white space *)

Lemma skipSpaces_app ws rest :
  forallb IsSpace ws = true ->
  skipSpaces (ws ++ rest) = (length ws + skipSpaces rest)%nat.
Proof.
  induction ws as [ | c ws IH ]; simpl; [ reflexivity | ].
  intros H. apply andb_true_iff in H. destruct H as [Hc Hws].
  rewrite Hc, (IH Hws). reflexivity.
Qed.

Lemma Lex_spaces_keyword (lib : GoLib) (x : parserLex)
  (yylval : parserSymType) ws t i rest :
  forallb IsSpace ws = true ->
  In (t, i) tokens ->
  skipn (pos x) (inp x) = ws ++ t ++ rest ->
  Lex lib x yylval = (set_pos x (pos x + length ws + length t), yylval, i)
  /\ skipn (pos x + length ws + length t) (inp x) = rest.
Proof.
  intros Hws Hin Hrest.
  assert (Hskip : skipn (pos x + length ws) (inp x) = t ++ rest)
    by (apply skipn_app_more; exact Hrest).
  split.
  - unfold Lex. cbn [pos inp set_pos].
    rewrite Hrest, (skipSpaces_app ws _ Hws).
    rewrite (keyword_skipSpaces t i rest Hin), Nat.add_0_r.
    rewrite Hskip, (keyword_match t i rest Hin).
    reflexivity.
  - apply skipn_app_more. exact Hskip.
Qed.

(** ** Single transitions of the automaton *)

Lemma newstate_shift (lib : GoLib) p x' lv' c :
  (at_ parserPact (parserstate p) <=? parserFlag) = false ->
  (char p <? 0) = true ->
  Lex lib (plex p) (lval p) = (x', lv', c) ->
  let n := at_ parserPact (parserstate p) + translate c in
  ((n <? 0) || (parserLast <=? n)) = false ->
  (at_ parserChk (at_ parserAct n) =? translate c) = true ->
  parsernewstate lib p
  = ToStack {| plex := x'; lval := lv'; char := -1; parsertoken := -1;
               parserS := parserS p; parserVAL := lv';
               parserstate := at_ parserAct n;
               Errflag := if 0 <? Errflag p then Errflag p - 1
                          else Errflag p;
               Nerrs := Nerrs p |}.
Proof.
  intros H1 H2 HL n H3 H4.
  unfold parsernewstate, lookahead, parserlex1.
  rewrite H1, H2, HL.
  cbn [plex lval char parsertoken parserS parserVAL parserstate Errflag Nerrs].
  fold n. rewrite H3, H4. reflexivity.
Qed.

Lemma newstate_reduce (lib : GoLib) p :
  (at_ parserPact (parserstate p) <=? parserFlag) = true ->
  (at_ parserDef (parserstate p) =? -2) = false ->
  (at_ parserDef (parserstate p) =? 0) = false ->
  parsernewstate lib p = reduce p (at_ parserDef (parserstate p)).
Proof.
  intros H1 H2 H3. unfold parsernewstate, parserdefault.
  rewrite H1, H2, H3. reflexivity.
Qed.

Lemma newstate_lookahead_reduce (lib : GoLib) p x' lv' c :
  (at_ parserPact (parserstate p) <=? parserFlag) = false ->
  (char p <? 0) = true ->
  Lex lib (plex p) (lval p) = (x', lv', c) ->
  let n := at_ parserPact (parserstate p) + translate c in
  ((n <? 0) || (parserLast <=? n)) = true
  \/ (at_ parserChk (at_ parserAct n) =? translate c) = false ->
  (at_ parserDef (parserstate p) =? -2) = false ->
  (at_ parserDef (parserstate p) =? 0) = false ->
  parsernewstate lib p
  = reduce {| plex := x'; lval := lv'; char := c; parsertoken := translate c;
              parserS := parserS p; parserVAL := parserVAL p;
              parserstate := parserstate p; Errflag := Errflag p;
              Nerrs := Nerrs p |}
           (at_ parserDef (parserstate p)).
Proof.
  intros H1 H2 HL n H3 H4 H5.
  unfold parsernewstate, parserdefault, lookahead, parserlex1.
  rewrite H1, H2, HL.
  cbn [plex lval char parsertoken parserS parserVAL parserstate Errflag Nerrs].
  fold n. rewrite H4, H5.
  destruct H3 as [-> | H3]; [ reflexivity | ].
  rewrite H3. destruct ((n <? 0) || (parserLast <=? n)); reflexivity.
Qed.


(** ** Chains of [and] and [or] *)

Lemma run_ToStack (lib : GoLib) fuel p :
  run lib (S fuel) (ToStack p) = run lib fuel (parserstack lib p).
Proof. reflexivity. Qed.

Lemma opWord_token w :
  In (opText w, match w with
                | Wand => AND | Wampersands => AND | Wor => OR | Wbars => OR
                end) tokens.
Proof. destruct w; simpl; tauto. Qed.

Lemma leafWord_token l :
  In (leafText l, match l with Wtcp => TCP | Wudp => UDP | Wicmp => ICMP end)
     tokens.
Proof. destruct l; simpl; tauto. Qed.

(** Normalises the control a [run] is applied to. *)
Ltac norm_control :=
  match goal with
  | |- run _ _ ?c = _ => let c' := eval vm_compute in c in change c with c'
  end.

Lemma chain_step (lib : GoLib) x lv VAL w l tail fuel :
  skipn (pos x) (inp x)
  = (str " " ++ opText w) ++ str " " ++ leafText l ++ tail ->
  let n := (pos x + length (str " ") + length (opText w)
            + length (str " ") + length (leafText l))%nat in
  run lib (4 + fuel) (ToStack (between x lv VAL [set_yys zeroSym 0] 2))
  = run lib fuel
      (ToStack (between (set_pos x n) lv
                  (set_query (set_yys VAL 2)
                     (opQuery w (query VAL) (leafQuery l)))
                  [set_yys zeroSym 0] 2))
  /\ skipn n (inp x) = tail.
Proof.
  intros Hskip n.
  rewrite <- app_assoc in Hskip.
  destruct (Lex_spaces_keyword lib x lv (str " ") (opText w) _ _
              eq_refl (opWord_token w) Hskip) as [HL1 Hskip1].
  pose (x1 := set_pos x (pos x + length (str " ") + length (opText w))).
  assert (Hskip1' : skipn (pos x1) (inp x1) = str " " ++ leafText l ++ tail)
    by exact Hskip1.
  destruct (Lex_spaces_keyword lib x1 lv (str " ") (leafText l) _ _
              eq_refl (leafWord_token l) Hskip1') as [HL2 Hskip2].
  split; [ | exact Hskip2 ].
  clear Hskip Hskip1 Hskip1' Hskip2. subst n x1.
  change (4 + fuel)%nat with (S (S (S (S fuel)))).
  destruct w, l.
  all: rewrite run_ToStack; unfold parserstack;
    (erewrite newstate_shift;
      [ | reflexivity | reflexivity | exact HL1 | reflexivity | reflexivity ]);
    norm_control;
    rewrite run_ToStack; unfold parserstack;
    (erewrite newstate_shift;
      [ | reflexivity | reflexivity | exact HL2 | reflexivity | reflexivity ]);
    norm_control;
    rewrite run_ToStack; unfold parserstack;
    (erewrite newstate_reduce; [ | reflexivity | reflexivity | reflexivity ]);
    norm_control;
    rewrite run_ToStack; unfold parserstack;
    (erewrite newstate_reduce; [ | reflexivity | reflexivity | reflexivity ]);
    norm_control.
  all: reflexivity.
Qed.

Lemma skipn_nil_length {A} (l : list A) p : skipn p l = [] -> (length l <= p)%nat.
Proof.
  intros H. pose proof (length_skipn p l) as E. rewrite H in E. simpl in E. lia.
Qed.

Lemma Lex_eof (lib : GoLib) x lv :
  skipn (pos x) (inp x) = [] ->
  Lex lib x lv = (set_pos x (pos x), lv, 0).
Proof.
  intros H.
  assert (Hs : (pos x + skipSpaces (skipn (pos x) (inp x)))%nat = pos x)
    by (rewrite H; simpl; lia).
  assert (Hkw : matchKeyword tokens
                  (skipn (pos x + skipSpaces (skipn (pos x) (inp x))) (inp x))
                = None).
  { rewrite Hs, H. reflexivity. }
  rewrite (Lex_literal lib x lv Hkw). rewrite Hs, H.
  cbn [literalRun runLength scanRun fst firstn lexKind hasTimeChar hasIPChar
       endsWithUnit existsb length].
  rewrite Nat.add_0_r.
  apply skipn_nil_length in H. apply Nat.leb_le in H. rewrite H.
  reflexivity.
Qed.

Lemma chain_first (lib : GoLib) x l tail fuel :
  skipn (pos x) (inp x) = leafText l ++ tail ->
  let n := (pos x + length (leafText l))%nat in
  run lib (3 + fuel) (ToStack (initial x))
  = run lib fuel
      (ToStack (between (set_pos x n) zeroSym
                  (set_yys
                     (set_query
                        (set_yys zeroSym
                           match l with Wtcp => 11 | Wudp => 12 | Wicmp => 13
                           end) (leafQuery l)) 3)
                  [set_yys zeroSym 0] 2))
  /\ skipn n (inp x) = tail.
Proof.
  intros Hskip n.
  destruct (Lex_keyword_prefix lib x zeroSym (leafText l) _ _
              (leafWord_token l) Hskip) as [HL Hskip'].
  split; [ | exact Hskip' ].
  clear Hskip Hskip'. subst n.
  change (3 + fuel)%nat with (S (S (S fuel))).
  destruct l.
  all: rewrite run_ToStack; unfold parserstack;
    (erewrite newstate_shift;
      [ | reflexivity | reflexivity | exact HL | reflexivity | reflexivity ]);
    norm_control;
    rewrite run_ToStack; unfold parserstack;
    (erewrite newstate_reduce; [ | reflexivity | reflexivity | reflexivity ]);
    norm_control;
    rewrite run_ToStack; unfold parserstack;
    (erewrite newstate_reduce; [ | reflexivity | reflexivity | reflexivity ]);
    norm_control.
  all: reflexivity.
Qed.

Lemma run_Ret (lib : GoLib) fuel r x :
  run lib fuel (Ret r x) = Some (Returned (r, x)).
Proof. destruct fuel; reflexivity. Qed.

Lemma chain_end (lib : GoLib) x lv VAL fuel :
  skipn (pos x) (inp x) = [] ->
  run lib (2 + fuel) (ToStack (between x lv VAL [set_yys zeroSym 0] 2))
  = Some (Returned (0, set_out x (query VAL))).
Proof.
  intros Hskip.
  pose proof (Lex_eof lib x lv Hskip) as HL.
  change (2 + fuel)%nat with (S (S fuel)).
  rewrite run_ToStack; unfold parserstack.
  erewrite newstate_lookahead_reduce;
    [ | reflexivity | reflexivity | exact HL | right; reflexivity
      | reflexivity | reflexivity ].
  norm_control.
  rewrite run_ToStack.
  norm_control.
  rewrite run_Ret. reflexivity.
Qed.

Lemma run_more (lib : GoLib) fuel : forall c r fuel',
  run lib fuel c = Some r -> (fuel <= fuel')%nat -> run lib fuel' c = Some r.
Proof.
  induction fuel as [ | fuel IH ]; intros c r fuel' H Hle.
  - destruct c; simpl in H; try discriminate;
      destruct fuel'; simpl; exact H.
  - destruct fuel' as [ | fuel' ]; [ lia | ].
    destruct c; simpl in *; try exact H;
      apply IH; [ exact H | lia | exact H | lia ].
Qed.

Lemma chain_rest (lib : GoLib) rest : forall x lv VAL,
  skipn (pos x) (inp x) = chainTail rest ->
  exists n,
    run lib (2 + 4 * length rest)
      (ToStack (between x lv VAL [set_yys zeroSym 0] 2))
    = Some (Returned (0, set_out (set_pos x n) (foldLeft (query VAL) rest))).
Proof.
  induction rest as [ | [w l] rest IH ]; intros x lv VAL Hskip.
  - exists (pos x). rewrite Nat.mul_0_r. apply (chain_end lib x lv VAL 0 Hskip).
  - cbn [chainTail flat_map fst snd] in Hskip.
    rewrite <- !app_assoc in Hskip.
    fold (chainTail rest) in Hskip.
    rewrite app_assoc in Hskip.
    destruct (chain_step lib x lv VAL w l (chainTail rest)
                (2 + 4 * length rest) Hskip) as [Hrun Hskip'].
    destruct (IH (set_pos x (pos x + length (str " ") + length (opText w)
                             + length (str " ") + length (leafText l)))
                 lv
                 (set_query (set_yys VAL 2)
                    (opQuery w (query VAL) (leafQuery l)))
                 Hskip') as [n Hn].
    exists n.
    replace (2 + 4 * length ((w, l) :: rest))%nat
      with (4 + (2 + 4 * length rest))%nat by (simpl; lia).
    rewrite Hrun, Hn. reflexivity.
Qed.

(** ** The cursor of the lexer *)

Lemma skipSpaces_le rest : (skipSpaces rest <= length rest)%nat.
Proof.
  induction rest as [ | c rest IH ]; simpl; [ lia | ].
  destruct (IsSpace c); simpl; lia.
Qed.

Lemma HasPrefix_length rest t :
  HasPrefix rest t = true -> (length t <= length rest)%nat.
Proof.
  intros H. apply HasPrefix_app in H. destruct H as [r ->].
  rewrite length_app. lia.
Qed.

Lemma literalRun_length rest : (length (literalRun rest) <= length rest)%nat.
Proof. unfold literalRun. rewrite length_firstn. lia. Qed.

Lemma lexKind_nonempty part : lexKind part <> KNone -> (0 < length part)%nat.
Proof.
  destruct part; [ intros H; exfalso; apply H; reflexivity | simpl; lia ].
Qed.

Lemma keyword_nonempty t i : In (t, i) tokens -> (0 < length t)%nat.
Proof.
  apply (keyword_cases (fun t _ => (0 < length t)%nat)).
  repeat (constructor; [ simpl; lia | ]). constructor.
Qed.

Lemma keyword_positive t i : In (t, i) tokens -> 0 < i.
Proof.
  apply (keyword_cases (fun _ i => 0 < i)).
  repeat (constructor; [ reflexivity | ]). constructor.
Qed.

Lemma Lex_frame (lib : GoLib) x yylval x' yylval' c :
  Lex lib x yylval = (x', yylval', c) ->
  now x' = now x /\ inp x' = inp x /\ out x' = out x
  /\ startTime x' = startTime x /\ stopTime x' = stopTime x.
Proof.
  intros H.
  assert (HE : forall y m, now (Error y m) = now y /\ inp (Error y m) = inp y
                           /\ out (Error y m) = out y
                           /\ startTime (Error y m) = startTime y
                           /\ stopTime (Error y m) = stopTime y).
  { intros y m. unfold Error. destruct (err y); repeat split. }
  lex_cases H;
    try match goal with
        | |- context [Error ?y ?m] =>
            destruct (HE y m) as (E1 & E2 & E3 & E4 & E5);
            rewrite E1, E2, E3, E4, E5
        end; repeat split.
Qed.

Lemma Lex_cursor (lib : GoLib) x yylval x' yylval' c :
  Lex lib x yylval = (x', yylval', c) ->
  (pos x <= length (inp x))%nat ->
  (pos x <= pos x' <= length (inp x))%nat /\ (0 < c -> (pos x < pos x')%nat).
Proof.
  intros H Hpos.
  assert (HE : forall y m, pos (Error y m) = pos y).
  { intros y m. unfold Error. destruct (err y); reflexivity. }
  pose proof (skipSpaces_le (skipn (pos x) (inp x))) as Hsp.
  rewrite length_skipn in Hsp.
  remember (pos x + skipSpaces (skipn (pos x) (inp x)))%nat as s eqn:Es.
  assert (Hs : (pos x <= s <= length (inp x))%nat) by lia.
  pose proof (literalRun_length (skipn s (inp x))) as Hrun.
  rewrite length_skipn in Hrun.
  rewrite Es in Hrun.
  lex_cases H; rewrite ?HE; cbn [pos set_pos]; rewrite <- ?Es.
  1: { apply matchKeyword_In in Ekw. destruct Ekw as [Hin Hpre].
       apply HasPrefix_length in Hpre. rewrite length_skipn in Hpre.
       pose proof (keyword_nonempty _ _ Hin). rewrite <- Es in Hpre. lia. }
  all: rewrite <- ?Es in *.
  all: try (assert (Hne : (0 < length (literalRun (skipn s (inp x))))%nat)
              by (apply lexKind_nonempty; congruence); lia).
  all: try (split; [ lia | intros Hc; exfalso; lia ]).
  match goal with
  | E : Nat.leb _ _ = false |- _ => apply Nat.leb_gt in E
  end.
  lia.
Qed.


Lemma at_index (P : Z -> Prop) (tbl : list Z) :
  Forall P tbl -> P 0 -> forall z, P (at_ tbl z).
Proof.
  intros H H0 z. unfold at_.
  destruct (Nat.lt_ge_cases (Z.to_nat z) (length tbl)) as [Hlt | Hge].
  - rewrite Forall_forall in H. apply H. apply nth_In. exact Hlt.
  - rewrite nth_overflow by exact Hge. exact H0.
Qed.

Lemma Chk_never_error z : (at_ parserChk z =? parserErrCode) = false.
Proof.
  apply (at_index (fun v => (v =? parserErrCode) = false)).
  - repeat constructor.
  - reflexivity.
Qed.

Lemma Chk_never_end z : (at_ parserChk z =? 1) = false.
Proof.
  apply (at_index (fun v => (v =? 1) = false)).
  - repeat constructor.
  - reflexivity.
Qed.

Lemma recover_None S : recover S = None.
Proof.
  induction S as [ | v S IH ]; [ reflexivity | ].
  cbn [recover]. rewrite Chk_never_error, andb_false_r. exact IH.
Qed.

Lemma rank_le z : (rank z <= 4)%nat.
Proof.
  unfold rank.
  apply (at_index (fun v => (Z.to_nat v <= 4)%nat)).
  - repeat constructor; simpl; lia.
  - simpl. lia.
Qed.

(** Every entry of a table at an index, as a check over the indices. *)
Lemma index_cases (bound : nat) (P : nat -> Prop) :
  (forall i, (i < bound)%nat -> P i) -> (forall i, (bound <= i)%nat -> P i) ->
  forall i, P i.
Proof.
  intros H1 H2 i. destruct (Nat.lt_ge_cases i bound); auto.
Qed.

Lemma below_cases (bound : nat) (P : nat -> bool) :
  forallb P (seq 0 bound) = true -> forall i, (i < bound)%nat -> P i = true.
Proof.
  intros H i Hi. rewrite forallb_forall in H. apply H. apply in_seq. lia.
Qed.

Lemma Def_exception state : at_ parserDef state = -2 -> state = 1.
Proof.
  unfold at_. intros H.
  assert (Hn : Z.to_nat state = 1%nat).
  { revert H. generalize (Z.to_nat state). intros i.
    apply (index_cases 42 (fun i => nth i parserDef 0 = -2 -> i = 1%nat)).
    - intros j Hj Hd.
      assert (Hb := below_cases 42
                (fun j => negb (nth j parserDef 0 =? -2) || Nat.eqb j 1)
                eq_refl j Hj).
      cbn beta in Hb. rewrite Hd in Hb. simpl in Hb.
      apply Nat.eqb_eq in Hb. exact Hb.
    - intros j Hj Hd. rewrite nth_overflow in Hd by exact Hj. discriminate. }
  lia.
Qed.

Lemma reduce_lowers_rank state b :
  let n := at_ parserDef state in
  n <> 0 -> n <> -2 ->
  let nt := at_ parserR1 n in
  let g := at_ parserPgo nt in
  let j := g + b + 1 in
  Nat.lt (rank (if parserLast <=? j then at_ parserAct g
                 else if negb (at_ parserChk (at_ parserAct j) =? - nt)
                      then at_ parserAct g
                      else at_ parserAct j))
         (rank state).
Proof.
  intros n Hn0 Hn2 nt g j.
  assert (Hi : (Z.to_nat state < 42)%nat).
  { destruct (Nat.lt_ge_cases (Z.to_nat state) 42) as [H | H]; [ exact H | ].
    exfalso. apply Hn0. subst n. unfold at_.
    apply nth_overflow. exact H. }
  pose proof (below_cases 42 lowersRank eq_refl _ Hi) as Hlow.
  unfold lowersRank in Hlow.
  change (nth (Z.to_nat state) parserDef 0) with n in Hlow.
  apply Z.eqb_neq in Hn0, Hn2. rewrite Hn0, Hn2 in Hlow. cbn [orb] in Hlow.
  fold nt g in Hlow.
  apply andb_true_iff in Hlow. destruct Hlow as [Hlow Hall].
  apply andb_true_iff in Hlow. destruct Hlow as [Hnt Hg].
  apply Nat.ltb_lt in Hg.
  change (rank state) with (rankAt (Z.to_nat state)).
  assert (Hdefault : (rank (at_ parserAct g) < rankAt (Z.to_nat state))%nat)
    by exact Hg.
  destruct (parserLast <=? j); [ exact Hdefault | ].
  destruct (at_ parserChk (at_ parserAct j) =? - nt) eqn:Echk;
    cbn [negb]; [ | exact Hdefault ].
  apply Z.eqb_eq in Echk.
  set (s' := at_ parserAct j) in *.
  change (rank s') with (rankAt (Z.to_nat s')).
  destruct (Nat.lt_ge_cases (Z.to_nat s') 42) as [Hk | Hk].
  - rewrite forallb_forall in Hall.
    specialize (Hall (Z.to_nat s')).
    assert (Hin : In (Z.to_nat s') (seq 0 42)) by (apply in_seq; lia).
    specialize (Hall Hin).
    unfold at_ in Echk. rewrite Echk, Z.eqb_refl in Hall. cbn in Hall.
    apply Nat.ltb_lt in Hall. exact Hall.
  - exfalso. unfold at_ in Echk. rewrite nth_overflow in Echk by exact Hk.
    apply negb_true_iff in Hnt. apply Z.eqb_neq in Hnt. lia.
Qed.

Lemma translate_nonpos c : c <= 0 -> translate c = 1.
Proof.
  intros H. unfold translate.
  destruct (Z.leb_spec c 0); [ reflexivity | lia ].
Qed.

Lemma Error_cursor x m : pos (Error x m) = pos x /\ inp (Error x m) = inp x.
Proof. unfold Error. destruct (err x); split; reflexivity. Qed.

Lemma Handle_cursor x t u :
  (pos (HandleBefore x t) = pos x /\ inp (HandleBefore x t) = inp x)
  /\ (pos (HandleAfter x t) = pos x /\ inp (HandleAfter x t) = inp x)
  /\ (pos (HandleBetween x t u) = pos x /\ inp (HandleBetween x t u) = inp x).
Proof.
  unfold HandleBefore, HandleAfter, HandleBetween.
  repeat split;
    repeat match goal with
           | |- context [if ?b then _ else _] => destruct b
           end; reflexivity.
Qed.

Lemma action_cursor nt S VAL x :
  pos (snd (action nt S VAL x)) = pos x
  /\ inp (snd (action nt S VAL x)) = inp x.
Proof.
  action_cases nt S VAL x; cbn [action snd]; try (split; reflexivity).
  all: try (destruct (CIDRMask _ _));
       try (destruct (ipsFromNet _ _) as [[from to] [m | ]]);
       cbn [snd];
       repeat match goal with
              | |- context [if ?b then _ else _] => destruct b
              end.
  all: try (apply Handle_cursor; exact 0).
  all: rewrite ?(proj1 (proj2 (proj2 (Handle_cursor _ _ _)))),
               ?(proj2 (proj2 (proj2 (Handle_cursor _ _ _)))),
               ?(proj1 (Error_cursor _ _)), ?(proj2 (Error_cursor _ _)),
               ?(proj1 (Error_cursor _ _)), ?(proj2 (Error_cursor _ _));
       split; reflexivity.
Qed.

Lemma lookahead_steady (lib : GoLib) p :
  steady p ->
  steady (lookahead lib p)
  /\ (remaining (lookahead lib p) <= remaining p)%nat
  /\ parserstate (lookahead lib p) = parserstate p
  /\ parsertoken (lookahead lib p) = translate (char (lookahead lib p))
  /\ (char (lookahead lib p) <= 0 -> parsertoken (lookahead lib p) = 1).
Proof.
  intros (Hf & Hpos & Htok). unfold lookahead, parserlex1.
  destruct (Z.ltb_spec (char p) 0) as [Hc | Hc].
  - destruct (Lex lib (plex p) (lval p)) as [[x' lv'] c] eqn:E.
    destruct (Lex_cursor lib _ _ _ _ _ E Hpos) as [Hb Hadv].
    destruct (Lex_frame lib _ _ _ _ _ E) as (_ & Hinp & _).
    unfold steady, remaining.
    cbn [plex lval char parsertoken parserstate Errflag].
    rewrite Hinp.
    repeat split; try assumption; try lia.
    all: try apply translate_nonpos.
    destruct (Z.ltb_spec 0 c) as [Hp | Hp];
      destruct (Z.ltb_spec 0 (char p)); try lia.
  - repeat split; try assumption; try lia.
    all: try (apply Htok; exact Hc).
    intros H0. rewrite (Htok Hc). apply translate_nonpos. exact H0.
Qed.

Lemma on_error_returns p :
  Errflag p = 0 -> exists x, on_error p = Ret 1 x.
Proof.
  intros Hf. unfold on_error. rewrite Hf, recover_None. cbn.
  eexists. reflexivity.
Qed.

Lemma reduce_progress p n :
  steady p -> n = at_ parserDef (parserstate p) -> n <> 0 -> n <> -2 ->
  progress p (reduce p n).
Proof.
  intros (Hf & Hpos & Htok) Hn Hn0 Hn2. unfold reduce.
  destruct (action_cursor n (parserS p)
              (nth (Z.to_nat (at_ parserR2 n) - 1) (parserS p) zeroSym)
              (plex p)) as [Hp Hi].
  destruct (action n (parserS p) _ (plex p)) as [VAL x].
  cbn [snd] in Hp, Hi.
  unfold progress, steady, potential, remaining.
  cbn [plex lval char parsertoken parserstate Errflag].
  rewrite Hp, Hi.
  repeat split; try assumption.
  pose proof (reduce_lowers_rank (parserstate p)
                (yys (nth 0 (skipn (Z.to_nat (at_ parserR2 n)) (parserS p))
                          zeroSym))) as Hr.
  cbn zeta in Hr. rewrite <- Hn in Hr. specialize (Hr Hn0 Hn2).
  unfold Nat.lt in Hr. lia.
Qed.

Lemma parserdefault_progress (lib : GoLib) p :
  steady p -> progress p (parserdefault lib p).
Proof.
  intros Hs. unfold parserdefault.
  destruct (Z.eqb_spec (at_ parserDef (parserstate p)) (-2)) as [E2 | E2].
  - destruct (lookahead_steady lib p Hs) as (Hs' & _ & Hst & _).
    apply Def_exception in E2. rewrite Hst, E2.
    change (exca_find parserExca 1) with (Some [1; -1; -2; 0]).
    cbn [exca_scan].
    destruct ((1 <? 0) || (1 =? parsertoken (lookahead lib p)));
      [ exact I | ].
    change ((-2 <? 0) || (-2 =? parsertoken (lookahead lib p))) with true.
    cbn match. change (0 <? 0) with false. change (0 =? 0) with true.
    cbn match.
    destruct (on_error_returns (lookahead lib p) (proj1 Hs')) as [x ->].
    exact I.
  - destruct (Z.eqb_spec (at_ parserDef (parserstate p)) 0) as [E0 | E0].
    + destruct (on_error_returns p (proj1 Hs)) as [x ->]. exact I.
    + apply reduce_progress; auto.
Qed.

Lemma parsernewstate_progress (lib : GoLib) p :
  steady p -> progress p (parsernewstate lib p).
Proof.
  intros Hs. unfold parsernewstate.
  destruct (at_ parserPact (parserstate p) <=? parserFlag);
    [ apply parserdefault_progress; exact Hs | ].
  destruct (lookahead_steady lib p Hs) as (Hs' & Hrem & Hst & Htok & Hend).
  assert (Hdef : progress p (parserdefault lib (lookahead lib p))).
  { pose proof (parserdefault_progress lib _ Hs') as H.
    destruct (parserdefault lib (lookahead lib p)); try exact H.
    destruct H as [H1 H2]. split; [ exact H1 | ].
    unfold potential in *. rewrite Hst in H2. lia. }
  destruct ((at_ parserPact (parserstate p) + parsertoken (lookahead lib p)
             <? 0)
            || (parserLast <=? at_ parserPact (parserstate p)
                               + parsertoken (lookahead lib p)));
    [ exact Hdef | ].
  destruct (at_ parserChk _ =? parsertoken (lookahead lib p)) eqn:Eshift;
    [ | exact Hdef ].
  assert (Hpos : 0 < char (lookahead lib p)).
  { destruct (Z.ltb_spec 0 (char (lookahead lib p))) as [H | H];
      [ exact H | ].
    rewrite (Hend H), Chk_never_end in Eshift. discriminate. }
  destruct Hs' as (Hf & Hp & _).
  unfold progress, steady, potential, remaining in *.
  cbn [plex lval char parsertoken parserstate Errflag].
  rewrite Hf. change (0 <? 0) with false. change (0 <? -1) with false.
  cbn match.
  repeat split; try assumption; try lia.
  pose proof (rank_le (at_ parserAct
                         (at_ parserPact (parserstate p)
                          + parsertoken (lookahead lib p)))) as Hr.
  destruct (Z.ltb_spec 0 (char (lookahead lib p))); [ | lia ].
  lia.
Qed.

Lemma parserstack_progress (lib : GoLib) p :
  steady p -> progress p (parserstack lib p).
Proof.
  intros Hs. unfold parserstack.
  apply (parsernewstate_progress lib
           {| plex := plex p; lval := lval p; char := char p;
              parsertoken := parsertoken p;
              parserS := set_yys (parserVAL p) (parserstate p) :: parserS p;
              parserVAL := parserVAL p; parserstate := parserstate p;
              Errflag := Errflag p; Nerrs := Nerrs p |}).
  exact Hs.
Qed.

Lemma run_terminates (lib : GoLib) fuel : forall p,
  steady p -> (potential p < fuel)%nat ->
  exists r x, run lib fuel (ToStack p) = Some (Returned (r, x)).
Proof.
  induction fuel as [ | fuel IH ]; intros p Hs Hfuel; [ lia | ].
  cbn [run].
  pose proof (parserstack_progress lib p Hs) as H.
  destruct (parserstack lib p) as [p' | p' | r x | ]; cbn [progress] in H.
  - destruct H as [Hs' Hlt]. apply IH; [ exact Hs' | lia ].
  - contradiction.
  - exists r, x. apply run_Ret.
  - contradiction.
Qed.

(** ** Iteration order of the keyword map *)

Lemma HasPrefix_comparable rest : forall t1 t2,
  HasPrefix rest t1 = true -> HasPrefix rest t2 = true ->
  HasPrefix t1 t2 = true \/ HasPrefix t2 t1 = true.
Proof.
  induction rest as [ | c rest IH ]; intros t1 t2 H1 H2.
  - destruct t1; [ | discriminate ]. right. reflexivity.
  - destruct t1 as [ | c1 t1 ]; [ right; reflexivity | ].
    destruct t2 as [ | c2 t2 ]; [ left; reflexivity | ].
    simpl in H1, H2.
    apply andb_true_iff in H1, H2. destruct H1 as [E1 H1], H2 as [E2 H2].
    apply Ascii.eqb_eq in E1, E2. subst c1 c2.
    simpl. rewrite Ascii.eqb_refl. simpl.
    apply IH; assumption.
Qed.

Lemma keywords_prefix_free t1 i1 t2 i2 :
  In (t1, i1) tokens -> In (t2, i2) tokens ->
  HasPrefix t1 t2 = true -> (t1, i1) = (t2, i2).
Proof.
  intros H1. revert t2 i2.
  apply (keyword_cases
           (fun t1 i1 => forall t2 i2, In (t2, i2) tokens ->
                           HasPrefix t1 t2 = true -> (t1, i1) = (t2, i2)));
    [ | exact H1 ].
  repeat (constructor;
          [ intros t2 i2 H2;
            apply (keyword_cases
                     (fun t2 i2 => HasPrefix _ t2 = true -> _ = (t2, i2)));
            [ | exact H2 ];
            repeat (constructor;
                    [ cbn [fst snd]; intros H;
                      first [ discriminate H | reflexivity ] | ]);
            constructor
          | ]).
  constructor.
Qed.

Lemma matchKeyword_None table rest :
  matchKeyword table rest = None ->
  forall t i, In (t, i) table -> HasPrefix rest t = false.
Proof.
  induction table as [ | [t' i'] table IH ]; simpl; intros H t i Hin;
    [ contradiction | ].
  destruct (HasPrefix rest t') eqn:E; [ discriminate | ].
  destruct Hin as [Heq | Hin]; [ injection Heq as <- _; exact E | ].
  exact (IH H t i Hin).
Qed.

(** The keyword found does not depend on the order in which the map
    [tokens] is ranged over: no keyword is a prefix of another, so at most
    one of them starts the text. *)
Theorem keyword_order_irrelevant (table : list (gostring * Z))
  (rest : gostring) :
  Permutation table tokens ->
  matchKeyword table rest = matchKeyword tokens rest.
Proof.
  intros Hperm.
  destruct (matchKeyword tokens rest) as [[t i] | ] eqn:E.
  - apply matchKeyword_In in E. destruct E as [Hin Hpre].
    destruct (matchKeyword table rest) as [[t' i'] | ] eqn:E'.
    + apply matchKeyword_In in E'. destruct E' as [Hin' Hpre'].
      apply (Permutation_in _ Hperm) in Hin'.
      destruct (HasPrefix_comparable rest t t' Hpre Hpre') as [H | H].
      * rewrite (keywords_prefix_free _ _ _ _ Hin Hin' H). reflexivity.
      * rewrite (keywords_prefix_free _ _ _ _ Hin' Hin H). reflexivity.
    + apply (Permutation_in _ (Permutation_sym Hperm)) in Hin.
      rewrite (matchKeyword_None _ _ E' _ _ Hin) in Hpre. discriminate.
  - destruct (matchKeyword table rest) as [[t' i'] | ] eqn:E';
      [ | reflexivity ].
    apply matchKeyword_In in E'. destruct E' as [Hin' Hpre'].
    apply (Permutation_in _ Hperm) in Hin'.
    rewrite (matchKeyword_None _ _ E _ _ Hin') in Hpre'. discriminate.
Qed.

Lemma keyword_order_irrelevant_witness :
  matchKeyword (rev tokens) (str "between 3h ago")
  = matchKeyword tokens (str "between 3h ago").
Proof.
  apply keyword_order_irrelevant.
  apply Permutation_sym, Permutation_rev.
Defined.

(** ** What the lexer touches *)

(** [Lex] never moves the cursor back nor beyond the end of the input, and
    every token it returns (a positive result) has consumed at least one
    byte; apart from the cursor and the error it leaves the lexer as it
    was. *)
Theorem Lex_advances (lib : GoLib) (x : parserLex) (yylval : parserSymType)
  (x' : parserLex) (yylval' : parserSymType) (c : Z) :
  Lex lib x yylval = (x', yylval', c) ->
  (pos x <= length (inp x))%nat ->
  (pos x <= pos x' <= length (inp x))%nat
  /\ (0 < c -> (pos x < pos x')%nat)
  /\ now x' = now x /\ inp x' = inp x /\ out x' = out x
  /\ startTime x' = startTime x /\ stopTime x' = stopTime x.
Proof.
  intros H Hpos.
  destruct (Lex_cursor lib _ _ _ _ _ H Hpos) as [H1 H2].
  pose proof (Lex_frame lib _ _ _ _ _ H) as H3.
  tauto.
Qed.

Lemma Lex_advances_witness :
  (0 <= 4 <= 7)%nat /\ (0 < PORT -> (0 < 4)%nat)
  /\ now (set_pos (newLex 0 (str "port 80")) 4) = 0
  /\ inp (set_pos (newLex 0 (str "port 80")) 4) = str "port 80"
  /\ out (set_pos (newLex 0 (str "port 80")) 4) = nilQuery
  /\ startTime (set_pos (newLex 0 (str "port 80")) 4) = 0
  /\ stopTime (set_pos (newLex 0 (str "port 80")) 4) = 0.
Proof.
  apply (Lex_advances sampleLib (newLex 0 (str "port 80")) zeroSym
           (set_pos (newLex 0 (str "port 80")) 4) zeroSym PORT).
  - reflexivity.
  - simpl. lia.
Defined.

(** The token, its value and the new cursor depend on the input and the
    cursor only: neither an error recorded earlier nor the envelope nor the
    tree built so far changes what [Lex] reads next. *)
Theorem Lex_reads_input_only (lib : GoLib) (x y : parserLex)
  (yylval : parserSymType) :
  inp x = inp y -> pos x = pos y ->
  snd (Lex lib x yylval) = snd (Lex lib y yylval)
  /\ snd (fst (Lex lib x yylval)) = snd (fst (Lex lib y yylval))
  /\ pos (fst (fst (Lex lib x yylval))) = pos (fst (fst (Lex lib y yylval))).
Proof.
  intros Hi Hp.
  destruct (matchKeyword tokens
              (skipn (pos x + skipSpaces (skipn (pos x) (inp x))) (inp x)))
    as [[t i] | ] eqn:E.
  - rewrite (Lex_keyword lib x yylval t i E).
    rewrite Hi, Hp in E.
    rewrite (Lex_keyword lib y yylval t i E).
    cbn [fst snd pos set_pos]. rewrite Hi, Hp. auto.
  - rewrite (Lex_literal lib x yylval E).
    rewrite Hi, Hp in E.
    rewrite (Lex_literal lib y yylval E).
    rewrite Hi, Hp.
    destruct (lexKind _);
      repeat match goal with
             | |- context [match ?u with _ => _ end] => destruct u
             end;
      cbn [fst snd pos set_pos];
      rewrite ?(proj1 (Error_cursor _ _)); cbn [pos set_pos]; auto.
Qed.

Lemma Lex_reads_input_only_witness :
  snd (Lex sampleLib (set_err (newLex 0 (str "port 80"))
                        (Some {| err_msg := SyntaxError; err_pos := 0;
                                 err_before := []; err_after := [] |}))
         zeroSym)
  = snd (Lex sampleLib (newLex 7 (str "port 80")) zeroSym).
Proof.
  apply (Lex_reads_input_only sampleLib
           (set_err (newLex 0 (str "port 80"))
              (Some {| err_msg := SyntaxError; err_pos := 0;
                       err_before := []; err_after := [] |}))
           (newLex 7 (str "port 80")) zeroSym); reflexivity.
Defined.

(** ** [Parse] always returns *)

Lemma initial_steady x : pos x = O -> steady (initial x).
Proof.
  intros Hp. unfold steady, initial. cbn. rewrite Hp.
  repeat split; lia.
Qed.

(** Whatever the text, [parse] returns, and it does so within
    [5 * len(in) + 1] jumps to the labels of [Parse]: the generated parser
    neither loops nor panics. *)
Theorem parse_always_returns (lib : GoLib) (now : Time) (input : gostring)
  (fuel : nat) :
  (5 * length input < fuel)%nat ->
  exists q start stop e,
    parse lib fuel now input = Some (Returned (q, start, stop, e)).
Proof.
  intros Hfuel. unfold parse, parserParse.
  destruct (run_terminates lib fuel (initial (newLex now input))
              (initial_steady (newLex now input) eq_refl)) as (r & x & ->).
  - unfold potential, remaining, initial, rank. cbn. lia.
  - destruct (err x) as [e | ]; eauto.
Qed.

Lemma parse_always_returns_witness :
  exists q start stop e,
    parse sampleLib 36 0 (str "port 80") = Some (Returned (q, start, stop, e)).
Proof.
  apply (parse_always_returns sampleLib 0 (str "port 80") 36).
  simpl. lia.
Defined.

(** The search of the exception table always finds its entry. *)
Lemma exception_found (lib : GoLib) (fuel : nat) (now : Time)
  (input : gostring) :
  parse lib fuel now input <> Some Panicked.
Proof.
  unfold parse, parserParse. intros H.
  destruct (run lib fuel (ToStack (initial (newLex now input))))
    as [[[r x] | ] | ] eqn:E; try discriminate.
  - destruct (err x); discriminate.
  - destruct (run_terminates lib (fuel + S (5 * length input))
                (initial (newLex now input)) (initial_steady (newLex now input) eq_refl))
      as (r & x & Hr).
    + unfold potential, remaining, initial, rank. cbn. lia.
    + rewrite (run_more lib _ _ _ (fuel + S (5 * length input)) E) in Hr
        by lia.
      discriminate.
Qed.

(** ** The result code of [Parse] *)

Lemma on_error_aborts p :
  Errflag p = 0 -> on_error p = Ret 1 (Error (plex p) SyntaxError).
Proof.
  intros Hf. unfold on_error. rewrite Hf, recover_None. reflexivity.
Qed.

Lemma Error_records x m : err (Error x m) <> None.
Proof. unfold Error. destruct (err x) eqn:E; cbn; congruence. Qed.

Lemma reduce_goes_on p n : exists p', reduce p n = ToStack p'.
Proof.
  unfold reduce. destruct (action n (parserS p) _ (plex p)).
  eexists. reflexivity.
Qed.

Lemma parserdefault_code (lib : GoLib) p r x :
  steady p -> parserdefault lib p = Ret r x ->
  r = 0 \/ (r = 1 /\ err x <> None).
Proof.
  intros Hs. unfold parserdefault.
  destruct (Z.eqb_spec (at_ parserDef (parserstate p)) (-2)) as [E2 | E2].
  - destruct (lookahead_steady lib p Hs) as (Hs' & _ & Hst & _).
    apply Def_exception in E2. rewrite Hst, E2.
    change (exca_find parserExca 1) with (Some [1; -1; -2; 0]).
    cbn [exca_scan].
    destruct ((1 <? 0) || (1 =? parsertoken (lookahead lib p))).
    + change (-1 <? 0) with true. cbn match.
      intros H. injection H as <- _. left. reflexivity.
    + change ((-2 <? 0) || (-2 =? parsertoken (lookahead lib p))) with true.
      cbn match. change (0 <? 0) with false. change (0 =? 0) with true.
      cbn match. rewrite (on_error_aborts _ (proj1 Hs')).
      intros H. injection H as <- <-. right. split; [ reflexivity | ].
      apply Error_records.
  - destruct (Z.eqb_spec (at_ parserDef (parserstate p)) 0) as [E0 | E0].
    + rewrite (on_error_aborts _ (proj1 Hs)).
      intros H. injection H as <- <-. right. split; [ reflexivity | ].
      apply Error_records.
    + destruct (reduce_goes_on p (at_ parserDef (parserstate p))) as [p' ->].
      discriminate.
Qed.

Lemma parserstack_code (lib : GoLib) p r x :
  steady p -> parserstack lib p = Ret r x ->
  r = 0 \/ (r = 1 /\ err x <> None).
Proof.
  intros Hs. unfold parserstack, parsernewstate.
  cbn [plex lval char parsertoken parserS parserVAL parserstate Errflag Nerrs].
  set (q := {| plex := plex p; lval := lval p; char := char p;
               parsertoken := parsertoken p;
               parserS := set_yys (parserVAL p) (parserstate p) :: parserS p;
               parserVAL := parserVAL p; parserstate := parserstate p;
               Errflag := Errflag p; Nerrs := Nerrs p |}).
  assert (Hq : steady q) by exact Hs.
  destruct (at_ parserPact (parserstate p) <=? parserFlag);
    [ apply parserdefault_code; exact Hq | ].
  destruct (lookahead_steady lib q Hq) as (Hs' & _).
  destruct ((at_ parserPact (parserstate p) + parsertoken (lookahead lib q)
             <? 0)
            || (parserLast <=? at_ parserPact (parserstate p)
                               + parsertoken (lookahead lib q)));
    [ apply parserdefault_code; exact Hs' | ].
  destruct (at_ parserChk _ =? parsertoken (lookahead lib q));
    [ discriminate | apply parserdefault_code; exact Hs' ].
Qed.

Lemma run_code (lib : GoLib) fuel : forall p r x,
  steady p -> run lib fuel (ToStack p) = Some (Returned (r, x)) ->
  r = 0 \/ (r = 1 /\ err x <> None).
Proof.
  induction fuel as [ | fuel IH ]; intros p r x Hs H; [ discriminate | ].
  cbn [run] in H.
  pose proof (parserstack_progress lib p Hs) as Hp.
  pose proof (parserstack_code lib p) as Hc.
  destruct (parserstack lib p) as [p' | p' | r' x' | ]; cbn [progress] in Hp.
  - apply (IH p' r x (proj1 Hp) H).
  - contradiction.
  - rewrite run_Ret in H. injection H as <- <-.
    apply (Hc r' x' Hs eq_refl).
  - contradiction.
Qed.

(** [Parse] returns 0 or 1, and it returns 1 only after recording an error:
    a syntax error is never recovered from (no state of the tables shifts
    the [error] token), so whenever [parse] hands back a tree, [Parse] has
    accepted the input. *)
Theorem Parse_result_code (lib : GoLib) (fuel : nat) (now : Time)
  (input : gostring) (r : Z) (x : parserLex) :
  parserParse lib fuel (newLex now input) = Some (Returned (r, x)) ->
  (r = 0 \/ r = 1) /\ (r = 1 -> err x <> None) /\ (err x = None -> r = 0).
Proof.
  intros H. unfold parserParse in H.
  destruct (run_code lib fuel _ r x
              (initial_steady (newLex now input) eq_refl) H)
    as [-> | [-> He]].
  - repeat split; auto. discriminate.
  - repeat split; auto. intros E. contradiction.
Qed.

Lemma Parse_result_code_witness :
  (1 = 0 \/ 1 = 1)
  /\ (1 = 1 ->
      err (Error (set_pos (newLex 0 (str "port and")) 8) SyntaxError) <> None)
  /\ (err (Error (set_pos (newLex 0 (str "port and")) 8) SyntaxError) = None
      -> 1 = 0).
Proof.
  apply (Parse_result_code sampleLib 10 0 (str "port and") 1
           (Error (set_pos (newLex 0 (str "port and")) 8) SyntaxError)).
  vm_compute. reflexivity.
Defined.

(** ** Text after the last token *)

Lemma startsNoToken_keyword g tail table :
  existsb (fun ti => match fst ti with
                     | c :: _ => Ascii.eqb g c
                     | [] => true
                     end) table = false ->
  matchKeyword table (g :: tail) = None.
Proof.
  induction table as [ | [t i] table IH ]; [ reflexivity | ].
  cbn [existsb fst]. intros H. apply orb_false_iff in H. destruct H as [H1 H2].
  cbn [matchKeyword]. destruct t as [ | c t ]; [ discriminate | ].
  cbn [HasPrefix]. rewrite H1. cbn [andb]. apply IH. exact H2.
Qed.

Lemma startsNoToken_run g tail :
  startsNoToken g = true ->
  scanRun (g :: tail) O false false false = (O, false, false, false).
Proof.
  unfold startsNoToken. intros H.
  apply andb_true_iff in H. destruct H as [_ H].
  apply negb_true_iff in H. unfold inb in *. cbn [existsb] in *.
  repeat (apply orb_false_iff in H; destruct H as [? H]).
  cbn [scanRun inb existsb].
  repeat match goal with
         | E : Ascii.eqb g _ = false |- _ => rewrite E; clear E
         end.
  reflexivity.
Qed.

Lemma Lex_startsNoToken (lib : GoLib) x yylval ws g tail :
  forallb IsSpace ws = true -> startsNoToken g = true ->
  skipn (pos x) (inp x) = ws ++ g :: tail ->
  Lex lib x yylval = (set_pos x (pos x + length ws), yylval, -1)
  /\ skipn (pos x + length ws) (inp x) = [] ++ g :: tail.
Proof.
  intros Hws Hg Hskip.
  assert (Hskip' : skipn (pos x + length ws) (inp x) = g :: tail)
    by (apply skipn_app_more; exact Hskip).
  split; [ | exact Hskip' ].
  pose proof Hg as Hg'. unfold startsNoToken in Hg'.
  apply andb_true_iff in Hg'. destruct Hg' as [Hg' Hpunct].
  apply andb_true_iff in Hg'. destruct Hg' as [Hsp Hkw].
  apply negb_true_iff in Hsp, Hkw, Hpunct.
  assert (Hs : (pos x + skipSpaces (skipn (pos x) (inp x)))%nat
               = (pos x + length ws)%nat).
  { rewrite Hskip, (skipSpaces_app ws _ Hws). cbn [skipSpaces].
    rewrite Hsp. lia. }
  assert (Hnokw : matchKeyword tokens
                    (skipn (pos x + skipSpaces (skipn (pos x) (inp x)))
                           (inp x)) = None).
  { rewrite Hs, Hskip'. apply startsNoToken_keyword. exact Hkw. }
  rewrite (Lex_literal lib x yylval Hnokw). rewrite Hs, Hskip'.
  unfold literalRun, runLength. rewrite (startsNoToken_run g tail Hg).
  cbn [fst firstn lexKind hasTimeChar hasIPChar endsWithUnit existsb length].
  rewrite Nat.add_0_r.
  assert (Hlt : (pos x + length ws < length (inp x))%nat).
  { destruct (Nat.lt_ge_cases (pos x + length ws) (length (inp x)))
      as [H | H]; [ exact H | ].
    rewrite (skipn_all2 _ H) in Hskip'. discriminate. }
  apply Nat.leb_gt in Hlt. rewrite Hlt.
  assert (Hnth : nth_error (inp x) (pos x + length ws) = Some g).
  { rewrite <- (firstn_skipn (pos x + length ws) (inp x)) at 1.
    rewrite nth_error_app2; rewrite length_firstn;
      apply Nat.leb_gt in Hlt.
    - replace (pos x + length ws
               - Nat.min (pos x + length ws) (length (inp x)))%nat
        with O by lia.
      rewrite Hskip'. reflexivity.
    - lia. }
  rewrite Hnth.
  assert (Hp : inb g [":"; "."; "("; ")"; "/"]%char = false).
  { unfold inb in *. cbn [existsb] in *.
    repeat (apply orb_false_iff in Hpunct; destruct Hpunct as [? Hpunct]).
    repeat match goal with
           | E : Ascii.eqb g _ = false |- _ => rewrite E; clear E
           end.
    reflexivity. }
  rewrite Hp. reflexivity.
Qed.

Lemma newstate_accept (lib : GoLib) p x' lv' c :
  parserstate p = 1 -> (char p <? 0) = true ->
  Lex lib (plex p) (lval p) = (x', lv', c) -> translate c = 1 ->
  parsernewstate lib p = Ret 0 x'.
Proof.
  intros Hst Hc HL Ht.
  unfold parsernewstate, parserdefault, lookahead, parserlex1.
  rewrite Hst, Hc, HL.
  cbn [plex lval char parsertoken parserS parserVAL parserstate Errflag Nerrs].
  rewrite Ht. reflexivity.
Qed.

Lemma chain_end_ignored (lib : GoLib) x lv VAL ws g tail fuel :
  forallb IsSpace ws = true -> startsNoToken g = true ->
  skipn (pos x) (inp x) = ws ++ g :: tail ->
  run lib (2 + fuel) (ToStack (between x lv VAL [set_yys zeroSym 0] 2))
  = Some (Returned (0, set_out (set_pos x (pos x + length ws)) (query VAL))).
Proof.
  intros Hws Hg Hskip.
  destruct (Lex_startsNoToken lib x lv ws g tail Hws Hg Hskip) as [HL Hskip'].
  pose (x1 := set_pos x (pos x + length ws)).
  destruct (Lex_startsNoToken lib (set_out x1 (query VAL)) lv [] g tail
              eq_refl Hg Hskip') as [HL' _].
  change (2 + fuel)%nat with (S (S fuel)).
  rewrite run_ToStack; unfold parserstack.
  erewrite newstate_lookahead_reduce;
    [ | reflexivity | reflexivity | exact HL | right; reflexivity
      | reflexivity | reflexivity ].
  norm_control.
  rewrite run_ToStack. unfold parserstack.
  erewrite newstate_accept;
    [ | reflexivity | reflexivity | exact HL' | reflexivity ].
  rewrite run_Ret. subst x1. cbn [pos set_pos set_out length].
  rewrite Nat.add_0_r. reflexivity.
Qed.

Lemma chain_rest_ignored (lib : GoLib) ws g tail rest : forall x lv VAL,
  forallb IsSpace ws = true -> startsNoToken g = true ->
  skipn (pos x) (inp x) = chainTail rest ++ ws ++ g :: tail ->
  exists n,
    run lib (2 + 4 * length rest)
      (ToStack (between x lv VAL [set_yys zeroSym 0] 2))
    = Some (Returned (0, set_out (set_pos x n) (foldLeft (query VAL) rest))).
Proof.
  induction rest as [ | [w l] rest IH ]; intros x lv VAL Hws Hg Hskip.
  - exists (pos x + length ws)%nat. rewrite Nat.mul_0_r.
    apply (chain_end_ignored lib x lv VAL ws g tail 0 Hws Hg Hskip).
  - cbn [chainTail flat_map fst snd] in Hskip.
    rewrite <- !app_assoc in Hskip.
    fold (chainTail rest) in Hskip.
    rewrite (app_assoc (str " ")) in Hskip.
    destruct (chain_step lib x lv VAL w l (chainTail rest ++ ws ++ g :: tail)
                (2 + 4 * length rest) Hskip) as [Hrun Hskip'].
    destruct (IH (set_pos x (pos x + length (str " ") + length (opText w)
                             + length (str " ") + length (leafText l)))
                 lv
                 (set_query (set_yys VAL 2)
                    (opQuery w (query VAL) (leafQuery l)))
                 Hws Hg Hskip') as [n Hn].
    exists n.
    replace (2 + 4 * length ((w, l) :: rest))%nat
      with (4 + (2 + 4 * length rest))%nat by (simpl; lia).
    rewrite Hrun, Hn. reflexivity.
Qed.

(** Text after the last token is ignored when it begins, after any white
    space, with a byte that starts no token: [Lex] answers -1 there, which
    [parserlex1] reads as the end of the input.  So a chain followed by such
    text parses, without error, to the tree of the chain alone. *)
Theorem trailing_text_ignored (lib : GoLib) (now : Time) (first : leafWord)
  (rest : list (opWord * leafWord)) (ws : gostring) (g : ascii)
  (tail : gostring) (fuel : nat) :
  forallb IsSpace ws = true -> startsNoToken g = true ->
  (5 + 4 * length rest <= fuel)%nat ->
  parse lib fuel now (chainText first rest ++ ws ++ g :: tail)
  = Some (Returned (foldLeft (leafQuery first) rest, 0, 0, None)).
Proof.
  intros Hws Hg Hfuel.
  unfold parse, parserParse.
  set (input := chainText first rest ++ ws ++ g :: tail).
  assert (Hskip0 : skipn (pos (newLex now input)) (inp (newLex now input))
                   = leafText first ++ chainTail rest ++ ws ++ g :: tail).
  { subst input. unfold chainText. rewrite <- app_assoc. reflexivity. }
  destruct (chain_first lib (newLex now input) first
              (chainTail rest ++ ws ++ g :: tail) (2 + 4 * length rest)
              Hskip0) as [Hrun Hskip].
  destruct (chain_rest_ignored lib ws g tail rest
              (set_pos (newLex now input)
                 (pos (newLex now input) + length (leafText first)))
              zeroSym
              (set_yys
                 (set_query
                    (set_yys zeroSym
                       match first with
                       | Wtcp => 11 | Wudp => 12 | Wicmp => 13
                       end)
                    (leafQuery first)) 3)
              Hws Hg Hskip) as [n Hn].
  rewrite Hn in Hrun. cbn [query set_yys set_query] in Hrun.
  rewrite (run_more lib _ _ _ fuel Hrun) by lia.
  reflexivity.
Qed.

Lemma trailing_text_ignored_witness :
  parse sampleLib 9 0 (str "tcp and udp xyz )(")
  = Some (Returned
            (intersectQuery [protocolQuery 6; protocolQuery 17], 0, 0, None)).
Proof.
  apply (trailing_text_ignored sampleLib 0 Wtcp [(Wand, Wudp)] (str " ")
           "x"%char (str "yz )(") 9); reflexivity.
Defined.

(** ** Decimal literals *)

Lemma digit_not_other g c :
  isDigit g = true -> isDigit c = false -> Ascii.eqb g c = false.
Proof.
  intros Hg Hc. destruct (Ascii.eqb_spec g c); [ | reflexivity ].
  subst. congruence.
Qed.

Lemma digit_no_keyword g tail :
  isDigit g = true -> matchKeyword tokens (g :: tail) = None.
Proof.
  intros Hg. apply startsNoToken_keyword.
  unfold tokens. cbn [existsb fst str list_ascii_of_string].
  rewrite !(digit_not_other g _ Hg) by reflexivity. reflexivity.
Qed.

Lemma digit_not_space g : isDigit g = true -> IsSpace g = false.
Proof.
  unfold isDigit, IsSpace. intros H.
  apply andb_true_iff in H. destruct H as [H1 H2].
  apply Nat.leb_le in H1, H2.
  repeat match goal with
         | |- context [Nat.leb ?a ?b] => destruct (Nat.leb_spec a b); try lia
         | |- context [Nat.eqb ?a ?b] => destruct (Nat.eqb_spec a b); try lia
         end; reflexivity.
Qed.

Lemma digit_in_run g :
  isDigit g = true ->
  inb g [":"; "."]%char = false
  /\ inb g ["0"; "1"; "2"; "3"; "4"; "5"; "6"; "7"; "8"; "9"; "a"; "b"; "c";
            "d"; "e"; "f"]%char = true.
Proof.
  intros Hg. split.
  - unfold inb. cbn [existsb].
    rewrite !(digit_not_other g _ Hg) by reflexivity. reflexivity.
  - unfold isDigit in Hg. apply andb_true_iff in Hg. destruct Hg as [H1 H2].
    apply Nat.leb_le in H1, H2.
    assert (Hc : g = ascii_of_nat (nat_of_ascii g))
      by (symmetry; apply ascii_nat_embedding).
    remember (nat_of_ascii g) as k eqn:Ek. clear Ek.
    do 48 (destruct k as [ | k ]; [ lia | ]).
    do 10 (destruct k as [ | k ]; [ subst g; reflexivity | ]).
    lia.
Qed.

Lemma scanRun_digits ds : forall n0 a b c,
  forallb isDigit ds = true ->
  scanRun ds n0 a b c = ((n0 + length ds)%nat, a, b, c).
Proof.
  induction ds as [ | g ds IH ]; intros n0 a b c H.
  - cbn. rewrite Nat.add_0_r. reflexivity.
  - cbn [forallb] in H. apply andb_true_iff in H. destruct H as [Hg Hds].
    destruct (digit_in_run g Hg) as [E1 E2].
    cbn [scanRun]. rewrite E1, E2, (IH _ _ _ _ Hds).
    cbn [length]. rewrite Nat.add_succ_comm. reflexivity.
Qed.

Lemma Atoi_digits ds n :
  ds <> [] -> forallb isDigit ds = true -> parseDigits ds 0 = Some n ->
  Atoi ds = if n <? 2 ^ 63 then Some n else None.
Proof.
  intros Hne Hd Hn. unfold Atoi, ParseInt10.
  destruct ds as [ | g ds ]; [ congruence | ].
  cbn [forallb] in Hd. apply andb_true_iff in Hd. destruct Hd as [Hg _].
  rewrite !(digit_not_other g _ Hg) by reflexivity.
  rewrite Hn.
  pose proof (parseDigits_nonneg _ _ _ (Z.le_refl 0) Hn) as H0.
  destruct (Z.leb_spec (- 2 ^ 63) n); [ | lia ].
  reflexivity.
Qed.

Lemma Lex_digits_at_end (lib : GoLib) x yylval ws ds n :
  forallb IsSpace ws = true ->
  ds <> [] -> forallb isDigit ds = true -> parseDigits ds 0 = Some n ->
  skipn (pos x) (inp x) = ws ++ ds ->
  Lex lib x yylval
  = (set_pos x (length (inp x)),
     if n <? 2 ^ 63 then set_num yylval n else yylval,
     if n <? 2 ^ 63 then NUM else -1)
  /\ (pos x + length ws + length ds)%nat = length (inp x).
Proof.
  intros Hws Hne Hd Hn Hskip.
  assert (Hlen : (pos x + length ws + length ds)%nat = length (inp x)).
  { assert (H := f_equal (@length ascii) Hskip).
    rewrite length_skipn, length_app in H.
    destruct ds; [ congruence | ]. cbn [length] in *. lia. }
  split; [ | exact Hlen ].
  assert (Hskip' : skipn (pos x + length ws) (inp x) = ds).
  { apply skipn_app_more. exact Hskip. }
  destruct ds as [ | g ds' ] eqn:Eds; [ congruence | ]. rewrite <- Eds in *.
  assert (Hg : isDigit g = true).
  { rewrite Eds in Hd. cbn [forallb] in Hd.
    apply andb_true_iff in Hd. tauto. }
  assert (Hs : (pos x + skipSpaces (skipn (pos x) (inp x)))%nat
               = (pos x + length ws)%nat).
  { rewrite Hskip, (skipSpaces_app ws _ Hws), Eds. cbn [skipSpaces].
    rewrite (digit_not_space g Hg). lia. }
  assert (Hnokw : matchKeyword tokens
                    (skipn (pos x + skipSpaces (skipn (pos x) (inp x)))
                           (inp x)) = None).
  { rewrite Hs, Hskip', Eds. apply digit_no_keyword. exact Hg. }
  rewrite (Lex_literal lib x yylval Hnokw). rewrite Hs, Hskip'.
  assert (Hrun : literalRun ds = ds).
  { unfold literalRun, runLength. rewrite (scanRun_digits ds _ _ _ _ Hd).
    cbn [fst]. apply firstn_all. }
  pose proof (scanRun_literalRun ds) as Hflags.
  rewrite (scanRun_digits ds _ _ _ _ Hd), Hrun in Hflags.
  injection Hflags as Hip Hunit Htime.
  rewrite Hrun. unfold lexKind. rewrite <- Htime, <- Hip, <- Hunit.
  rewrite Eds at 1. rewrite (Atoi_digits ds n Hne Hd Hn).
  rewrite <- Hlen.
  destruct (n <? 2 ^ 63); reflexivity.
Qed.

(** ** Parsing [port n], [vlan n] and [mpls n] *)

Lemma newstate_lookahead_error (lib : GoLib) p x' lv' c :
  (at_ parserPact (parserstate p) <=? parserFlag) = false ->
  (char p <? 0) = true ->
  Lex lib (plex p) (lval p) = (x', lv', c) ->
  let n := at_ parserPact (parserstate p) + translate c in
  ((n <? 0) || (parserLast <=? n)) = true
  \/ (at_ parserChk (at_ parserAct n) =? translate c) = false ->
  (at_ parserDef (parserstate p) =? -2) = false ->
  (at_ parserDef (parserstate p) =? 0) = true ->
  Errflag p = 0 ->
  parsernewstate lib p = Ret 1 (Error x' SyntaxError).
Proof.
  intros H1 H2 HL n H3 H4 H5 Hf.
  unfold parsernewstate, parserdefault, lookahead, parserlex1.
  rewrite H1, H2, HL.
  cbn [plex lval char parsertoken parserS parserVAL parserstate Errflag Nerrs].
  fold n. rewrite H4, H5.
  assert (E : on_error
                {| plex := x'; lval := lv'; char := c;
                   parsertoken := translate c; parserS := parserS p;
                   parserVAL := parserVAL p; parserstate := parserstate p;
                   Errflag := Errflag p; Nerrs := Nerrs p |}
              = Ret 1 (Error x' SyntaxError))
    by (apply on_error_aborts; exact Hf).
  destruct H3 as [-> | H3]; [ exact E | ].
  rewrite H3. destruct ((n <? 0) || (parserLast <=? n)); exact E.
Qed.

Lemma fieldText_token f :
  In (fieldText f, match f with Fport => PORT | Fvlan => VLAN | Fmpls => MPLS
                   end) tokens.
Proof. destruct f; simpl; tauto. Qed.

Lemma reduce_field f x lv vn vk VAL :
  reduce {| plex := x; lval := lv; char := -1; parsertoken := -1;
            parserS := [set_yys vn (match f with
                                    | Fport => 20 | Fvlan => 21 | Fmpls => 22
                                    end);
                        set_yys vk (match f with
                                    | Fport => 5 | Fvlan => 6 | Fmpls => 7
                                    end);
                        set_yys zeroSym 0];
            parserVAL := VAL;
            parserstate := match f with
                           | Fport => 20 | Fvlan => 21 | Fmpls => 22
                           end;
            Errflag := 0; Nerrs := 0 |}
         (match f with Fport => 6 | Fvlan => 7 | Fmpls => 8 end)
  = ToStack
      (between
         (if (num vn <? 0) || (fieldBound f <=? num vn)
          then Error x (fieldError f (num vn)) else x)
         lv
         (set_query (set_yys vk (match f with
                                 | Fport => 5 | Fvlan => 6 | Fmpls => 7
                                 end))
            (match f with
             | Fport => portQuery (to_uint16 (num vn))
             | Fvlan => vlanQuery (to_uint16 (num vn))
             | Fmpls => mplsQuery (to_uint32 (num vn))
             end))
         [set_yys zeroSym 0] 3).
Proof. destruct f; reflexivity. Qed.

Lemma numeric_leaf_run (lib : GoLib) now f ds n :
  ds <> [] -> forallb isDigit ds = true -> parseDigits ds 0 = Some n ->
  n < 2 ^ 63 ->
  let input := fieldText f ++ str " " ++ ds in
  exists x q,
    run lib 6 (ToStack (initial (newLex now input)))
    = Some (Returned (0, set_out x q))
    /\ x = (if fieldBound f <=? n
            then Error (set_pos (newLex now input) (length input))
                       (fieldError f n)
            else set_pos (newLex now input) (length input))
    /\ (n < fieldBound f -> q = fieldQuery f n).
Proof.
  intros Hne Hd Hn Hsmall input.
  pose (x0 := newLex now input).
  destruct (Lex_keyword_prefix lib x0 zeroSym (fieldText f) _ (str " " ++ ds)
              (fieldText_token f) eq_refl) as [HL1 Hskip1].
  pose (x1 := set_pos x0 (pos x0 + length (fieldText f))).
  destruct (Lex_digits_at_end lib x1 zeroSym (str " ") ds n eq_refl Hne Hd Hn
              Hskip1) as [HL2 Hlen].
  apply Z.ltb_lt in Hsmall. rewrite Hsmall in HL2.
  pose proof (parseDigits_nonneg _ _ _ (Z.le_refl 0) Hn) as H0.
  set (x3 := if fieldBound f <=? n
             then Error (set_pos x0 (length input)) (fieldError f n)
             else set_pos x0 (length input)).
  assert (Hx3 : skipn (pos x3) (inp x3) = []).
  { subst x3. destruct (fieldBound f <=? n);
      rewrite ?(proj1 (Error_cursor _ _)), ?(proj2 (Error_cursor _ _));
      cbn [pos inp set_pos x0 newLex]; apply skipn_all. }
  eexists x3, _. split; [ | split; [ reflexivity | ] ].
  - change 6%nat with (S (S (S (S (2 + 0))))).
    rewrite run_ToStack; unfold parserstack.
    (erewrite newstate_shift;
      [ | reflexivity | reflexivity | exact HL1
        | destruct f; reflexivity | destruct f; reflexivity ]).
    rewrite run_ToStack; unfold parserstack.
    (erewrite newstate_shift;
      [ | destruct f; reflexivity | reflexivity | exact HL2
        | destruct f; reflexivity | destruct f; reflexivity ]).
    rewrite run_ToStack; unfold parserstack.
    (erewrite newstate_reduce;
      [ | destruct f; reflexivity | destruct f; reflexivity
        | destruct f; reflexivity ]).
    match goal with
    | |- run _ _ (reduce ?p ?k) = _ =>
        replace (reduce p k)
          with (ToStack
                  (between x3 (set_num zeroSym n)
                     (set_query
                        (set_yys zeroSym
                           (match f with
                            | Fport => 5 | Fvlan => 6 | Fmpls => 7
                            end))
                        (match f with
                         | Fport => portQuery (to_uint16 n)
                         | Fvlan => vlanQuery (to_uint16 n)
                         | Fmpls => mplsQuery (to_uint32 n)
                         end))
                     [set_yys zeroSym 0] 3))
    end.
    2: { pose proof (reduce_field f (set_pos x1 (length (inp x1)))
                         (set_num zeroSym n) (set_num zeroSym n) zeroSym
                         (set_num zeroSym n)) as R.
         cbn [num set_num] in R.
         rewrite (proj2 (Z.ltb_ge n 0) H0) in R. cbn [orb] in R.
         symmetry. destruct f; exact R. }
    clearbody x3.
    rewrite run_ToStack; unfold parserstack.
    (erewrite newstate_reduce; [ | reflexivity | reflexivity | reflexivity ]).
    match goal with
    | |- run _ _ (reduce ?p ?k) = _ =>
        change (reduce p k)
          with (ToStack
                  (between x3 (set_num zeroSym n)
                     (set_yys
                        (set_query
                           (set_yys zeroSym
                              (match f with
                               | Fport => 5 | Fvlan => 6 | Fmpls => 7
                               end))
                           (match f with
                            | Fport => portQuery (to_uint16 n)
                            | Fvlan => vlanQuery (to_uint16 n)
                            | Fmpls => mplsQuery (to_uint32 n)
                            end)) 3)
                     [set_yys zeroSym 0] 2))
    end.
    rewrite (chain_end lib x3 _ _ 0 Hx3). reflexivity.
  - intros Hin. cbn [query set_yys set_query].
    unfold to_uint16, to_uint32.
    destruct f; cbn [fieldBound fieldQuery] in *;
      rewrite Z.mod_small by lia; reflexivity.
Qed.

Lemma numeric_leaf_overflow (lib : GoLib) now f ds n :
  ds <> [] -> forallb isDigit ds = true -> parseDigits ds 0 = Some n ->
  2 ^ 63 <= n ->
  let input := fieldText f ++ str " " ++ ds in
  run lib 2 (ToStack (initial (newLex now input)))
  = Some (Returned
            (1, Error (set_pos (newLex now input) (length input))
                      SyntaxError)).
Proof.
  intros Hne Hd Hn Hbig input.
  pose (x0 := newLex now input).
  destruct (Lex_keyword_prefix lib x0 zeroSym (fieldText f) _ (str " " ++ ds)
              (fieldText_token f) eq_refl) as [HL1 Hskip1].
  pose (x1 := set_pos x0 (pos x0 + length (fieldText f))).
  destruct (Lex_digits_at_end lib x1 zeroSym (str " ") ds n eq_refl Hne Hd Hn
              Hskip1) as [HL2 Hlen].
  apply Z.ltb_ge in Hbig. rewrite Hbig in HL2.
  change 2%nat with (S (S 0)).
  rewrite run_ToStack; unfold parserstack.
  (erewrite newstate_shift;
    [ | reflexivity | reflexivity | exact HL1
      | destruct f; reflexivity | destruct f; reflexivity ]).
  rewrite run_ToStack; unfold parserstack.
  (erewrite newstate_lookahead_error;
    [ | destruct f; reflexivity | reflexivity | exact HL2
      | left; destruct f; reflexivity | destruct f; reflexivity
      | destruct f; reflexivity | reflexivity ]).
  rewrite run_Ret. reflexivity.
Qed.

(** The parse of [port n], [vlan n] or [mpls n] for a decimal literal [n]:
    below the bound of the field it is the leaf carrying [n], with no error
    and an unset envelope; from the bound up to the largest [int] it is the
    range error of the field, reported at the end of the input; beyond the
    range of [int], where [strconv.Atoi] fails, it is a syntax error. *)
Theorem numeric_leaf_parse (lib : GoLib) (now : Time) (f : numField)
  (ds : gostring) (n : Z) (fuel : nat) :
  ds <> [] -> forallb isDigit ds = true -> parseDigits ds 0 = Some n ->
  (6 <= fuel)%nat ->
  let input := fieldText f ++ str " " ++ ds in
  (n < fieldBound f ->
   parse lib fuel now input = Some (Returned (fieldQuery f n, 0, 0, None)))
  /\ (fieldBound f <= n < 2 ^ 63 ->
      parse lib fuel now input
      = Some (Returned
                (nilQuery, 0, 0, Some (errorAtEnd (fieldError f n) input))))
  /\ (2 ^ 63 <= n ->
      parse lib fuel now input
      = Some (Returned
                (nilQuery, 0, 0, Some (errorAtEnd SyntaxError input)))).
Proof.
  intros Hne Hd Hn Hfuel input.
  assert (Herr : forall m,
    err (Error (set_pos (newLex now input) (length input)) m)
    = Some (errorAtEnd m input)).
  { intros m. rewrite Error_first by reflexivity.
    cbn [pos inp set_pos newLex]. unfold errorAtEnd.
    rewrite firstn_all, skipn_all. reflexivity. }
  split; [ | split ].
  - intros Hin.
    assert (Hsmall : n < 2 ^ 63) by (destruct f; cbn in Hin; lia).
    destruct (numeric_leaf_run lib now f ds n Hne Hd Hn Hsmall)
      as (x & q & Hrun & Hx & Hq).
    unfold parse, parserParse. fold input in Hrun.
    rewrite (run_more lib _ _ _ fuel Hrun Hfuel).
    rewrite Hx, (Hq Hin).
    destruct (Z.leb_spec (fieldBound f) n); [ lia | ]. reflexivity.
  - intros [Hlo Hhi].
    destruct (numeric_leaf_run lib now f ds n Hne Hd Hn Hhi)
      as (x & q & Hrun & Hx & _).
    unfold parse, parserParse. fold input in Hrun.
    rewrite (run_more lib _ _ _ fuel Hrun Hfuel).
    rewrite Hx.
    destruct (Z.leb_spec (fieldBound f) n); [ | lia ].
    change (err (set_out ?y ?q)) with (err y).
    cbn [err set_out]. rewrite Herr. reflexivity.
  - intros Hbig.
    pose proof (numeric_leaf_overflow lib now f ds n Hne Hd Hn Hbig) as Hrun.
    unfold parse, parserParse. fold input in Hrun.
    rewrite (run_more lib _ _ _ fuel Hrun) by lia.
    rewrite Herr. reflexivity.
Qed.

Lemma numeric_leaf_parse_witness :
  parse sampleLib 6 0 (str "mpls 1048575")
  = Some (Returned (mplsQuery 1048575, 0, 0, None))
  /\ parse sampleLib 6 0 (str "vlan 65536")
     = Some (Returned
               (nilQuery, 0, 0,
                Some (errorAtEnd (InvalidVlan 65536) (str "vlan 65536"))))
  /\ parse sampleLib 6 0 (str "port 9223372036854775808")
     = Some (Returned
               (nilQuery, 0, 0,
                Some (errorAtEnd SyntaxError
                        (str "port 9223372036854775808")))).
Proof.
  split; [ | split ].
  - apply (numeric_leaf_parse sampleLib 0 Fmpls (str "1048575") 1048575 6);
      try reflexivity; try discriminate; try lia; try (simpl; lia).
  - apply (numeric_leaf_parse sampleLib 0 Fvlan (str "65536") 65536 6);
      try reflexivity; try discriminate; try lia; try (simpl; lia).
  - apply (numeric_leaf_parse sampleLib 0 Fport (str "9223372036854775808")
             9223372036854775808 6);
      try reflexivity; try discriminate; try lia; try (simpl; lia).
Defined.

(** ** Networks *)

Lemma byte_between b m :
  is_byte b -> is_byte m -> Z.land b m <= b <= Z.lor b (byte_not m).
Proof.
  intros Hb Hm.
  pose (P := fun b => forallb (fun m => (Z.land b m <=? b)
                                        && (b <=? Z.lor b (byte_not m)))
                              (map Z.of_nat (seq 0 256))).
  assert (HP : P b = true).
  { apply byte_cases; [ | exact Hb ]. vm_compute. reflexivity. }
  unfold P in HP.
  pose proof (byte_cases _ HP m Hm) as H. cbn beta in H.
  apply andb_true_iff in H. destruct H as [H1 H2].
  apply Z.leb_le in H1, H2. lia.
Qed.

Lemma maskByte_byte ones : is_byte (maskByte ones).
Proof.
  unfold maskByte, is_byte. destruct (8 <=? ones); [ lia | ].
  pose proof (Z.land_ones (Z.lnot (Z.shiftr 255 ones)) 8) as E.
  change (Z.ones 8) with 255 in E. rewrite E by lia.
  pose proof (Z.mod_pos_bound (Z.lnot (Z.shiftr 255 ones)) (2 ^ 8)).
  lia.
Qed.

Lemma maskBytes_spec l : forall ones,
  length (maskBytes l ones) = l /\ Forall is_byte (maskBytes l ones).
Proof.
  induction l as [ | l IH ]; intros ones; simpl.
  - split; [ reflexivity | constructor ].
  - destruct (IH (Z.max 0 (ones - 8))) as [H1 H2].
    split; [ congruence | ]. constructor; [ apply maskByte_byte | exact H2 ].
Qed.

Lemma CIDRMask_spec ones bits :
  (bits = 32 \/ bits = 128) ->
  (0 <= ones <= bits ->
   exists m, CIDRMask ones bits = Some m
             /\ length m = Z.to_nat (bits / 8) /\ Forall is_byte m)
  /\ (ones < 0 \/ bits < ones -> CIDRMask ones bits = None).
Proof.
  intros Hbits. unfold CIDRMask.
  assert (E : negb ((bits =? 32) || (bits =? 128)) = false).
  { destruct Hbits as [-> | ->]; reflexivity. }
  rewrite E. split.
  - intros [H1 H2].
    destruct (Z.ltb_spec ones 0); [ lia | ].
    destruct (Z.ltb_spec bits ones); [ lia | ].
    cbn [orb]. eexists. split; [ reflexivity | ].
    apply maskBytes_spec.
  - intros [H | H].
    + destruct (Z.ltb_spec ones 0); [ reflexivity | lia ].
    + destruct (Z.ltb_spec bits ones); [ | lia ].
      rewrite orb_true_r. reflexivity.
Qed.

Lemma ipsFromNet_contains a m :
  length a = length m -> (length a = 4 \/ length a = 16)%nat ->
  Forall is_byte a -> Forall is_byte m ->
  exists from to,
    ipsFromNet a m = (from, to, None)
    /\ length from = length a /\ length to = length a
    /\ forall i, (i < length a)%nat ->
         nth i from 0 <= nth i a 0 <= nth i to 0.
Proof.
  intros Hlen H416 Ha Hm. unfold ipsFromNet.
  assert (Hguard :
    negb (Nat.eqb (length a) (length m))
    || (negb (Nat.eqb (length a) 4) && negb (Nat.eqb (length a) 16))
    = false).
  { rewrite <- Hlen, Nat.eqb_refl. simpl.
    destruct H416 as [-> | ->]; reflexivity. }
  rewrite Hguard.
  pose proof (ipsFromNet_loop_length a m Hlen) as [L1 L2].
  pose proof (ipsFromNet_loop_nth a m) as Hnth.
  destruct (ipsFromNet_loop a m) as [from to]; simpl in *.
  exists from, to. repeat split; auto.
  - destruct (Hnth i Hlen H) as [-> _].
    apply byte_between;
      apply Forall_nth_byte; try assumption; congruence.
  - destruct (Hnth i Hlen H) as [_ ->].
    apply byte_between;
      apply Forall_nth_byte; try assumption; congruence.
Qed.

(** [net A/n] and [net A mask M]: for an address [A] of 4 or 16 bytes and
    [0 <= n <= 8 * len(A)], the action of [net A/n] records no error and
    builds a range of the length of [A] that holds [A] itself byte by byte;
    for any other [n] it records [bad cidr] (and keeps that error, dropping
    the one of [ipsFromNet]) and builds the empty range.  With a mask [M] of
    the length of [A] the range again holds [A]; with a mask of another
    length the action records [bad IP or mask]. *)
Theorem net_leaf_validation (vnet vip vsep vlast VAL : parserSymType)
  (S : list parserSymType) (x : parserLex) :
  err x = None ->
  let A := ip vip in
  let stack := vlast :: vsep :: vip :: vnet :: S in
  (length A = 4 \/ length A = 16)%nat -> Forall is_byte A ->
  (0 <= num vlast <= 8 * Z.of_nat (length A) ->
   exists from to,
     action 10 stack VAL x = (set_query VAL (ipQuery from to), x)
     /\ length from = length A /\ length to = length A
     /\ forall i, (i < length A)%nat ->
          nth i from 0 <= nth i A 0 <= nth i to 0)
  /\ (num vlast < 0 \/ 8 * Z.of_nat (length A) < num vlast ->
      action 10 stack VAL x
      = (set_query VAL (ipQuery [] []), Error x (BadCidr A (num vlast))))
  /\ (length (ip vlast) = length A -> Forall is_byte (ip vlast) ->
      exists from to,
        action 11 stack VAL x = (set_query VAL (ipQuery from to), x)
        /\ forall i, (i < length A)%nat ->
             nth i from 0 <= nth i A 0 <= nth i to 0)
  /\ (length (ip vlast) <> length A ->
      action 11 stack VAL x
      = (set_query VAL (ipQuery [] []),
         Error x (BadIPOrMask A (ip vlast)))).
Proof.
  intros Hx A stack H416 HA.
  assert (Hbits : Z.of_nat (length A) * 8 = 32
                  \/ Z.of_nat (length A) * 8 = 128)
    by (destruct H416 as [-> | ->]; auto).
  destruct (CIDRMask_spec (num vlast) (Z.of_nat (length A) * 8) Hbits)
    as [Hok Hbad].
  cbn [action].
  change (dollar stack 4 2) with vip. change (dollar stack 4 4) with vlast.
  fold A.
  split; [ | split; [ | split ] ].
  - intros Hn. destruct Hok as (m & -> & Hlen & Hm); [ lia | ].
    assert (Hlen' : length A = length m).
    { rewrite Hlen. destruct H416 as [-> | ->]; reflexivity. }
    destruct (ipsFromNet_contains A m Hlen' H416 HA Hm)
      as (from & to & -> & L1 & L2 & Hc).
    exists from, to. auto.
  - intros Hn. rewrite Hbad by lia.
    assert (E : ipsFromNet A [] = ([], [], Some (BadIPOrMask A []))).
    { apply (proj2 (ipsFromNet_spec A [])). left.
      destruct H416 as [-> | ->]; discriminate. }
    rewrite E.
    rewrite (Error_recorded (Error x (BadCidr A (num vlast))) _ _
               (Error_first x _ Hx)).
    reflexivity.
  - intros Hlen Hm.
    destruct (ipsFromNet_contains A (ip vlast) (eq_sym Hlen) H416 HA Hm)
      as (from & to & -> & L1 & L2 & Hc).
    exists from, to. auto.
  - intros Hlen.
    rewrite (proj2 (ipsFromNet_spec A (ip vlast))) by (left; congruence).
    reflexivity.
Qed.

Lemma net_leaf_validation_witness :
  action 10 [set_num zeroSym 44; zeroSym; set_ip zeroSym [1; 2; 3; 4]; zeroSym]
    zeroSym (newLex 0 (str "net 1.2.3.4/44"))
  = (set_query zeroSym (ipQuery [] []),
     Error (newLex 0 (str "net 1.2.3.4/44")) (BadCidr [1; 2; 3; 4] 44)).
Proof.
  apply (net_leaf_validation zeroSym (set_ip zeroSym [1; 2; 3; 4]) zeroSym
           (set_num zeroSym 44) zeroSym [] (newLex 0 (str "net 1.2.3.4/44"))).
  - reflexivity.
  - left. reflexivity.
  - repeat constructor; unfold is_byte; lia.
  - right. simpl. lia.
Defined.

(** ** Evaluation of composites *)

Section Composites.
Variable lib : GoLib.
Variable Positions : Type.
Variable IndexErr : Type.
Variables AllPositions NoPositions nilPositions : Positions.
Variables Union Intersect : Positions -> Positions -> Positions.
Variable index : IndexFile Positions IndexErr.

Let lookup (q : Query) :=
  LookupIn lib Positions IndexErr AllPositions NoPositions nilPositions
           Union Intersect q index.
Let loop :=
  lookupAll lib Positions IndexErr AllPositions NoPositions nilPositions
            Union Intersect.

Lemma LookupIn_union a :
  lookup (unionQuery a) = loop Union index a nilPositions.
Proof.
  subst lookup loop. cbn [LookupIn].
  match goal with
  | |- ?f Union a nilPositions = _ =>
      enough (H : forall acc,
                f Union a acc
                = lookupAll lib Positions IndexErr AllPositions NoPositions
                            nilPositions Union Intersect Union index a acc)
        by apply H
  end.
  induction a as [ | q a IH ]; intros acc.
  - reflexivity.
  - cbn [lookupAll].
    destruct (LookupIn lib Positions IndexErr AllPositions NoPositions
                nilPositions Union Intersect q index) as [[pos [e | ]] | ];
      try reflexivity.
    apply IH.
Qed.

Lemma LookupIn_intersect a :
  lookup (intersectQuery a) = loop Intersect index a AllPositions.
Proof.
  subst lookup loop. cbn [LookupIn].
  match goal with
  | |- ?f Intersect a AllPositions = _ =>
      enough (H : forall acc,
                f Intersect a acc
                = lookupAll lib Positions IndexErr AllPositions NoPositions
                            nilPositions Union Intersect Intersect index a acc)
        by apply H
  end.
  induction a as [ | q a IH ]; intros acc.
  - reflexivity.
  - cbn [lookupAll].
    destruct (LookupIn lib Positions IndexErr AllPositions NoPositions
                nilPositions Union Intersect q index) as [[pos [e | ]] | ];
      try reflexivity.
    apply IH.
Qed.

Lemma loop_found combine a : forall ps acc,
  Forall2 (fun q pos => lookup q = Returned (pos, None)) a ps ->
  loop combine index a acc = Returned (fold_left combine ps acc, None).
Proof.
  induction a as [ | q a IH ]; intros ps acc H; inversion H; subst.
  - reflexivity.
  - subst loop lookup. cbn [lookupAll fold_left].
    match goal with E : _ = Returned (_, None) |- _ => rewrite E end.
    apply IH. assumption.
Qed.

Lemma loop_fails combine a1 : forall ps acc q pos e a2,
  Forall2 (fun q pos => lookup q = Returned (pos, None)) a1 ps ->
  lookup q = Returned (pos, Some e) ->
  loop combine index (a1 ++ q :: a2) acc = Returned (nilPositions, Some e).
Proof.
  induction a1 as [ | q1 a1 IH ]; intros ps acc q pos e a2 H Hq;
    inversion H; subst.
  - subst loop lookup. cbn [lookupAll app]. rewrite Hq. reflexivity.
  - subst loop lookup. cbn [lookupAll app].
    match goal with E : _ = Returned (_, None) |- _ => rewrite E end.
    eapply IH; eassumption.
Qed.

(** A composite folds the position sets of its children from left to right,
    a union starting from the [nil] set and an intersection from
    [AllPositions]; and it stops at the first child that fails: the error of
    that child is returned with the [nil] set, and the children after it are
    not evaluated (whatever they are). *)
Theorem composite_lookup (a : list Query) (ps : list Positions) :
  Forall2 (fun q pos => lookup q = Returned (pos, None)) a ps ->
  (lookup (unionQuery a) = Returned (fold_left Union ps nilPositions, None)
   /\ lookup (intersectQuery a)
      = Returned (fold_left Intersect ps AllPositions, None))
  /\ forall q pos e a2,
       lookup q = Returned (pos, Some e) ->
       lookup (unionQuery (a ++ q :: a2)) = Returned (nilPositions, Some e)
       /\ lookup (intersectQuery (a ++ q :: a2))
          = Returned (nilPositions, Some e).
Proof.
  intros H. split; [ split | ].
  - rewrite LookupIn_union. apply loop_found. exact H.
  - rewrite LookupIn_intersect. apply loop_found. exact H.
  - intros q pos e a2 Hq. split.
    + rewrite LookupIn_union. eapply loop_fails; eassumption.
    + rewrite LookupIn_intersect. eapply loop_fails; eassumption.
Qed.
End Composites.

Lemma composite_lookup_witness :
  LookupIn sampleLib (list Z) unit [-1] [] [] (@app Z) (@app Z)
    (unionQuery [portQuery 80; protocolQuery 6])
    (sampleIndex "/idx/1514808000000000")
  = Returned ([0; 0], None).
Proof.
  apply (composite_lookup sampleLib (list Z) unit [-1] [] [] (@app Z) (@app Z)
           (sampleIndex "/idx/1514808000000000")
           [portQuery 80; protocolQuery 6] [[0]; [0]]).
  repeat constructor.
Defined.

(** ** The time span as an envelope *)

(** The time span of a tree depends on the tree only through its time
    leaves read from left to right: the seed is widened by one leaf after
    the other, whatever the nesting and whether the composites are unions or
    intersections. *)
Theorem GetTimeSpan_is_fold (q : Query) (startTime stopTime : Time) :
  hasNil q = false ->
  GetTimeSpan q startTime stopTime
  = Returned (fold_left widen (timeLeaves q) (startTime, stopTime)).
Proof. apply GetTimeSpan_leaves. Qed.

Lemma GetTimeSpan_is_fold_witness :
  GetTimeSpan
    (intersectQuery
       [unionQuery [timeQuery (5 * time_Minute) 0; portQuery 80];
        timeQuery 0 (9 * time_Minute)]) 0 0
  = Returned (4 * time_Minute, 10 * time_Minute).
Proof.
  apply (GetTimeSpan_is_fold
           (intersectQuery
              [unionQuery [timeQuery (5 * time_Minute) 0; portQuery 80];
               timeQuery 0 (9 * time_Minute)]) 0 0).
  reflexivity.
Defined.

Lemma widen_covers s e leaf :
  0 <= s -> 0 <= e -> usualBounds leaf ->
  0 <= fst (widen (s, e) leaf) /\ 0 <= snd (widen (s, e) leaf)
  /\ covers (widen (s, e) leaf) (s, e)
  /\ covers (widen (s, e) leaf) (withSlack leaf).
Proof.
  destruct leaf as [a0 a1]. unfold usualBounds, covers, withSlack, widen.
  unfold timeQuery_GetTimeSpan, IsZero, After, Before, Add, time_Minute.
  cbn [fst snd]. intros Hs He [H0 H1].
  destruct (Z.eqb_spec a0 0); destruct (Z.eqb_spec a1 0);
    destruct (Z.eqb_spec s 0); destruct (Z.eqb_spec e 0);
    cbn [negb orb fst snd];
    repeat match goal with
           | |- context [?u <? ?v] => destruct (Z.ltb_spec u v)
           end; cbn [fst snd]; lia.
Qed.

Lemma covers_trans w m b :
  0 <= fst m -> 0 <= snd m -> 0 <= snd b ->
  covers w m -> covers m b -> covers w b.
Proof. unfold covers. intros. split; intros; lia. Qed.

Lemma fold_widen_covers leaves : forall s e,
  0 <= s -> 0 <= e -> Forall usualBounds leaves ->
  let r := fold_left widen leaves (s, e) in
  0 <= fst r /\ 0 <= snd r /\ covers r (s, e)
  /\ Forall (fun leaf => covers r (withSlack leaf)) leaves.
Proof.
  induction leaves as [ | leaf leaves IH ]; intros s e Hs He Hall r.
  - subst r. cbn. unfold covers. cbn. repeat split; try lia. constructor.
  - inversion Hall as [ | ? ? Hleaf Hrest ]; subst.
    destruct (widen_covers s e leaf Hs He Hleaf) as (W1 & W2 & W3 & W4).
    subst r. cbn [fold_left].
    destruct (widen (s, e) leaf) as [s1 e1] eqn:Ew. cbn [fst snd] in *.
    destruct (IH s1 e1 W1 W2 Hrest) as (R1 & R2 & R3 & R4).
    split; [ exact R1 | ]. split; [ exact R2 | ].
    assert (Hb : 0 <= snd (withSlack leaf)).
    { destruct leaf as [a0 a1]. unfold withSlack, usualBounds in *.
      cbn [fst snd] in *. unfold time_Minute in *.
      destruct (a1 =? 0); lia. }
    split.
    + apply (covers_trans _ (s1, e1) (s, e) W1 W2 He R3 W3).
    + constructor; [ | exact R4 ].
      apply (covers_trans _ (s1, e1) _ W1 W2 Hb R3 W4).
Qed.

(** The time span covers its seed and every time leaf with its slack: for
    seeds that are unset or after the zero time and leaves whose set bounds
    are more than a minute after it, the start returned is at or before every
    set start (the one of the seed, and each leaf's less one minute) and the
    stop returned is at or after every set stop. *)
Theorem GetTimeSpan_covers (q : Query) (startTime stopTime : Time) :
  hasNil q = false -> 0 <= startTime -> 0 <= stopTime ->
  Forall usualBounds (timeLeaves q) ->
  exists span,
    GetTimeSpan q startTime stopTime = Returned span
    /\ covers span (startTime, stopTime)
    /\ Forall (fun leaf => covers span (withSlack leaf)) (timeLeaves q).
Proof.
  intros Hn Hs He Hall.
  exists (fold_left widen (timeLeaves q) (startTime, stopTime)).
  split; [ apply GetTimeSpan_leaves; exact Hn | ].
  destruct (fold_widen_covers (timeLeaves q) startTime stopTime Hs He Hall)
    as (_ & _ & H1 & H2).
  split; assumption.
Qed.

Lemma GetTimeSpan_covers_witness :
  exists span,
    GetTimeSpan
      (unionQuery [timeQuery (5 * time_Minute) 0;
                   timeQuery (3 * time_Minute) (9 * time_Minute)])
      (7 * time_Minute) 0 = Returned span
    /\ covers span (7 * time_Minute, 0)
    /\ Forall (fun leaf => covers span (withSlack leaf))
         (timeLeaves
            (unionQuery [timeQuery (5 * time_Minute) 0;
                         timeQuery (3 * time_Minute) (9 * time_Minute)])).
Proof.
  apply GetTimeSpan_covers.
  - reflexivity.
  - unfold time_Minute. lia.
  - lia.
  - repeat constructor; cbn; unfold time_Minute; lia.
Defined.

(** ** The time bounds of the lexer *)

(** The bounds the parser records are an envelope that does not depend on
    the order of the time leaves: for times other than the zero time,
    [HandleAfter] keeps the earliest start and [HandleBefore] the latest
    stop, two calls commute, and [HandleBetween] is [HandleAfter] followed
    by [HandleBefore]. *)
Theorem Handle_envelope (x : parserLex) (a b : Time) :
  a <> 0 -> b <> 0 ->
  startTime (HandleAfter x a)
    = (if startTime x =? 0 then a else Z.min (startTime x) a)
  /\ stopTime (HandleBefore x b)
     = (if stopTime x =? 0 then b else Z.max (stopTime x) b)
  /\ HandleAfter (HandleAfter x a) b = HandleAfter (HandleAfter x b) a
  /\ HandleBefore (HandleBefore x a) b = HandleBefore (HandleBefore x b) a
  /\ HandleBefore (HandleAfter x a) b = HandleAfter (HandleBefore x b) a
  /\ HandleBetween x a b = HandleBefore (HandleAfter x a) b.
Proof.
  intros Ha Hb. destruct x as [now inp pos out err s e].
  unfold HandleBetween, HandleAfter, HandleBefore, IsZero, After, Before.
  cbn [startTime stopTime set_startTime set_stopTime].
  repeat split;
    repeat match goal with
           | |- context [?u =? 0] =>
               is_var u; destruct (Z.eqb_spec u 0)
           | |- context [?u <? ?v] =>
               is_var u; is_var v; destruct (Z.ltb_spec u v)
           | _ => progress cbn [orb startTime stopTime set_startTime
                                set_stopTime]
           end;
    try lia; try reflexivity; try (f_equal; lia).
Qed.

Lemma Handle_envelope_witness :
  startTime (HandleAfter (HandleAfter (newLex 0 (str "")) 9) 5) = 5
  /\ HandleAfter (HandleAfter (newLex 0 (str "")) 9) 5
     = HandleAfter (HandleAfter (newLex 0 (str "")) 5) 9.
Proof.
  split.
  - rewrite (proj1 (Handle_envelope (HandleAfter (newLex 0 (str "")) 9) 5 5
                      ltac:(lia) ltac:(lia))).
    reflexivity.
  - apply (Handle_envelope (newLex 0 (str "")) 9 5); lia.
Defined.

(** ** The address of an IP token *)

Lemma keyword_not_IP t i : In (t, i) tokens -> i <> IPtok.
Proof.
  apply (keyword_cases (fun _ i => i <> IPtok)).
  repeat (constructor; [ discriminate | ]). constructor.
Qed.

Lemma To4_sixteen (i : IP) :
  length i = 16%nat -> Forall is_byte i ->
  match To4 i with
  | Some ip4 => length ip4 = 4%nat /\ i = v4InV6Prefix ++ ip4
                /\ Forall is_byte ip4
  | None => forall ip4, i <> v4InV6Prefix ++ ip4
  end.
Proof.
  intros Hlen Hb.
  do 16 (destruct i as [ | ? i ]; [ discriminate Hlen | ]).
  destruct i; [ clear Hlen | discriminate Hlen ].
  unfold To4, v4InV6Prefix.
  repeat match goal with
         | |- context [match ?u with _ => _ end] =>
             is_var u; destruct u;
             try (intros ip4 E; cbn [app] in E; congruence)
         end.
  split; [ reflexivity | ]. split; [ reflexivity | ].
  do 12 (apply Forall_inv_tail in Hb). exact Hb.
Qed.

(** An IP token always carries a usable address.  With a [net.ParseIP] that
    gives 16 bytes, as Go's does, a call of [Lex] that returns the token [IP]
    records no error and leaves in the [ip] field either the last four bytes
    of an IPv4 address (the first twelve of the 16 were the IPv4-in-IPv6
    prefix) or all 16 bytes of an address that has not that prefix; the
    address is the one [net.ParseIP] gives for the literal run at the
    cursor. *)
Theorem Lex_ip_token (lib : GoLib) (x x' : parserLex)
  (yylval v : parserSymType) (c : Z) :
  sixteenBytes lib ->
  Lex lib x yylval = (x', v, c) -> c = IPtok ->
  err x' = err x /\ Forall is_byte (ip v)
  /\ exists i,
       net_ParseIP lib
         (literalRun
            (skipn (pos x + skipSpaces (skipn (pos x) (inp x))) (inp x)))
       = Some i
       /\ ((length (ip v) = 4%nat /\ i = v4InV6Prefix ++ ip v)
           \/ (length (ip v) = 16%nat /\ ip v = i
               /\ forall ip4, i <> v4InV6Prefix ++ ip4)).
Proof.
  intros Hlib H. lex_cases H; cbn [ip set_time set_ip set_dur set_num err];
    try discriminate.
  all: intros Ec.
  - apply matchKeyword_In in Ekw. destruct Ekw as [Hin _].
    destruct (keyword_not_IP _ _ Hin Ec).
  - match goal with
    | Hp : net_ParseIP lib _ = Some ?i, Ht : To4 ?i = Some _ |- _ =>
        destruct (Hlib _ _ Hp) as [Hlen Hb];
        pose proof (To4_sixteen i Hlen Hb) as H4; rewrite Ht in H4;
        destruct H4 as (L4 & E4 & B4)
    end.
    split; [ reflexivity | ]. split; [ exact B4 | ].
    eexists. split; [ reflexivity | ]. left. split; assumption.
  - match goal with
    | Hp : net_ParseIP lib _ = Some ?i, Ht : To4 ?i = None |- _ =>
        destruct (Hlib _ _ Hp) as [Hlen Hb];
        pose proof (To4_sixteen i Hlen Hb) as H4; rewrite Ht in H4
    end.
    split; [ reflexivity | ]. split; [ exact Hb | ].
    eexists. split; [ reflexivity | ]. right.
    split; [ exact Hlen | ]. split; [ reflexivity | exact H4 ].
  - exfalso. unfold IPtok in Ec.
    assert (Z.of_nat (nat_of_ascii a) < 256).
    { pose proof (nat_ascii_bounded a). lia. }
    lia.
Qed.

Lemma sampleLib_sixteenBytes : sixteenBytes sampleLib.
Proof.
  intros s i. unfold sampleLib, net_ParseIP, assoc.
  repeat match goal with
         | |- context [list_eq_dec ?d ?u ?v] => destruct (list_eq_dec d u v)
         end; intros E; try discriminate E; injection E as <-;
    (split; [ reflexivity | ]);
    repeat (constructor; [ unfold is_byte; lia | ]); constructor.
Qed.

Lemma Lex_ip_token_witness :
  exists x' v,
    Lex sampleLib (newLex 0 (str "1.2.3.4")) zeroSym = (x', v, IPtok)
    /\ ip v = [1; 2; 3; 4].
Proof.
  eexists. eexists. split; [ vm_compute; reflexivity | ].
  destruct (Lex_ip_token sampleLib (newLex 0 (str "1.2.3.4"))
              (fst (fst (Lex sampleLib (newLex 0 (str "1.2.3.4")) zeroSym)))
              zeroSym
              (snd (fst (Lex sampleLib (newLex 0 (str "1.2.3.4")) zeroSym)))
              IPtok sampleLib_sixteenBytes eq_refl eq_refl)
    as (_ & _ & i & Hi & H).
  vm_compute in Hi. injection Hi as <-.
  destruct H as [ [_ H] | [H _] ].
  - cbn [app v4InV6Prefix] in H. vm_compute in H |- *. congruence.
  - discriminate H.
Defined.

(** ** Tokens in front of the cursor *)

Lemma ahead_adv x g t rest :
  ahead x = g ++ t ++ rest -> ahead (adv x g t) = rest.
Proof.
  unfold ahead, adv. cbn [pos inp set_pos]. intros H.
  apply skipn_app_more. apply skipn_app_more. exact H.
Qed.

Lemma ahead_Error x m : ahead (Error x m) = ahead x.
Proof.
  unfold ahead. destruct (Error_cursor x m) as [-> ->]. reflexivity.
Qed.

Lemma Lex_token_keyword (lib : GoLib) x lv g t i rest :
  spaces g -> In (t, i) tokens -> ahead x = g ++ t ++ rest ->
  Lex lib x lv = (adv x g t, lv, i).
Proof.
  intros Hg Hin H.
  exact (proj1 (Lex_spaces_keyword lib x lv g t i rest Hg Hin H)).
Qed.

Lemma space_stops_run c rest :
  IsSpace c = true ->
  scanRun (c :: rest) O false false false = (O, false, false, false).
Proof.
  intros H. cbn [scanRun].
  destruct c as [[] [] [] [] [] [] [] []]; try discriminate H; reflexivity.
Qed.

Lemma run_head_not_space c part rest :
  literalRun ((c :: part) ++ rest) = c :: part -> IsSpace c = false.
Proof.
  intros H. destruct (IsSpace c) eqn:E; [ exfalso | reflexivity ].
  unfold literalRun, runLength in H. cbn [app] in H.
  rewrite (space_stops_run c _ E) in H. discriminate H.
Qed.

Lemma ahead_inside x n rest :
  ahead x = rest -> (n <= length rest)%nat ->
  skipn (pos x + n) (inp x) = skipn n rest.
Proof.
  unfold ahead. intros H Hn. rewrite <- H, skipn_skipn.
  f_equal. lia.
Qed.

(** [Lex] on a literal: the token and the value follow the kind of the
    literal. *)
Lemma Lex_token_literal (lib : GoLib) x lv g k part rest :
  spaces g -> literalAt k part rest -> k <> KNone ->
  ahead x = g ++ part ++ rest ->
  Lex lib x lv
  = match k with
    | KTime =>
        match time_Parse_RFC3339 lib part with
        | Some t => (adv x g part, set_time lv t, TIME)
        | None => (Error (adv x g part) (BadTime part), set_time lv 0, TIME)
        end
    | KIP =>
        match net_ParseIP lib part with
        | None => (Error (adv x g part) (BadIP part), set_ip lv [], -1)
        | Some i =>
            match To4 i with
            | Some ip4 => (adv x g part, set_ip lv ip4, IPtok)
            | None => (adv x g part, set_ip lv i, IPtok)
            end
        end
    | KDuration =>
        match time_ParseDuration lib part with
        | Some d => (adv x g part, set_dur lv d, DURATION)
        | None =>
            (Error (adv x g part) (BadDuration part), set_dur lv 0, DURATION)
        end
    | KInteger =>
        match Atoi part with
        | None => (adv x g part, lv, -1)
        | Some n => (adv x g part, set_num lv n, NUM)
        end
    | KNone => (x, lv, 0)
    end.
Proof.
  intros Hg (Hkw & Hrun & Hkind) Hk H.
  assert (Hne : part <> []).
  { intros ->. subst k. apply Hk. reflexivity. }
  destruct part as [ | c part ]; [ congruence | ].
  pose proof (run_head_not_space c part rest Hrun) as Hc.
  assert (Hs : (pos x + skipSpaces (skipn (pos x) (inp x)))%nat
               = (pos x + length g)%nat).
  { unfold ahead in H. rewrite H, (skipSpaces_app g _ Hg).
    cbn [app skipSpaces]. rewrite Hc. lia. }
  assert (Hskip : skipn (pos x + length g) (inp x) = (c :: part) ++ rest)
    by (apply skipn_app_more; exact H).
  assert (Hnokw : matchKeyword tokens
                    (skipn (pos x + skipSpaces (skipn (pos x) (inp x)))
                           (inp x)) = None)
    by (rewrite Hs, Hskip; exact Hkw).
  rewrite (Lex_literal lib x lv Hnokw). rewrite Hs, Hskip, Hrun, Hkind.
  unfold adv. destruct k; try reflexivity. congruence.
Qed.

Lemma punct_no_keyword c rest :
  inb c ["("; ")"; "/"]%char = true -> matchKeyword tokens (c :: rest) = None.
Proof.
  intros H. apply startsNoToken_keyword.
  unfold inb in H. cbn [existsb] in H.
  repeat (apply orb_prop in H; destruct H as [H | H]);
    try discriminate H; apply Ascii.eqb_eq in H; subst c; reflexivity.
Qed.

(** [Lex] on one of the bytes that are tokens of their own. *)
Lemma Lex_token_char (lib : GoLib) x lv g c rest :
  spaces g -> inb c ["("; ")"; "/"]%char = true ->
  ahead x = g ++ [c] ++ rest ->
  Lex lib x lv = (adv x g [c], lv, charCode c).
Proof.
  intros Hg Hc H. cbn [app] in H.
  assert (Hsp : IsSpace c = false).
  { unfold inb in Hc. cbn [existsb] in Hc.
    repeat (apply orb_prop in Hc; destruct Hc as [Hc | Hc]);
      try discriminate Hc; apply Ascii.eqb_eq in Hc; subst c; reflexivity. }
  assert (Hs : (pos x + skipSpaces (skipn (pos x) (inp x)))%nat
               = (pos x + length g)%nat).
  { unfold ahead in H. rewrite H, (skipSpaces_app g _ Hg).
    cbn [skipSpaces]. rewrite Hsp. lia. }
  assert (Hskip : skipn (pos x + length g) (inp x) = c :: rest)
    by (apply skipn_app_more; exact H).
  assert (Hnokw : matchKeyword tokens
                    (skipn (pos x + skipSpaces (skipn (pos x) (inp x)))
                           (inp x)) = None)
    by (rewrite Hs, Hskip; apply punct_no_keyword; exact Hc).
  rewrite (Lex_literal lib x lv Hnokw). rewrite Hs, Hskip.
  assert (Hrun : literalRun (c :: rest) = []).
  { unfold literalRun, runLength. cbn [scanRun].
    unfold inb in Hc. cbn [existsb] in Hc.
    repeat (apply orb_prop in Hc; destruct Hc as [Hc | Hc]);
      try discriminate Hc; apply Ascii.eqb_eq in Hc; subst c; reflexivity. }
  rewrite Hrun.
  cbn [lexKind hasTimeChar hasIPChar endsWithUnit existsb length].
  assert (Hlt : (pos x + length g < length (inp x))%nat).
  { destruct (Nat.lt_ge_cases (pos x + length g) (length (inp x)))
      as [L | L]; [ exact L | ].
    rewrite (skipn_all2 _ L) in Hskip. discriminate. }
  apply Nat.leb_gt in Hlt. rewrite Hlt.
  assert (Hnth : nth_error (inp x) (pos x + length g) = Some c).
  { rewrite <- (firstn_skipn (pos x + length g) (inp x)) at 1.
    apply Nat.leb_gt in Hlt.
    rewrite nth_error_app2; rewrite length_firstn; [ | lia ].
    replace (pos x + length g
             - Nat.min (pos x + length g) (length (inp x)))%nat
      with O by lia.
    rewrite Hskip. reflexivity. }
  rewrite Hnth.
  assert (Hp : inb c [":"; "."; "("; ")"; "/"]%char = true).
  { unfold inb in *. cbn [existsb] in *.
    repeat (apply orb_prop in Hc; destruct Hc as [Hc | Hc]);
      try discriminate Hc; rewrite Hc; rewrite ?orb_true_r; reflexivity. }
  rewrite Hp. unfold adv, charCode. cbn [length].
  rewrite Nat.add_1_r. reflexivity.
Qed.

(** ** Jumps of [Parse] between two tokens *)

Lemma reaches_refl (lib : GoLib) c : reaches lib c c.
Proof. exists O. reflexivity. Qed.

Lemma reaches_trans (lib : GoLib) c1 c2 c3 :
  reaches lib c1 c2 -> reaches lib c2 c3 -> reaches lib c1 c3.
Proof.
  intros [k1 H1] [k2 H2]. exists (k1 + k2)%nat. intros fuel.
  rewrite <- Nat.add_assoc, H1, H2. reflexivity.
Qed.

Lemma reaches_one (lib : GoLib) p c :
  parserstack lib p = c -> reaches lib (ToStack p) c.
Proof. intros <-. exists 1%nat. intros fuel. reflexivity. Qed.

Lemma reaches_result (lib : GoLib) c c' r :
  reaches lib c c' -> (exists k, run lib k c' = Some r) ->
  exists k, run lib k c = Some r.
Proof.
  intros [k1 H1] [k2 H2]. exists (k1 + k2)%nat. rewrite H1. exact H2.
Qed.

(** The token that [Lex] gives is shifted. *)
Lemma shift_token (lib : GoLib) x lv VAL S state x' lv' c state' :
  Lex lib x lv = (x', lv', c) -> shiftTo state c = Some state' ->
  reaches lib (ToStack (between x lv VAL S state))
              (ToStack (between x' lv' lv' (set_yys VAL state :: S) state')).
Proof.
  intros HL Hs. apply reaches_one.
  unfold shiftTo in Hs.
  destruct (at_ parserPact state <=? parserFlag) eqn:E1; [ discriminate | ].
  destruct ((at_ parserPact state + translate c <? 0)
            || (parserLast <=? at_ parserPact state + translate c)) eqn:E2;
    [ discriminate | ].
  destruct (at_ parserChk (at_ parserAct (at_ parserPact state + translate c))
            =? translate c) eqn:E3; [ | discriminate ].
  injection Hs as <-.
  unfold parserstack.
  erewrite newstate_shift;
    [ reflexivity | exact E1 | reflexivity | exact HL | exact E2 | exact E3 ].
Qed.

(** A state whose only action is a reduction reduces. *)
Lemma reduce_now (lib : GoLib) x lv VAL S state n :
  reduces state = Some n ->
  reaches lib (ToStack (between x lv VAL S state))
              (reduce (between x lv VAL (set_yys VAL state :: S) state) n).
Proof.
  intros Hr. apply reaches_one. unfold reduces in Hr.
  destruct (at_ parserPact state <=? parserFlag) eqn:E1; [ | discriminate ].
  destruct ((at_ parserDef state =? -2) || (at_ parserDef state =? 0)) eqn:E2;
    [ discriminate | ].
  injection Hr as <-. apply orb_false_iff in E2. destruct E2 as [E2 E3].
  unfold parserstack.
  erewrite newstate_reduce; [ reflexivity | exact E1 | exact E2 | exact E3 ].
Qed.

(** ** The reductions, production by production *)

Section Reductions.
Variables (x : parserLex) (lv VAL : parserSymType) (S : list parserSymType).
Variable state : Z.

Lemma reduce_host c v2 v1 v0 :
  reduce (between x lv VAL (v2 :: v1 :: set_yys v0 (operandState c) :: S)
                  state) 5
  = ToStack (between x lv (set_query v1 (ipQuery (ip v2) (ip v2)))
                     (set_yys v0 (operandState c) :: S) (operandGoto c)).
Proof. destruct c as [ [ | ] | | ]; reflexivity. Qed.

Lemma reduce_numField f c vn vk v0 :
  reduce (between x lv VAL (vn :: vk :: set_yys v0 (operandState c) :: S)
                  state)
         (match f with Fport => 6 | Fvlan => 7 | Fmpls => 8 end)
  = ToStack
      (between (checkRange x (num vn) (fieldBound f) (fieldError f (num vn)))
               lv
               (set_query vk
                  (match f with
                   | Fport => portQuery (to_uint16 (num vn))
                   | Fvlan => vlanQuery (to_uint16 (num vn))
                   | Fmpls => mplsQuery (to_uint32 (num vn))
                   end))
               (set_yys v0 (operandState c) :: S) (operandGoto c)).
Proof. destruct f, c as [ [ | ] | | ]; reflexivity. Qed.

Lemma reduce_proto c vn vp vi v0 :
  reduce (between x lv VAL
                  (vn :: vp :: vi :: set_yys v0 (operandState c) :: S)
                  state) 9
  = ToStack
      (between (checkRange x (num vn) 256 (InvalidProto (num vn))) lv
               (set_query vi (protocolQuery (to_byte (num vn))))
               (set_yys v0 (operandState c) :: S) (operandGoto c)).
Proof. destruct c as [ [ | ] | | ]; reflexivity. Qed.

Lemma reduce_cidr c vn vs va vk v0 :
  reduce (between x lv VAL
                  (vn :: vs :: va :: vk :: set_yys v0 (operandState c) :: S)
                  state) 10
  = let mask := CIDRMask (num vn) (Z.of_nat (length (ip va)) * 8) in
    let m := match mask with Some m => m | None => [] end in
    ToStack
      (between (checkNet (match mask with
                          | None => Error x (BadCidr (ip va) (num vn))
                          | Some _ => x
                          end) (snd (ipsFromNet (ip va) m)))
               lv
               (set_query vk (let '(from, to, _) := ipsFromNet (ip va) m in
                              ipQuery from to))
               (set_yys v0 (operandState c) :: S) (operandGoto c)).
Proof.
  cbv zeta.
  destruct c as [ [ | ] | | ]; unfold reduce; cbn [parserS between];
    unfold action;
    change (dollar ?s 4 2) with va; change (dollar ?s 4 4) with vn;
    destruct (ipsFromNet (ip va) _) as [ [from to] e ]; reflexivity.
Qed.

Lemma reduce_mask c vm vs va vk v0 :
  reduce (between x lv VAL
                  (vm :: vs :: va :: vk :: set_yys v0 (operandState c) :: S)
                  state) 11
  = ToStack
      (between (checkNet x (snd (ipsFromNet (ip va) (ip vm)))) lv
               (set_query vk (let '(from, to, _) :=
                                ipsFromNet (ip va) (ip vm) in
                              ipQuery from to))
               (set_yys v0 (operandState c) :: S) (operandGoto c)).
Proof.
  destruct c as [ [ | ] | | ]; unfold reduce; cbn [parserS between];
    unfold action;
    change (dollar ?s 4 2) with va; change (dollar ?s 4 4) with vm;
    destruct (ipsFromNet (ip va) _) as [ [from to] e ]; reflexivity.
Qed.

Lemma reduce_paren c v3 v2 v1 v0 :
  reduce (between x lv VAL
                  (v3 :: v2 :: v1 :: set_yys v0 (operandState c) :: S)
                  state) 12
  = ToStack
      (between x lv
               {| yys := yys v1; num := num v1; ip := ip v1;
                  query := query v2; dur := dur v1; time := time v1 |}
               (set_yys v0 (operandState c) :: S) (operandGoto c)).
Proof. destruct c as [ [ | ] | | ]; reflexivity. Qed.

Lemma reduce_word l c v1 v0 :
  reduce (between x lv VAL (v1 :: set_yys v0 (operandState c) :: S) state)
         (match l with Wtcp => 13 | Wudp => 14 | Wicmp => 15 end)
  = ToStack (between x lv (set_query v1 (leafQuery l))
                     (set_yys v0 (operandState c) :: S) (operandGoto c)).
Proof. destruct l, c as [ [ | ] | | ]; reflexivity. Qed.

Lemma reduce_before c vt vk v0 :
  reduce (between x lv VAL (vt :: vk :: set_yys v0 (operandState c) :: S)
                  state) 16
  = ToStack (between (HandleBefore x (time vt)) lv
                     (set_query vk (timeQuery 0 (time vt)))
                     (set_yys v0 (operandState c) :: S) (operandGoto c)).
Proof. destruct c as [ [ | ] | | ]; reflexivity. Qed.

Lemma reduce_after c vt vk v0 :
  reduce (between x lv VAL (vt :: vk :: set_yys v0 (operandState c) :: S)
                  state) 17
  = ToStack (between (HandleAfter x (time vt)) lv
                     (set_query vk (timeQuery (time vt) 0))
                     (set_yys v0 (operandState c) :: S) (operandGoto c)).
Proof. destruct c as [ [ | ] | | ]; reflexivity. Qed.

Lemma reduce_between c vt2 va vt1 vk v0 :
  reduce (between x lv VAL
                  (vt2 :: va :: vt1 :: vk :: set_yys v0 (operandState c) :: S)
                  state) 18
  = ToStack
      (between (HandleBetween
                  (if After (time vt1) (time vt2)
                   then Error x (BadBetween (time vt1) (time vt2)) else x)
                  (time vt1) (time vt2)) lv
               (set_query vk (timeQuery (time vt1) (time vt2)))
               (set_yys v0 (operandState c) :: S) (operandGoto c)).
Proof. destruct c as [ [ | ] | | ]; reflexivity. Qed.

Lemma reduce_stamp c v1 v0 :
  reduce (between x lv VAL (v1 :: set_yys v0 (timeState c) :: S) state) 19
  = ToStack (between x lv (set_time v1 (time v1))
                     (set_yys v0 (timeState c) :: S) (timeGoto c)).
Proof. destruct c; reflexivity. Qed.

Lemma reduce_ago c v2 v1 v0 :
  reduce (between x lv VAL (v2 :: v1 :: set_yys v0 (timeState c) :: S)
                  state) 20
  = ToStack (between x lv (set_time v1 (Add (now x) (- dur v1)))
                     (set_yys v0 (timeState c) :: S) (timeGoto c)).
Proof. destruct c; reflexivity. Qed.

Lemma reduce_one c v1 v0 :
  reduce (between x lv VAL (v1 :: set_yys v0 (chainState c) :: S) state) 2
  = ToStack (between x lv v1 (set_yys v0 (chainState c) :: S)
                     (chainGoto c)).
Proof. destruct c; reflexivity. Qed.

Lemma reduce_bin w c v3 v2 v1 v0 :
  reduce (between x lv VAL
                  (v3 :: v2 :: v1 :: set_yys v0 (chainState c) :: S) state)
         (match w with Wand | Wampersands => 3 | Wor | Wbars => 4 end)
  = ToStack (between x lv (set_query v1 (opQuery w (query v1) (query v3)))
                     (set_yys v0 (chainState c) :: S) (chainGoto c)).
Proof. destruct w, c; reflexivity. Qed.
End Reductions.

(** ** Reading a time *)

Lemma now_adv x g t : now (adv x g t) = now x.
Proof. reflexivity. Qed.

Lemma now_newLex t input : now (newLex t input) = t.
Proof. reflexivity. Qed.

Lemma now_Error x m : now (Error x m) = now x.
Proof. unfold Error. destruct (err x); reflexivity. Qed.

Lemma reaches_reduce (lib : GoLib) x lv VAL S state n c' :
  reduces state = Some n ->
  reduce (between x lv VAL (set_yys VAL state :: S) state) n = c' ->
  reaches lib (ToStack (between x lv VAL S state)) c'.
Proof. intros Hr <-. apply reduce_now. exact Hr. Qed.

Lemma time_reaches (lib : GoLib) c t x follow lv VAL S :
  wellSpacedT t follow -> ahead x = textT t ++ follow ->
  exists lv' VAL',
    reaches lib (ToStack (between x lv VAL S (timeState c)))
                (ToStack (between (readT lib t x) lv' VAL'
                            (set_yys VAL (timeState c) :: S) (timeGoto c)))
    /\ time VAL' = timeValue lib (now x) t
    /\ ahead (readT lib t x) = follow
    /\ now (readT lib t x) = now x.
Proof.
  destruct t as [g part | g part g2]; cbn [wellSpacedT textT readT timeValue].
  - intros [Hg Hlit] H. rewrite <- app_assoc in H.
    pose proof (Lex_token_literal lib x lv g KTime part follow Hg Hlit
                  ltac:(discriminate) H) as HL.
    pose proof (ahead_adv x g part follow H) as Ha.
    cbv beta iota in HL.
    destruct (time_Parse_RFC3339 lib part) as [v | ].
    + eexists _, _. split; [ | split; [ | split; [ exact Ha | reflexivity ] ] ].
      * eapply reaches_trans.
        { eapply shift_token with (state' := 27); [ exact HL | destruct c; reflexivity ]. }
        eapply reaches_reduce; [ reflexivity | apply reduce_stamp ].
      * reflexivity.
    + eexists _, _.
      split; [ | split; [ | split; [ | rewrite now_Error; reflexivity ] ] ].
      * eapply reaches_trans.
        { eapply shift_token with (state' := 27); [ exact HL | destruct c; reflexivity ]. }
        eapply reaches_reduce; [ reflexivity | apply reduce_stamp ].
      * reflexivity.
      * rewrite ahead_Error. exact Ha.
  - intros (Hg & Hg2 & Hlit) H. rewrite <- !app_assoc in H.
    pose proof (Lex_token_literal lib x lv g KDuration part _ Hg Hlit
                  ltac:(discriminate) H) as HL.
    pose proof (ahead_adv x g part _ H) as Ha.
    cbv beta iota in HL.
    assert (Hago : In (str "ago", AGO) tokens) by (cbn; tauto).
    destruct (time_ParseDuration lib part) as [d | ].
    + pose proof (Lex_token_keyword lib _ (set_dur lv d) g2 _ _ follow
                    Hg2 Hago Ha) as HL2.
      eexists _, _.
      split; [ | split; [ | split; [ | reflexivity ] ] ].
      * eapply reaches_trans.
        { eapply shift_token with (state' := 28); [ exact HL | destruct c; reflexivity ]. }
        eapply reaches_trans.
        { eapply shift_token with (state' := 37); [ exact HL2 | reflexivity ]. }
        eapply reaches_reduce; [ reflexivity | apply reduce_ago ].
      * reflexivity.
      * apply ahead_adv. exact Ha.
    + rewrite <- (ahead_Error _ (BadDuration part)) in Ha.
      pose proof (Lex_token_keyword lib _ (set_dur lv 0) g2 _ _ follow
                    Hg2 Hago Ha) as HL2.
      eexists _, _.
      split; [ | split; [ | split ] ].
      * eapply reaches_trans.
        { eapply shift_token with (state' := 28); [ exact HL | destruct c; reflexivity ]. }
        eapply reaches_trans.
        { eapply shift_token with (state' := 37); [ exact HL2 | reflexivity ]. }
        eapply reaches_reduce; [ reflexivity | apply reduce_ago ].
      * cbn [time set_time dur set_dur set_yys]. unfold adv.
        cbn [now set_pos]. rewrite now_Error. reflexivity.
      * apply ahead_adv. exact Ha.
      * unfold adv. cbn [now set_pos]. rewrite now_Error. reflexivity.
Qed.

(** ** Reading an operand, reading a chain *)

Lemma Lex_address (lib : GoLib) x lv g a rest :
  spaces g -> addressAt lib a rest -> ahead x = g ++ a ++ rest ->
  Lex lib x lv = (adv x g a, set_ip lv (ipValue lib a), IPtok).
Proof.
  intros Hg [Hlit Hok] H.
  rewrite (Lex_token_literal lib x lv g KIP a rest Hg Hlit
             ltac:(discriminate) H).
  unfold ipValue. destruct (net_ParseIP lib a) as [i | ]; [ | congruence ].
  destruct (To4 i); reflexivity.
Qed.

Lemma Lex_integer (lib : GoLib) x lv g ds rest :
  spaces g -> integerAt ds rest -> ahead x = g ++ ds ++ rest ->
  Lex lib x lv = (adv x g ds, set_num lv (numValue ds), NUM).
Proof.
  intros Hg [Hlit Hok] H.
  rewrite (Lex_token_literal lib x lv g KInteger ds rest Hg Hlit
             ltac:(discriminate) H).
  unfold numValue. destruct (Atoi ds); [ reflexivity | congruence ].
Qed.

Lemma frame_checkRange x n bound m :
  ahead (checkRange x n bound m) = ahead x
  /\ now (checkRange x n bound m) = now x.
Proof.
  unfold checkRange. destruct ((n <? 0) || (bound <=? n));
    [ split; [ apply ahead_Error | apply now_Error ] | split; reflexivity ].
Qed.

Lemma frame_checkNet x e :
  ahead (checkNet x e) = ahead x /\ now (checkNet x e) = now x.
Proof.
  destruct e; cbn [checkNet];
    [ split; [ apply ahead_Error | apply now_Error ] | split; reflexivity ].
Qed.

Lemma frame_Handle x t u :
  (ahead (HandleBefore x t) = ahead x /\ now (HandleBefore x t) = now x)
  /\ (ahead (HandleAfter x t) = ahead x /\ now (HandleAfter x t) = now x)
  /\ (ahead (HandleBetween x t u) = ahead x
      /\ now (HandleBetween x t u) = now x).
Proof.
  unfold ahead, HandleBefore, HandleAfter, HandleBetween.
  repeat split;
    repeat match goal with
           | |- context [if ?b then _ else _] => destruct b
           end; reflexivity.
Qed.

Ltac by_cases :=
  repeat match goal with
         | c : operandPlace |- _ => destruct c as [ [ | ] | | ]
         | c : chainPlace |- _ => destruct c
         | c : timePlace |- _ => destruct c
         | f : numField |- _ => destruct f
         | l : leafWord |- _ => destruct l
         | w : opWord |- _ => destruct w
         end;
  reflexivity.

Ltac shift_with HL s :=
  eapply reaches_trans;
  [ eapply shift_token with (state' := s); [ exact HL | by_cases ] | ].

Ltac reduce_with prod R :=
  eapply reaches_reduce with (n := prod);
  [ by_cases | rewrite R; reflexivity ].

Ltac token_in := cbn; tauto.

Lemma read_host (lib : GoLib) g1 g2 a : operand_read lib (Thost g1 g2 a).
Proof.
  intros c x follow lv VAL S (Hg1 & Hg2 & Ha) H.
  cbn [text1] in H. rewrite <- !app_assoc in H.
  pose proof (Lex_token_keyword lib x lv g1 (str "host") HOST _ Hg1
                ltac:(token_in) H) as L1.
  pose proof (ahead_adv _ _ _ _ H) as H1.
  pose proof (Lex_address lib _ lv g2 a follow Hg2 Ha H1) as L2.
  pose proof (ahead_adv _ _ _ _ H1) as H2.
  eexists _, _. split; [ | split; [ | split; [ exact H2 | reflexivity ] ] ].
  - shift_with L1 4. shift_with L2 19.
    reduce_with 5 reduce_host.
  - reflexivity.
Qed.

Lemma read_field (lib : GoLib) f g1 g2 ds :
  operand_read lib (Tfield f g1 g2 ds).
Proof.
  intros c x follow lv VAL S (Hg1 & Hg2 & Hn) H.
  cbn [text1] in H. rewrite <- !app_assoc in H.
  pose proof (Lex_token_keyword lib x lv g1 _ _ _ Hg1
                (fieldText_token f) H) as L1.
  pose proof (ahead_adv _ _ _ _ H) as H1.
  pose proof (Lex_integer lib _ lv g2 ds follow Hg2 Hn H1) as L2.
  pose proof (ahead_adv _ _ _ _ H1) as H2.
  cbn [read1 tree1].
  destruct (frame_checkRange (adv (adv x g1 (fieldText f)) g2 ds)
              (numValue ds) (fieldBound f) (fieldError f (numValue ds)))
    as [Fa Fn].
  eexists _, _. split; [ | split; [ | split ] ].
  - shift_with L1 (match f with Fport => 5 | Fvlan => 6 | Fmpls => 7 end).
    shift_with L2 (match f with Fport => 20 | Fvlan => 21 | Fmpls => 22 end).
    reduce_with (match f with Fport => 6 | Fvlan => 7 | Fmpls => 8 end)
                reduce_numField.
  - destruct f; reflexivity.
  - rewrite Fa. exact H2.
  - rewrite Fn. reflexivity.
Qed.

Lemma read_proto (lib : GoLib) g1 g2 g3 ds :
  operand_read lib (Tproto g1 g2 g3 ds).
Proof.
  intros c x follow lv VAL S (Hg1 & Hg2 & Hg3 & Hn) H.
  cbn [text1] in H. rewrite <- !app_assoc in H.
  pose proof (Lex_token_keyword lib x lv g1 (str "ip") IPP _ Hg1
                ltac:(token_in) H) as L1.
  pose proof (ahead_adv _ _ _ _ H) as H1.
  pose proof (Lex_token_keyword lib _ lv g2 (str "proto") PROTO _ Hg2
                ltac:(token_in) H1) as L2.
  pose proof (ahead_adv _ _ _ _ H1) as H2.
  pose proof (Lex_integer lib _ lv g3 ds follow Hg3 Hn H2) as L3.
  pose proof (ahead_adv _ _ _ _ H2) as H3.
  cbn [read1 tree1].
  match goal with
  | |- context [checkRange ?y ?n ?b ?m] =>
      destruct (frame_checkRange y n b m) as [Fa Fn]
  end.
  eexists _, _. split; [ | split; [ | split ] ].
  - shift_with L1 8. shift_with L2 23. shift_with L3 33.
    reduce_with 9 reduce_proto.
  - reflexivity.
  - rewrite Fa. exact H3.
  - rewrite Fn. reflexivity.
Qed.

Lemma read_cidr (lib : GoLib) g1 g2 a g3 g4 ds :
  operand_read lib (Tcidr g1 g2 a g3 g4 ds).
Proof.
  intros c x follow lv VAL S (Hg1 & Hg2 & Hg3 & Hg4 & Ha & Hn) H.
  cbn [text1] in H. rewrite <- !app_assoc in H.
  pose proof (Lex_token_keyword lib x lv g1 (str "net") NET _ Hg1
                ltac:(token_in) H) as L1.
  pose proof (ahead_adv _ _ _ _ H) as H1.
  pose proof (Lex_address lib _ lv g2 a _ Hg2 Ha H1) as L2.
  pose proof (ahead_adv _ _ _ _ H1) as H2.
  pose proof (Lex_token_char lib _ (set_ip lv (ipValue lib a)) g3 "/"%char _
                Hg3 eq_refl H2) as L3.
  pose proof (ahead_adv _ _ _ _ H2) as H3.
  pose proof (Lex_integer lib _ (set_ip lv (ipValue lib a)) g4 ds follow
                Hg4 Hn H3) as L4.
  pose proof (ahead_adv _ _ _ _ H3) as H4.
  cbn [read1 tree1]. cbv zeta.
  match goal with
  | |- context [checkNet ?y ?e] =>
      destruct (frame_checkNet y e) as [Fa Fn]
  end.
  eexists _, _. split; [ | split; [ | split ] ].
  - shift_with L1 9. shift_with L2 24. shift_with L3 34. shift_with L4 39.
    reduce_with 10 reduce_cidr.
  - reflexivity.
  - rewrite Fa.
    destruct (CIDRMask _ _); [ | rewrite ahead_Error ]; exact H4.
  - rewrite Fn.
    destruct (CIDRMask _ _); [ | rewrite now_Error ]; reflexivity.
Qed.

Lemma read_mask (lib : GoLib) g1 g2 a g3 g4 m :
  operand_read lib (Tmask g1 g2 a g3 g4 m).
Proof.
  intros c x follow lv VAL S (Hg1 & Hg2 & Hg3 & Hg4 & Ha & Hm) H.
  cbn [text1] in H. rewrite <- !app_assoc in H.
  pose proof (Lex_token_keyword lib x lv g1 (str "net") NET _ Hg1
                ltac:(token_in) H) as L1.
  pose proof (ahead_adv _ _ _ _ H) as H1.
  pose proof (Lex_address lib _ lv g2 a _ Hg2 Ha H1) as L2.
  pose proof (ahead_adv _ _ _ _ H1) as H2.
  pose proof (Lex_token_keyword lib _ (set_ip lv (ipValue lib a)) g3
                (str "mask") MASK _ Hg3 ltac:(token_in) H2) as L3.
  pose proof (ahead_adv _ _ _ _ H2) as H3.
  pose proof (Lex_address lib _ (set_ip lv (ipValue lib a)) g4 m follow
                Hg4 Hm H3) as L4.
  pose proof (ahead_adv _ _ _ _ H3) as H4.
  cbn [read1 tree1].
  match goal with
  | |- context [checkNet ?y ?e] =>
      destruct (frame_checkNet y e) as [Fa Fn]
  end.
  eexists _, _. split; [ | split; [ | split ] ].
  - shift_with L1 9. shift_with L2 24. shift_with L3 35. shift_with L4 40.
    reduce_with 11 reduce_mask.
  - reflexivity.
  - rewrite Fa. exact H4.
  - rewrite Fn. reflexivity.
Qed.

Lemma read_word (lib : GoLib) g l : operand_read lib (Tword g l).
Proof.
  intros c x follow lv VAL S Hg H.
  cbn [text1] in H. rewrite <- !app_assoc in H.
  pose proof (Lex_token_keyword lib x lv g _ _ _ Hg (leafWord_token l) H)
    as L1.
  pose proof (ahead_adv _ _ _ _ H) as H1.
  eexists _, _. split; [ | split; [ | split; [ exact H1 | reflexivity ] ] ].
  - shift_with L1 (match l with Wtcp => 11 | Wudp => 12 | Wicmp => 13 end).
    reduce_with (match l with Wtcp => 13 | Wudp => 14 | Wicmp => 15 end)
                reduce_word.
  - reflexivity.
Qed.

Lemma read_before (lib : GoLib) g t : operand_read lib (Tbefore g t).
Proof.
  intros c x follow lv VAL S (Hg & Ht) H.
  cbn [text1] in H. rewrite <- !app_assoc in H.
  pose proof (Lex_token_keyword lib x lv g (str "before") BEFORE _ Hg
                ltac:(token_in) H) as L1.
  pose proof (ahead_adv _ _ _ _ H) as H1.
  destruct (time_reaches lib OfBefore t _ follow lv lv
              (set_yys VAL (operandState c) :: S) Ht H1)
    as (lv' & VAL' & R & Tv & Ta & Tn).
  cbn [now adv set_pos] in Tv, Tn.
  cbn [read1 tree1]. rewrite <- Tv.
  destruct (frame_Handle (readT lib t (adv x g (str "before"))) (time VAL') 0)
    as ((Fa & Fn) & _).
  eexists _, _. split; [ | split; [ | split ] ].
  - shift_with L1 14.
    eapply reaches_trans; [ exact R | ].
    reduce_with 16 reduce_before.
  - reflexivity.
  - rewrite Fa. exact Ta.
  - rewrite Fn. exact Tn.
Qed.

Lemma read_after (lib : GoLib) g t : operand_read lib (Tafter g t).
Proof.
  intros c x follow lv VAL S (Hg & Ht) H.
  cbn [text1] in H. rewrite <- !app_assoc in H.
  pose proof (Lex_token_keyword lib x lv g (str "after") AFTER _ Hg
                ltac:(token_in) H) as L1.
  pose proof (ahead_adv _ _ _ _ H) as H1.
  destruct (time_reaches lib OfAfter t _ follow lv lv
              (set_yys VAL (operandState c) :: S) Ht H1)
    as (lv' & VAL' & R & Tv & Ta & Tn).
  cbn [now adv set_pos] in Tv, Tn.
  cbn [read1 tree1]. rewrite <- Tv.
  destruct (frame_Handle (readT lib t (adv x g (str "after"))) (time VAL') 0)
    as (_ & (Fa & Fn) & _).
  eexists _, _. split; [ | split; [ | split ] ].
  - shift_with L1 15.
    eapply reaches_trans; [ exact R | ].
    reduce_with 17 reduce_after.
  - reflexivity.
  - rewrite Fa. exact Ta.
  - rewrite Fn. exact Tn.
Qed.

Lemma read_between (lib : GoLib) g1 t1 g2 t2 :
  operand_read lib (Tbetween g1 t1 g2 t2).
Proof.
  intros c x follow lv VAL S (Hg1 & Hg2 & Ht1 & Ht2) H.
  cbn [text1] in H. rewrite <- !app_assoc in H.
  pose proof (Lex_token_keyword lib x lv g1 (str "between") BETWEEN _ Hg1
                ltac:(token_in) H) as L1.
  pose proof (ahead_adv _ _ _ _ H) as H1.
  destruct (time_reaches lib OfBetween t1 _ _ lv lv
              (set_yys VAL (operandState c) :: S) Ht1 H1)
    as (lv1 & VAL1 & R1 & Tv1 & Ta1 & Tn1).
  pose proof (Lex_token_keyword lib _ lv1 g2 (str "and") AND _ Hg2
                ltac:(token_in) Ta1) as L2.
  pose proof (ahead_adv _ _ _ _ Ta1) as H2.
  destruct (time_reaches lib OfBetweenAnd t2 _ follow lv1 lv1
              (set_yys VAL1 30 :: set_yys lv 16
               :: set_yys VAL (operandState c) :: S) Ht2 H2)
    as (lv2 & VAL2 & R2 & Tv2 & Ta2 & Tn2).
  cbn [now adv set_pos] in Tv1, Tn1, Tv2, Tn2. rewrite Tn1 in Tv2, Tn2.
  cbn [read1 tree1]. cbv zeta. rewrite <- Tv1, <- Tv2.
  set (x2 := readT lib t2 (adv (readT lib t1 (adv x g1 (str "between")))
                               g2 (str "and"))) in *.
  destruct (frame_Handle (if After (time VAL1) (time VAL2)
                          then Error x2 (BadBetween (time VAL1) (time VAL2))
                          else x2) (time VAL1) (time VAL2))
    as (_ & _ & (Fa & Fn)).
  eexists _, _. split; [ | split; [ | split ] ].
  - shift_with L1 16.
    eapply reaches_trans; [ exact R1 | ].
    shift_with L2 38.
    eapply reaches_trans; [ exact R2 | ].
    reduce_with 18 reduce_between.
  - reflexivity.
  - rewrite Fa.
    destruct (After _ _); [ rewrite ahead_Error | ]; exact Ta2.
  - rewrite Fn.
    destruct (After _ _); [ rewrite now_Error | ]; exact Tn2.
Qed.

Lemma read_paren (lib : GoLib) g1 q g2 :
  chain_read lib q -> operand_read lib (Tparen g1 q g2).
Proof.
  intros IH c x follow lv VAL S (Hg1 & Hg2 & Hq) H.
  cbn [text1] in H. rewrite <- !app_assoc in H.
  pose proof (Lex_token_char lib x lv g1 "("%char _ Hg1 eq_refl H) as L1.
  pose proof (ahead_adv _ _ _ _ H) as H1.
  destruct (IH InParen _ _ lv lv (set_yys VAL (operandState c) :: S) Hq H1)
    as (lv1 & VAL1 & R & Tq & Ta & Tn).
  pose proof (Lex_token_char lib _ lv1 g2 ")"%char _ Hg2 eq_refl Ta) as L2.
  pose proof (ahead_adv _ _ _ _ Ta) as H2.
  cbn [now adv set_pos] in Tq, Tn.
  cbn [read1 tree1]. rewrite <- Tq.
  eexists _, _. split; [ | split; [ | split; [ exact H2 | exact Tn ] ] ].
  - shift_with L1 10.
    eapply reaches_trans; [ exact R | ].
    shift_with L2 36.
    reduce_with 12 reduce_paren.
  - reflexivity.
Qed.

Lemma read_one (lib : GoLib) o :
  operand_read lib o -> chain_read lib (Tone o).
Proof.
  intros IH c x follow lv VAL S Ho H.
  destruct (IH (First c) x follow lv VAL S Ho H)
    as (lv1 & VAL1 & R & Tq & Ta & Tn).
  cbn [operandState operandGoto] in R.
  cbn [readQ treeQ]. rewrite <- Tq.
  eexists _, _. split; [ | split; [ | split; [ exact Ta | exact Tn ] ] ].
  - eapply reaches_trans; [ exact R | ].
    reduce_with 2 reduce_one.
  - reflexivity.
Qed.

Lemma read_bin (lib : GoLib) q g w o :
  chain_read lib q -> operand_read lib o -> chain_read lib (Tbin q g w o).
Proof.
  intros IHq IHo c x follow lv VAL S (Hq & Hg & Ho) H.
  cbn [textQ] in H. rewrite <- !app_assoc in H.
  destruct (IHq c x _ lv VAL S Hq H) as (lv1 & VAL1 & R1 & Tq1 & Ta1 & Tn1).
  pose proof (Lex_token_keyword lib _ lv1 g _ _ _ Hg (opWord_token w) Ta1)
    as L.
  pose proof (ahead_adv _ _ _ _ Ta1) as H2.
  destruct (IHo (opPlace w) _ follow lv1 lv1
              (set_yys VAL1 (chainGoto c) :: set_yys VAL (chainState c) :: S)
              Ho H2)
    as (lv2 & VAL2 & R2 & Tq2 & Ta2 & Tn2).
  cbn [now adv set_pos] in Tq2, Tn2. rewrite Tn1 in Tq2, Tn2.
  cbn [readQ treeQ]. rewrite <- Tq1, <- Tq2.
  eexists _, _. split; [ | split; [ | split; [ exact Ta2 | exact Tn2 ] ] ].
  - eapply reaches_trans; [ exact R1 | ].
    shift_with L (operandState (opPlace w)).
    eapply reaches_trans; [ exact R2 | ].
    reduce_with (match w with Wand | Wampersands => 3 | Wor | Wbars => 4 end)
                reduce_bin.
  - reflexivity.
Qed.

Lemma read_all (lib : GoLib) :
  (forall o, operand_read lib o) /\ (forall q, chain_read lib q).
Proof.
  assert (H1 : forall o, operand_read lib o).
  { apply (query1Text_mut (operand_read lib) (chain_read lib)).
    - apply read_host.
    - apply read_field.
    - apply read_proto.
    - apply read_cidr.
    - apply read_mask.
    - intros g1 q IH g2. apply read_paren. exact IH.
    - apply read_word.
    - apply read_before.
    - apply read_after.
    - apply read_between.
    - intros o IH. apply read_one. exact IH.
    - intros q IHq g w o IHo. apply read_bin; assumption. }
  split; [ exact H1 | ].
  apply (queryText_mut (operand_read lib) (chain_read lib));
    try (intros; apply H1).
  - intros o IH. apply read_one. exact IH.
  - intros q IHq g w o IHo. apply read_bin; assumption.
Qed.

(** ** From the text to the result of [parse] *)

Lemma Lex_trailing (lib : GoLib) x lv ws :
  spaces ws -> ahead x = ws ->
  Lex lib x lv = (set_pos x (pos x + length ws + 0), lv, 0).
Proof.
  intros Hws H. unfold ahead in H.
  assert (Hs : (pos x + skipSpaces (skipn (pos x) (inp x)))%nat
               = (pos x + length ws)%nat).
  { rewrite H. rewrite <- (app_nil_r ws) at 1.
    rewrite (skipSpaces_app ws [] Hws). cbn [skipSpaces]. lia. }
  assert (Hskip : skipn (pos x + length ws) (inp x) = []).
  { apply skipn_app_more. rewrite app_nil_r. exact H. }
  assert (Hkw : matchKeyword tokens
                  (skipn (pos x + skipSpaces (skipn (pos x) (inp x))) (inp x))
                = None).
  { rewrite Hs, Hskip. reflexivity. }
  rewrite (Lex_literal lib x lv Hkw). rewrite Hs, Hskip.
  cbn [literalRun runLength scanRun fst firstn lexKind hasTimeChar hasIPChar
       endsWithUnit existsb length].
  apply skipn_nil_length in Hskip. apply Nat.leb_le in Hskip. rewrite Hskip.
  reflexivity.
Qed.

(** At the end of the input the chain read at the start is the result. *)
Lemma chain_end_token (lib : GoLib) x lv VAL x' fuel :
  Lex lib x lv = (x', lv, 0) ->
  run lib (2 + fuel) (ToStack (between x lv VAL [set_yys zeroSym 0] 2))
  = Some (Returned (0, set_out x' (query VAL))).
Proof.
  intros HL.
  change (2 + fuel)%nat with (S (S fuel)).
  rewrite run_ToStack; unfold parserstack.
  erewrite newstate_lookahead_reduce;
    [ | reflexivity | reflexivity | exact HL | right; reflexivity
      | reflexivity | reflexivity ].
  clear HL. norm_control.
  rewrite run_ToStack.
  norm_control.
  rewrite run_Ret. reflexivity.
Qed.

Lemma run_agree (lib : GoLib) c k k' r r' :
  run lib k c = Some r -> run lib k' c = Some r' -> r = r'.
Proof.
  intros H H'.
  pose proof (run_more lib k c r (Nat.max k k') H (Nat.le_max_l _ _)) as E.
  pose proof (run_more lib k' c r' (Nat.max k k') H' (Nat.le_max_r _ _)) as E'.
  congruence.
Qed.

Lemma parse_read (lib : GoLib) (now : Time) q trailing fuel :
  wellSpacedQ lib q trailing -> spaces trailing ->
  (5 * length (textQ q ++ trailing) < fuel)%nat ->
  parse lib fuel now (textQ q ++ trailing)
  = Some (Returned (parsed (readQ lib q (newLex now (textQ q ++ trailing)))
                           (treeQ lib now q))).
Proof.
  intros Hq Hws Hfuel.
  set (input := textQ q ++ trailing) in *.
  destruct (proj2 (read_all lib) q AtStart (newLex now input) trailing
              zeroSym zeroSym [] Hq eq_refl)
    as (lv' & VAL' & [k R] & Tq & Ta & Tn).
  pose proof (Lex_trailing lib _ lv' trailing Hws Ta) as HL.
  pose proof (chain_end_token lib _ lv' VAL' _ O HL) as Hend.
  cbn [chainState chainGoto] in R.
  assert (Hrun : run lib (k + 2) (ToStack (initial (newLex now input)))
                 = Some (Returned
                           (0, set_out
                                 (set_pos (readQ lib q (newLex now input))
                                    (pos (readQ lib q (newLex now input))
                                     + length trailing + 0))
                                 (query VAL')))).
  { rewrite <- Hend. apply (R 2%nat). }
  destruct (run_terminates lib fuel (initial (newLex now input))
              (initial_steady (newLex now input) eq_refl)) as (r & x & Hr).
  { unfold potential, remaining, initial, rank. cbn. fold input. lia. }
  pose proof (run_agree lib _ _ _ _ _ Hrun Hr) as E.
  injection E as <- <-.
  unfold parse, parserParse. fold input. rewrite Hr.
  unfold parsed. cbn [err set_out set_pos out startTime stopTime].
  rewrite Tq, now_newLex.
  destruct (err (readQ lib q (newLex now input))); reflexivity.
Qed.

(** ** Chains without parentheses *)

Lemma leftNested_text rest : forall q,
  textQ (leftNested q rest) = textQ q ++ restText rest.
Proof.
  induction rest as [ | [ [g w] o ] rest IH ]; intros q.
  - cbn. rewrite app_nil_r. reflexivity.
  - cbn [leftNested fold_left]. fold (leftNested (Tbin q g w o) rest).
    rewrite IH. cbn [textQ restText flat_map].
    rewrite <- !app_assoc. reflexivity.
Qed.

Lemma leftNested_tree (lib : GoLib) now rest : forall q,
  treeQ lib now (leftNested q rest) = foldTree lib now (treeQ lib now q) rest.
Proof.
  induction rest as [ | [ [g w] o ] rest IH ]; intros q; [ reflexivity | ].
  cbn [leftNested fold_left]. fold (leftNested (Tbin q g w o) rest).
  rewrite IH. reflexivity.
Qed.

Lemma leftNested_read (lib : GoLib) rest : forall q x,
  readQ lib (leftNested q rest) x = readRest lib rest (readQ lib q x).
Proof.
  induction rest as [ | [ [g w] o ] rest IH ]; intros q x; [ reflexivity | ].
  cbn [leftNested fold_left]. fold (leftNested (Tbin q g w o) rest).
  rewrite IH. reflexivity.
Qed.

Lemma leftNested_wellSpaced (lib : GoLib) rest : forall q follow,
  wellSpacedQ lib q (restText rest ++ follow) ->
  wellSpacedRest lib rest follow ->
  wellSpacedQ lib (leftNested q rest) follow.
Proof.
  induction rest as [ | [ [g w] o ] rest IH ]; intros q follow Hq Hrest.
  - exact Hq.
  - cbn [leftNested fold_left]. fold (leftNested (Tbin q g w o) rest).
    destruct Hrest as (Hg & Ho & Hrest).
    apply IH; [ | exact Hrest ].
    cbn [wellSpacedQ]. split; [ | split; [ exact Hg | exact Ho ] ].
    cbn [restText flat_map] in Hq. rewrite <- !app_assoc in Hq.
    exact Hq.
Qed.

Lemma chain_parse (lib : GoLib) (now : Time) first rest trailing fuel :
  wellSpacedChain lib first rest trailing -> spaces trailing ->
  (5 * length (flatText first rest ++ trailing) < fuel)%nat ->
  parse lib fuel now (flatText first rest ++ trailing)
  = Some (Returned
            (parsed (readRest lib rest
                       (read1 lib first
                          (newLex now (flatText first rest ++ trailing))))
                    (foldTree lib now (tree1 lib now first) rest))).
Proof.
  intros [Hfirst Hrest] Hws Hfuel.
  pose proof (leftNested_wellSpaced lib rest (Tone first) trailing Hfirst
                Hrest) as Hq.
  pose proof (parse_read lib now (leftNested (Tone first) rest) trailing fuel
                Hq Hws) as H.
  rewrite leftNested_text, leftNested_tree, leftNested_read in H.
  apply H. exact Hfuel.
Qed.

(** C1. [and]/[&&] and [or]/[||] have one precedence and associate to the
    left.  Take any operands (a leaf of any kind, with its literals, or a
    query in parentheses), join them by any mix of the four operator words
    with any white space between the tokens, and put no parentheses around
    the whole: [parse] reads the text to the end, and what it returns is the
    first error recorded on the way, if there is one, and else the left fold
    of the operands' trees.  In particular [a and b or c and d] yields
    And(Or(And(a, b), c), d), which is not the grouping
    Or(And(a, b), And(c, d)). *)
Theorem and_or_left_fold (lib : GoLib) (now : Time) :
  (forall first rest trailing fuel,
     wellSpacedChain lib first rest trailing -> spaces trailing ->
     let input := flatText first rest ++ trailing in
     (5 * length input < fuel)%nat ->
     parse lib fuel now input
     = Some (Returned
               (parsed (readRest lib rest (read1 lib first (newLex now input)))
                       (foldTree lib now (tree1 lib now first) rest))))
  /\ (forall a b c d g1 g2 g3 trailing fuel,
        wellSpacedChain lib a [(g1, Wand, b); (g2, Wor, c); (g3, Wand, d)]
                        trailing ->
        spaces trailing ->
        let input := text1 a ++ g1 ++ str "and" ++ text1 b ++ g2 ++ str "or"
                     ++ text1 c ++ g3 ++ str "and" ++ text1 d ++ trailing in
        let A := tree1 lib now a in
        let B := tree1 lib now b in
        let C := tree1 lib now c in
        let D := tree1 lib now d in
        (5 * length input < fuel)%nat ->
        parse lib fuel now input
        = Some (Returned
                  (parsed
                     (read1 lib d
                        (adv (read1 lib c
                                (adv (read1 lib b
                                        (adv (read1 lib a (newLex now input))
                                             g1 (str "and")))
                                     g2 (str "or")))
                             g3 (str "and")))
                     (intersectQuery
                        [unionQuery [intersectQuery [A; B]; C]; D])))
        /\ intersectQuery [unionQuery [intersectQuery [A; B]; C]; D]
           <> unionQuery [intersectQuery [A; B]; intersectQuery [C; D]]).
Proof.
  split.
  - intros first rest trailing fuel Hc Hws input Hfuel.
    apply chain_parse; assumption.
  - intros a b c d g1 g2 g3 trailing fuel Hc Hws input A B C D Hfuel.
    split; [ | discriminate ].
    pose proof (chain_parse lib now a
                  [(g1, Wand, b); (g2, Wor, c); (g3, Wand, d)] trailing fuel
                  Hc Hws) as H.
    unfold flatText in H. cbn [restText flat_map opText] in H.
    rewrite app_nil_r in H. rewrite <- !app_assoc in H.
    apply H. exact Hfuel.
Qed.

Lemma and_or_left_fold_witness :
  parse sampleLib 300 0
        (str "host 1.2.3.4 && port 80 || (tcp or udp)  and after 3h ago ")
  = Some (Returned
            (intersectQuery
               [unionQuery
                  [intersectQuery
                     [ipQuery [1; 2; 3; 4] [1; 2; 3; 4]; portQuery 80];
                   unionQuery [protocolQuery 6; protocolQuery 17]];
                timeQuery (-180 * time_Minute) 0],
             -180 * time_Minute, 0, None)).
Proof.
  apply (proj1 (and_or_left_fold sampleLib 0)
           (Thost [] (str " ") (str "1.2.3.4"))
           [(str " ", Wampersands, Tfield Fport (str " ") (str " ") (str "80"));
            (str " ", Wbars,
             Tparen (str " ")
               (Tbin (Tone (Tword [] Wtcp)) (str " ") Wor
                     (Tword (str " ") Wudp)) []);
            (str "  ", Wand, Tafter (str " ") (Ago (str " ") (str "3h")
                                                  (str " ")))]
           (str " ") 300%nat).
  - vm_compute. repeat split; discriminate.
  - reflexivity.
  - vm_compute. lia.
Defined.

(** ** Decimal literals *)

Lemma space_stops_scan c rest n a b t :
  IsSpace c = true -> scanRun (c :: rest) n a b t = (n, a, b, t).
Proof.
  intros H. cbn [scanRun].
  destruct c as [[] [] [] [] [] [] [] []]; try discriminate H; reflexivity.
Qed.

Lemma spaces_stop_scan ws n a b t :
  spaces ws -> scanRun ws n a b t = (n, a, b, t).
Proof.
  destruct ws as [ | c ws ]; [ reflexivity | ].
  intros H. unfold spaces in H. cbn [forallb] in H.
  apply andb_true_iff in H. apply space_stops_scan. tauto.
Qed.

Lemma scanRun_digits_app ds tail : forall n a b t,
  forallb isDigit ds = true ->
  scanRun (ds ++ tail) n a b t = scanRun tail (n + length ds)%nat a b t.
Proof.
  induction ds as [ | g ds IH ]; intros n a b t H.
  - cbn. rewrite Nat.add_0_r. reflexivity.
  - cbn [forallb] in H. apply andb_true_iff in H. destruct H as [Hg Hds].
    destruct (digit_in_run g Hg) as [E1 E2].
    cbn [app scanRun]. rewrite E1, E2, (IH _ _ _ _ Hds).
    cbn [length]. rewrite Nat.add_succ_comm. reflexivity.
Qed.

Lemma digits_kind ds :
  ds <> [] -> forallb isDigit ds = true -> lexKind ds = KInteger.
Proof.
  intros Hne Hd.
  assert (Hrun : literalRun ds = ds).
  { unfold literalRun, runLength. rewrite (scanRun_digits ds _ _ _ _ Hd).
    cbn [fst]. apply firstn_all. }
  pose proof (scanRun_literalRun ds) as Hflags.
  rewrite (scanRun_digits ds _ _ _ _ Hd), Hrun in Hflags.
  injection Hflags as Hip Hunit Htime.
  unfold lexKind. rewrite <- Htime, <- Hip, <- Hunit.
  destruct ds; [ congruence | reflexivity ].
Qed.

Lemma digits_literalAt ds trailing :
  ds <> [] -> forallb isDigit ds = true -> spaces trailing ->
  literalAt KInteger ds trailing.
Proof.
  intros Hne Hd Hws.
  split; [ | split; [ | apply digits_kind; assumption ] ].
  - destruct ds as [ | g ds ]; [ congruence | ].
    cbn [forallb] in Hd. apply andb_true_iff in Hd.
    apply digit_no_keyword. tauto.
  - unfold literalRun, runLength.
    rewrite (scanRun_digits_app ds trailing _ _ _ _ Hd).
    rewrite (spaces_stop_scan trailing _ _ _ _ Hws). cbn [fst].
    apply firstn_app_exact.
Qed.

(** A decimal literal within the range of [int], followed by white space or
    by the end of the input, is an integer token carrying its value. *)
Lemma digits_integerAt ds n trailing :
  ds <> [] -> forallb isDigit ds = true -> parseDigits ds 0 = Some n ->
  n < 2 ^ 63 -> spaces trailing ->
  integerAt ds trailing /\ numValue ds = n.
Proof.
  intros Hne Hd Hn Hsmall Hws.
  pose proof (Atoi_digits ds n Hne Hd Hn) as HA.
  apply Z.ltb_lt in Hsmall. rewrite Hsmall in HA.
  split; [ | unfold numValue; rewrite HA; reflexivity ].
  split; [ apply digits_literalAt; assumption | rewrite HA; discriminate ].
Qed.

(** ** The error at the end of a text *)

Lemma Error_errorAt x m before after :
  err x = None -> inp x = before ++ after -> pos x = length before ->
  err (Error x m) = Some (errorAt m before after).
Proof.
  intros He Hi Hp. rewrite (Error_first x m He). unfold errorAt.
  rewrite Hi, Hp, firstn_app_exact.
  rewrite skipn_app, skipn_all, Nat.sub_diag. reflexivity.
Qed.

(** ** The numeric leaves, from the text *)

Lemma parsed_checkRange x n bound m before after q :
  err x = None -> inp x = before ++ after -> pos x = length before ->
  startTime x = 0 -> stopTime x = 0 -> 0 <= n ->
  parsed (checkRange x n bound m) q
  = if bound <=? n then (nilQuery, 0, 0, Some (errorAt m before after))
    else (q, 0, 0, None).
Proof.
  intros He Hi Hp Hs Ht Hn. unfold parsed, checkRange.
  destruct (Z.ltb_spec n 0); [ lia | ]. cbn [orb].
  destruct (bound <=? n).
  - rewrite (Error_errorAt x m before after He Hi Hp). reflexivity.
  - rewrite He, Hs, Ht. reflexivity.
Qed.

Lemma numeric_field_parse (lib : GoLib) (now : Time) f g1 g2 ds trailing n
  fuel :
  spaces g1 -> spaces g2 -> spaces trailing ->
  ds <> [] -> forallb isDigit ds = true -> parseDigits ds 0 = Some n ->
  n < 2 ^ 63 ->
  let before := g1 ++ fieldText f ++ g2 ++ ds in
  (5 * length (before ++ trailing) < fuel)%nat ->
  parse lib fuel now (before ++ trailing)
  = Some (Returned
            (if fieldBound f <=? n
             then (nilQuery, 0, 0,
                   Some (errorAt (fieldError f n) before trailing))
             else (fieldQuery f n, 0, 0, None))).
Proof.
  intros Hg1 Hg2 Hws Hne Hd Hn Hsmall before Hfuel.
  destruct (digits_integerAt ds n trailing Hne Hd Hn Hsmall Hws) as [Hi Hv].
  pose proof (parseDigits_nonneg _ _ _ (Z.le_refl 0) Hn) as H0.
  pose proof (parse_read lib now (Tone (Tfield f g1 g2 ds)) trailing fuel)
    as H.
  cbn [textQ text1 wellSpacedQ wellSpaced1 readQ read1 treeQ tree1] in H.
  fold before in H. rewrite Hv in H.
  rewrite H; [ | repeat (split; [ assumption | ]); exact Hi | exact Hws
             | exact Hfuel ].
  f_equal. f_equal.
  erewrite parsed_checkRange with (before := before) (after := trailing);
    [ | reflexivity | reflexivity | | reflexivity | reflexivity | exact H0 ].
  - destruct (Z.leb_spec (fieldBound f) n) as [Hb | Hb]; [ reflexivity | ].
    f_equal. f_equal. f_equal.
    unfold to_uint16, to_uint32.
    destruct f; cbn [fieldBound fieldQuery] in *;
      rewrite Z.mod_small by lia; reflexivity.
  - subst before. cbn [pos adv set_pos newLex].
    rewrite !length_app. lia.
Qed.

Lemma proto_parse (lib : GoLib) (now : Time) g1 g2 g3 ds trailing n fuel :
  spaces g1 -> spaces g2 -> spaces g3 -> spaces trailing ->
  ds <> [] -> forallb isDigit ds = true -> parseDigits ds 0 = Some n ->
  n < 2 ^ 63 ->
  let before := g1 ++ str "ip" ++ g2 ++ str "proto" ++ g3 ++ ds in
  (5 * length (before ++ trailing) < fuel)%nat ->
  parse lib fuel now (before ++ trailing)
  = Some (Returned
            (if 256 <=? n
             then (nilQuery, 0, 0,
                   Some (errorAt (InvalidProto n) before trailing))
             else (protocolQuery n, 0, 0, None))).
Proof.
  intros Hg1 Hg2 Hg3 Hws Hne Hd Hn Hsmall before Hfuel.
  destruct (digits_integerAt ds n trailing Hne Hd Hn Hsmall Hws) as [Hi Hv].
  pose proof (parseDigits_nonneg _ _ _ (Z.le_refl 0) Hn) as H0.
  pose proof (parse_read lib now (Tone (Tproto g1 g2 g3 ds)) trailing fuel)
    as H.
  cbn [textQ text1 wellSpacedQ wellSpaced1 readQ read1 treeQ tree1] in H.
  fold before in H. rewrite Hv in H.
  rewrite H; [ | repeat (split; [ assumption | ]); exact Hi | exact Hws
             | exact Hfuel ].
  f_equal. f_equal.
  erewrite parsed_checkRange with (before := before) (after := trailing);
    [ | reflexivity | reflexivity | | reflexivity | reflexivity | exact H0 ].
  - destruct (Z.leb_spec 256 n) as [Hb | Hb]; [ reflexivity | ].
    f_equal. f_equal. f_equal. f_equal.
    unfold to_byte. rewrite Z.mod_small by lia. reflexivity.
  - subst before. cbn [pos adv set_pos newLex].
    rewrite !length_app. lia.
Qed.

(** ** A token that the state does not take *)

Lemma refuse_token (lib : GoLib) x lv VAL S state x' lv' c fuel :
  Lex lib x lv = (x', lv', c) -> shiftTo state c = None ->
  (at_ parserPact state <=? parserFlag) = false ->
  at_ parserDef state = 0 ->
  run lib (1 + fuel) (ToStack (between x lv VAL S state))
  = Some (Returned (1, Error x' SyntaxError)).
Proof.
  intros HL Hs E1 Hd. unfold shiftTo in Hs. rewrite E1 in Hs.
  change (1 + fuel)%nat with (Datatypes.S fuel).
  rewrite run_ToStack. unfold parserstack.
  erewrite newstate_lookahead_error;
    [ apply run_Ret | exact E1 | reflexivity | exact HL | | | | reflexivity ].
  - cbn [parserstate between].
    destruct ((at_ parserPact state + translate c <? 0)
              || (parserLast <=? at_ parserPact state + translate c));
      [ left; reflexivity | right ].
    destruct (at_ parserChk
                (at_ parserAct (at_ parserPact state + translate c))
              =? translate c); [ discriminate | reflexivity ].
  - cbn [parserstate between]. rewrite Hd. reflexivity.
  - cbn [parserstate between]. rewrite Hd. reflexivity.
Qed.

Lemma parse_result (lib : GoLib) (now : Time) input fuel r x :
  (exists k, run lib k (ToStack (initial (newLex now input)))
             = Some (Returned (r, x))) ->
  (5 * length input < fuel)%nat ->
  parse lib fuel now input = Some (Returned (parsed x (out x))).
Proof.
  intros [k Hk] Hfuel.
  destruct (run_terminates lib fuel (initial (newLex now input))
              (initial_steady (newLex now input) eq_refl)) as (r' & x' & Hr).
  { unfold potential, remaining, initial, rank. cbn. lia. }
  pose proof (run_agree lib _ _ _ _ _ Hk Hr) as E.
  injection E as <- <-.
  unfold parse, parserParse. rewrite Hr. unfold parsed.
  destruct (err x); reflexivity.
Qed.

Lemma Error_twice x m m' : Error (Error x m) m' = Error x m.
Proof.
  unfold Error at 1. destruct (err (Error x m)) eqn:E; [ reflexivity | ].
  exfalso. exact (Error_records x m E).
Qed.

Lemma parsed_Error x m before after q :
  err x = None -> inp x = before ++ after -> pos x = length before ->
  parsed (Error x m) q = (nilQuery, 0, 0, Some (errorAt m before after)).
Proof.
  intros He Hi Hp. unfold parsed.
  rewrite (Error_errorAt x m before after He Hi Hp). reflexivity.
Qed.

(** The parse ends with a syntax error where the token after the keywords
    of a numeric leaf is not an integer. *)
Lemma field_refused (lib : GoLib) (now : Time) f g1 rest fuel x' lv' c :
  spaces g1 ->
  let input := g1 ++ fieldText f ++ rest in
  Lex lib (adv (newLex now input) g1 (fieldText f)) zeroSym = (x', lv', c) ->
  c <> NUM -> In c [TIME; IPtok; DURATION; -1; 0] ->
  (5 * length input < fuel)%nat ->
  parse lib fuel now input
  = Some (Returned (parsed (Error x' SyntaxError) nilQuery)).
Proof.
  intros Hg1 input L2 Hc Hin Hfuel.
  assert (H : ahead (newLex now input) = g1 ++ fieldText f ++ rest)
    by reflexivity.
  pose proof (Lex_token_keyword lib _ zeroSym g1 _ _ _ Hg1
                (fieldText_token f) H) as L1.
  pose proof (shift_token lib _ zeroSym zeroSym [] 0 _ _ _
                (match f with Fport => 5 | Fvlan => 6 | Fmpls => 7 end)
                L1 ltac:(destruct f; reflexivity)) as [k R].
  assert (Hrun : run lib (k + 1) (ToStack (initial (newLex now input)))
                 = Some (Returned (1, Error x' SyntaxError))).
  { change (ToStack (initial (newLex now input)))
      with (ToStack (between (newLex now input) zeroSym zeroSym [] 0)).
    rewrite R.
    apply (refuse_token lib _ _ _ _ _ _ _ _ O L2);
      cbn [In] in Hin;
      repeat (destruct Hin as [<- | Hin]; [ destruct f; reflexivity | ]);
      contradiction. }
  rewrite (parse_result lib now input fuel 1 _ (ex_intro _ _ Hrun) Hfuel).
  unfold parsed. destruct (err (Error x' SyntaxError)) eqn:E;
    [ reflexivity | destruct (Error_records _ _ E) ].
Qed.

Lemma proto_refused (lib : GoLib) (now : Time) g1 g2 rest fuel x' lv' c :
  spaces g1 -> spaces g2 ->
  let input := g1 ++ str "ip" ++ g2 ++ str "proto" ++ rest in
  Lex lib (adv (adv (newLex now input) g1 (str "ip")) g2 (str "proto"))
      zeroSym = (x', lv', c) ->
  c <> NUM -> In c [TIME; IPtok; DURATION; -1; 0] ->
  (5 * length input < fuel)%nat ->
  parse lib fuel now input
  = Some (Returned (parsed (Error x' SyntaxError) nilQuery)).
Proof.
  intros Hg1 Hg2 input L3 Hc Hin Hfuel.
  assert (H : ahead (newLex now input)
              = g1 ++ str "ip" ++ g2 ++ str "proto" ++ rest)
    by reflexivity.
  pose proof (Lex_token_keyword lib _ zeroSym g1 (str "ip") IPP _ Hg1
                ltac:(token_in) H) as L1.
  pose proof (ahead_adv _ _ _ _ H) as H1.
  pose proof (Lex_token_keyword lib _ zeroSym g2 (str "proto") PROTO _ Hg2
                ltac:(token_in) H1) as L2.
  pose proof (shift_token lib _ zeroSym zeroSym [] 0 _ _ _ 8 L1 eq_refl)
    as R1.
  pose proof (shift_token lib _ zeroSym zeroSym [set_yys zeroSym 0] 8 _ _ _
                23 L2 eq_refl) as R2.
  destruct (reaches_trans lib _ _ _ R1 R2) as [k R].
  assert (Hrun : run lib (k + 1) (ToStack (initial (newLex now input)))
                 = Some (Returned (1, Error x' SyntaxError))).
  { change (ToStack (initial (newLex now input)))
      with (ToStack (between (newLex now input) zeroSym zeroSym [] 0)).
    rewrite R.
    apply (refuse_token lib _ _ _ _ _ _ _ _ O L3);
      cbn [In] in Hin;
      repeat (destruct Hin as [<- | Hin]; [ reflexivity | ]);
      contradiction. }
  rewrite (parse_result lib now input fuel 1 _ (ex_intro _ _ Hrun) Hfuel).
  unfold parsed. destruct (err (Error x' SyntaxError)) eqn:E;
    [ reflexivity | destruct (Error_records _ _ E) ].
Qed.

(** A literal that begins with a minus sign is read as a timestamp. *)
Lemma minus_literalAt ds trailing :
  forallb isDigit ds = true -> spaces trailing ->
  literalAt KTime ("-"%char :: ds) trailing.
Proof.
  intros Hd Hws. split; [ | split ].
  - apply startsNoToken_keyword. reflexivity.
  - unfold literalRun, runLength. cbn [app scanRun inb existsb Ascii.eqb
                                       Bool.eqb orb].
    rewrite (scanRun_digits_app ds trailing _ _ _ _ Hd).
    rewrite (spaces_stop_scan trailing _ _ _ _ Hws). cbn [fst].
    change (1 + length ds)%nat with (length ("-"%char :: ds)).
    apply (firstn_app_exact ("-"%char :: ds) trailing).
  - reflexivity.
Qed.

Lemma overflow_field_parse (lib : GoLib) (now : Time) f g1 g2 ds trailing n
  fuel :
  spaces g1 -> spaces g2 -> spaces trailing ->
  ds <> [] -> forallb isDigit ds = true -> parseDigits ds 0 = Some n ->
  2 ^ 63 <= n ->
  let before := g1 ++ fieldText f ++ g2 ++ ds in
  (5 * length (before ++ trailing) < fuel)%nat ->
  parse lib fuel now (before ++ trailing)
  = Some (Returned
            (nilQuery, 0, 0, Some (errorAt SyntaxError before trailing))).
Proof.
  intros Hg1 Hg2 Hws Hne Hd Hn Hbig before Hfuel.
  pose proof (Atoi_digits ds n Hne Hd Hn) as HA.
  apply Z.ltb_ge in Hbig. rewrite Hbig in HA.
  assert (E : before ++ trailing
              = g1 ++ fieldText f ++ g2 ++ ds ++ trailing)
    by (unfold before; rewrite <- !app_assoc; reflexivity).
  rewrite E in *.
  pose (input := g1 ++ fieldText f ++ g2 ++ ds ++ trailing).
  assert (H1 : ahead (adv (newLex now input) g1 (fieldText f))
               = g2 ++ ds ++ trailing)
    by (apply ahead_adv; reflexivity).
  pose proof (Lex_token_literal lib _ zeroSym g2 KInteger ds trailing Hg2
                (digits_literalAt ds trailing Hne Hd Hws)
                ltac:(discriminate) H1) as L2.
  cbv beta iota in L2. rewrite HA in L2.
  rewrite (field_refused lib now f g1 (g2 ++ ds ++ trailing) fuel _ _ _
             Hg1 L2 ltac:(discriminate) ltac:(cbn; tauto) Hfuel).
  rewrite (parsed_Error _ SyntaxError before trailing); try reflexivity.
  - symmetry. exact E.
  - unfold before. cbn [pos adv set_pos newLex]. rewrite !length_app. lia.
Qed.

Lemma negative_field_parse (lib : GoLib) (now : Time) f g1 g2 ds trailing
  fuel :
  spaces g1 -> spaces g2 -> spaces trailing -> forallb isDigit ds = true ->
  let lit := ("-"%char :: ds) in
  let before := g1 ++ fieldText f ++ g2 ++ lit in
  (5 * length (before ++ trailing) < fuel)%nat ->
  parse lib fuel now (before ++ trailing)
  = Some (Returned
            (nilQuery, 0, 0,
             Some (errorAt (match time_Parse_RFC3339 lib lit with
                            | Some _ => SyntaxError
                            | None => BadTime lit
                            end) before trailing))).
Proof.
  intros Hg1 Hg2 Hws Hd lit before Hfuel.
  assert (E : before ++ trailing
              = g1 ++ fieldText f ++ g2 ++ lit ++ trailing)
    by (unfold before; rewrite <- !app_assoc; reflexivity).
  rewrite E in *.
  pose (input := g1 ++ fieldText f ++ g2 ++ lit ++ trailing).
  assert (H1 : ahead (adv (newLex now input) g1 (fieldText f))
               = g2 ++ lit ++ trailing)
    by (apply ahead_adv; reflexivity).
  pose proof (Lex_token_literal lib _ zeroSym g2 KTime lit trailing Hg2
                (minus_literalAt ds trailing Hd Hws) ltac:(discriminate) H1)
    as L2.
  cbv beta iota in L2.
  assert (Hpos : pos (adv (adv (newLex now input) g1 (fieldText f)) g2 lit)
                 = length before).
  { unfold before. cbn [pos adv set_pos newLex]. rewrite !length_app. lia. }
  destruct (time_Parse_RFC3339 lib lit) as [v | ].
  - rewrite (field_refused lib now f g1 (g2 ++ lit ++ trailing) fuel _ _ _
               Hg1 L2 ltac:(discriminate) ltac:(cbn; tauto) Hfuel).
    rewrite (parsed_Error _ SyntaxError before trailing); try reflexivity.
    + symmetry. exact E.
    + exact Hpos.
  - rewrite (field_refused lib now f g1 (g2 ++ lit ++ trailing) fuel _ _ _
               Hg1 L2 ltac:(discriminate) ltac:(cbn; tauto) Hfuel).
    rewrite Error_twice.
    rewrite (parsed_Error _ (BadTime lit) before trailing); try reflexivity.
    + symmetry. exact E.
    + exact Hpos.
Qed.

Lemma overflow_proto_parse (lib : GoLib) (now : Time) g1 g2 g3 ds trailing n
  fuel :
  spaces g1 -> spaces g2 -> spaces g3 -> spaces trailing ->
  ds <> [] -> forallb isDigit ds = true -> parseDigits ds 0 = Some n ->
  2 ^ 63 <= n ->
  let before := g1 ++ str "ip" ++ g2 ++ str "proto" ++ g3 ++ ds in
  (5 * length (before ++ trailing) < fuel)%nat ->
  parse lib fuel now (before ++ trailing)
  = Some (Returned
            (nilQuery, 0, 0, Some (errorAt SyntaxError before trailing))).
Proof.
  intros Hg1 Hg2 Hg3 Hws Hne Hd Hn Hbig before Hfuel.
  pose proof (Atoi_digits ds n Hne Hd Hn) as HA.
  apply Z.ltb_ge in Hbig. rewrite Hbig in HA.
  assert (E : before ++ trailing
              = g1 ++ str "ip" ++ g2 ++ str "proto" ++ g3 ++ ds ++ trailing)
    by (unfold before; rewrite <- !app_assoc; reflexivity).
  rewrite E in *.
  pose (input := g1 ++ str "ip" ++ g2 ++ str "proto" ++ g3 ++ ds ++ trailing).
  assert (H2 : ahead (adv (adv (newLex now input) g1 (str "ip")) g2
                          (str "proto"))
               = g3 ++ ds ++ trailing)
    by (apply ahead_adv; apply ahead_adv; reflexivity).
  pose proof (Lex_token_literal lib _ zeroSym g3 KInteger ds trailing Hg3
                (digits_literalAt ds trailing Hne Hd Hws)
                ltac:(discriminate) H2) as L3.
  cbv beta iota in L3. rewrite HA in L3.
  rewrite (proto_refused lib now g1 g2 (g3 ++ ds ++ trailing) fuel _ _ _
             Hg1 Hg2 L3 ltac:(discriminate) ltac:(cbn; tauto) Hfuel).
  rewrite (parsed_Error _ SyntaxError before trailing); try reflexivity.
  - symmetry. exact E.
  - unfold before. cbn [pos adv set_pos newLex]. rewrite !length_app. lia.
Qed.

Lemma negative_proto_parse (lib : GoLib) (now : Time) g1 g2 g3 ds trailing
  fuel :
  spaces g1 -> spaces g2 -> spaces g3 -> spaces trailing ->
  forallb isDigit ds = true ->
  let lit := ("-"%char :: ds) in
  let before := g1 ++ str "ip" ++ g2 ++ str "proto" ++ g3 ++ lit in
  (5 * length (before ++ trailing) < fuel)%nat ->
  parse lib fuel now (before ++ trailing)
  = Some (Returned
            (nilQuery, 0, 0,
             Some (errorAt (match time_Parse_RFC3339 lib lit with
                            | Some _ => SyntaxError
                            | None => BadTime lit
                            end) before trailing))).
Proof.
  intros Hg1 Hg2 Hg3 Hws Hd lit before Hfuel.
  assert (E : before ++ trailing
              = g1 ++ str "ip" ++ g2 ++ str "proto" ++ g3 ++ lit ++ trailing)
    by (unfold before; rewrite <- !app_assoc; reflexivity).
  rewrite E in *.
  pose (input := g1 ++ str "ip" ++ g2 ++ str "proto" ++ g3 ++ lit ++ trailing).
  assert (H2 : ahead (adv (adv (newLex now input) g1 (str "ip")) g2
                          (str "proto"))
               = g3 ++ lit ++ trailing)
    by (apply ahead_adv; apply ahead_adv; reflexivity).
  pose proof (Lex_token_literal lib _ zeroSym g3 KTime lit trailing Hg3
                (minus_literalAt ds trailing Hd Hws) ltac:(discriminate) H2)
    as L3.
  cbv beta iota in L3.
  assert (Hpos : pos (adv (adv (adv (newLex now input) g1 (str "ip")) g2
                               (str "proto")) g3 lit)
                 = length before).
  { unfold before. cbn [pos adv set_pos newLex]. rewrite !length_app. lia. }
  destruct (time_Parse_RFC3339 lib lit) as [v | ].
  - rewrite (proto_refused lib now g1 g2 (g3 ++ lit ++ trailing) fuel _ _ _
               Hg1 Hg2 L3 ltac:(discriminate) ltac:(cbn; tauto) Hfuel).
    rewrite (parsed_Error _ SyntaxError before trailing); try reflexivity.
    + symmetry. exact E.
    + exact Hpos.
  - rewrite (proto_refused lib now g1 g2 (g3 ++ lit ++ trailing) fuel _ _ _
               Hg1 Hg2 L3 ltac:(discriminate) ltac:(cbn; tauto) Hfuel).
    rewrite Error_twice.
    rewrite (parsed_Error _ (BadTime lit) before trailing); try reflexivity.
    + symmetry. exact E.
    + exact Hpos.
Qed.

(** C7. The range checks of the numeric leaves, from the text to the result
    of [parse].  Write [port], [vlan], [mpls] or [ip proto], then a decimal
    literal [n], with any white space between the tokens and after them:
    [parse] returns the leaf carrying [n] and no error when [n] is below the
    bound of the field (65536 for [port] and [vlan], 2^20 for [mpls], 256
    for [ip proto]), and it returns an error and no leaf from the bound
    upwards: the range error of the field at the end of the literal, or a
    syntax error there once [n] is beyond the range of [int], where
    [strconv.Atoi] fails.  With a minus sign in front of the literal
    [parse] returns an error as well: [Lex] reads the literal as a
    timestamp, which the library rejects or else the state after the
    keyword does; no integer token is negative, and the test [n < 0] of the
    actions never fires. *)
Theorem numeric_leaf_validation (lib : GoLib) (now : Time)
  (g1 g2 g3 ds trailing : gostring) (n : Z) (fuel : nat) :
  spaces g1 -> spaces g2 -> spaces g3 -> spaces trailing ->
  ds <> [] -> forallb isDigit ds = true -> parseDigits ds 0 = Some n ->
  let result (bound : Z) (m : errmsg) (leaf : Query) (before : gostring) :=
    Some (Returned
            (if bound <=? n
             then (nilQuery, 0, 0,
                   Some (errorAt (if n <? 2 ^ 63 then m else SyntaxError)
                                 before trailing))
             else (leaf, 0, 0, None))) in
  let refused (before : gostring) :=
    Some (Returned
            (nilQuery, 0, 0,
             Some (errorAt
                     (match time_Parse_RFC3339 lib ("-"%char :: ds) with
                      | Some _ => SyntaxError
                      | None => BadTime ("-"%char :: ds)
                      end) before trailing))) in
  (forall f,
     let before := g1 ++ fieldText f ++ g2 ++ ds in
     (5 * length (before ++ trailing) < fuel)%nat ->
     parse lib fuel now (before ++ trailing)
     = result (fieldBound f) (fieldError f n) (fieldQuery f n) before)
  /\ (let before := g1 ++ str "ip" ++ g2 ++ str "proto" ++ g3 ++ ds in
      (5 * length (before ++ trailing) < fuel)%nat ->
      parse lib fuel now (before ++ trailing)
      = result 256 (InvalidProto n) (protocolQuery n) before)
  /\ (forall f,
        let before := g1 ++ fieldText f ++ g2 ++ "-"%char :: ds in
        (5 * length (before ++ trailing) < fuel)%nat ->
        parse lib fuel now (before ++ trailing) = refused before)
  /\ (let before :=
        g1 ++ str "ip" ++ g2 ++ str "proto" ++ g3 ++ "-"%char :: ds in
      (5 * length (before ++ trailing) < fuel)%nat ->
      parse lib fuel now (before ++ trailing) = refused before).
Proof.
  intros Hg1 Hg2 Hg3 Hws Hne Hd Hn result refused.
  split; [ | split; [ | split ] ].
  - intros f before Hfuel. unfold result.
    destruct (Z.ltb_spec n (2 ^ 63)) as [Hs | Hb].
    + apply numeric_field_parse; assumption.
    + assert (Hbound : (fieldBound f <=? n) = true)
        by (apply Z.leb_le; destruct f; cbn [fieldBound]; lia).
      rewrite Hbound.
      apply (overflow_field_parse lib now f g1 g2 ds trailing n);
        assumption.
  - intros before Hfuel. unfold result.
    destruct (Z.ltb_spec n (2 ^ 63)) as [Hs | Hb].
    + apply proto_parse; assumption.
    + assert (Hbound : (256 <=? n) = true) by (apply Z.leb_le; lia).
      rewrite Hbound.
      apply (overflow_proto_parse lib now g1 g2 g3 ds trailing n);
        assumption.
  - intros f before Hfuel.
    apply negative_field_parse; assumption.
  - intros before Hfuel.
    apply negative_proto_parse; assumption.
Qed.

Lemma numeric_leaf_validation_witness :
  parse sampleLib 100 0 (str "port  65535 ")
  = Some (Returned (portQuery 65535, 0, 0, None))
  /\ parse sampleLib 100 0 (str "ip proto 256")
     = Some (Returned
               (nilQuery, 0, 0,
                Some (errorAt (InvalidProto 256) (str "ip proto 256") [])))
  /\ parse sampleLib 100 0 (str "vlan -5")
     = Some (Returned
               (nilQuery, 0, 0,
                Some (errorAt (BadTime (str "-5")) (str "vlan -5") []))).
Proof.
  split; [ | split ].
  - apply (proj1 (numeric_leaf_validation sampleLib 0 [] (str "  ") []
                    (str "65535") (str " ") 65535 100
                    eq_refl eq_refl eq_refl eq_refl
                    ltac:(discriminate) eq_refl eq_refl) Fport).
    vm_compute. lia.
  - apply (proj1 (proj2 (numeric_leaf_validation sampleLib 0 [] (str " ")
                           (str " ") (str "256") [] 256 100
                           eq_refl eq_refl eq_refl eq_refl
                           ltac:(discriminate) eq_refl eq_refl))).
    vm_compute. lia.
  - apply (proj1 (proj2 (proj2 (numeric_leaf_validation sampleLib 0 []
                                  (str " ") [] (str "5") [] 5 100
                                  eq_refl eq_refl eq_refl eq_refl
                                  ltac:(discriminate) eq_refl eq_refl)))
             Fvlan).
    vm_compute. lia.
Defined.

(** ** [between], from the text *)

Lemma readT_accepted (lib : GoLib) t x :
  accepted lib t ->
  readT lib t x = set_pos x (pos x + length (textT t)).
Proof.
  destruct t as [g part | g part g2]; cbn [accepted readT textT]; intros H.
  - destruct (time_Parse_RFC3339 lib part); [ | congruence ].
    unfold adv. rewrite length_app, Nat.add_assoc. reflexivity.
  - destruct (time_ParseDuration lib part); [ | congruence ].
    unfold adv, set_pos. cbn [pos now inp out err startTime stopTime].
    rewrite !length_app. f_equal. lia.
Qed.

(** C8. [between T1 and T2], from the text to the result of [parse].  For
    two times that the library accepts, each a timestamp or a duration
    followed by [ago], with any white space between the tokens and after
    them: [parse] returns an error and no leaf exactly when [T1] is after
    [T2], the error is the one of the action, recorded at the end of the
    second time; when [T1 <= T2] it returns the leaf [timeQuery{T1, T2}],
    with [T1] and [T2] as the bounds of the query. *)
Theorem between_validation (lib : GoLib) (now : Time)
  (g1 : gostring) (t1 : timeText) (g2 : gostring) (t2 : timeText)
  (trailing : gostring) (fuel : nat) :
  spaces g1 -> spaces g2 -> spaces trailing ->
  wellSpacedT t1 (g2 ++ str "and" ++ textT t2 ++ trailing) ->
  wellSpacedT t2 trailing ->
  accepted lib t1 -> accepted lib t2 ->
  let before :=
    g1 ++ str "between" ++ textT t1 ++ g2 ++ str "and" ++ textT t2 in
  let T1 := timeValue lib now t1 in
  let T2 := timeValue lib now t2 in
  (5 * length (before ++ trailing) < fuel)%nat ->
  parse lib fuel now (before ++ trailing)
  = Some (Returned
            (if T2 <? T1
             then (nilQuery, 0, 0,
                   Some (errorAt (BadBetween T1 T2) before trailing))
             else (timeQuery T1 T2, T1, T2, None))).
Proof.
  intros Hg1 Hg2 Hws Ht1 Ht2 Ha1 Ha2 before T1 T2 Hfuel.
  pose proof (parse_read lib now (Tone (Tbetween g1 t1 g2 t2)) trailing fuel)
    as H.
  cbn [textQ text1 wellSpacedQ wellSpaced1 readQ read1 treeQ tree1] in H.
  fold before in H. cbv zeta in H.
  rewrite H; [ | repeat (split; [ assumption | ]); assumption | exact Hws
             | exact Hfuel ].
  f_equal. f_equal.
  rewrite !(readT_accepted lib) by assumption.
  rewrite !now_newLex. cbn [newLex adv set_pos pos]. fold T1 T2.
  match goal with
  | |- context [Error ?y (BadBetween T1 T2)] => set (x := y)
  end.
  assert (Hpos : pos x = length before).
  { subst x before. cbn [pos set_pos]. rewrite !length_app. lia. }
  unfold parsed, After.
  destruct (Z.ltb_spec T2 T1) as [Hlt | Hge].
  - rewrite (proj2 (proj2 (Handle_err _ T1 T2))).
    rewrite (Error_errorAt x _ before trailing eq_refl eq_refl Hpos).
    reflexivity.
  - rewrite (proj2 (proj2 (Handle_err _ T1 T2))).
    cbn [err]. unfold HandleBetween, IsZero.
    cbn [startTime stopTime set_startTime set_stopTime Z.eqb orb].
    reflexivity.
Qed.

Lemma between_validation_witness :
  parse sampleLib 400 (63650404800 * 1000000000)
        (str "between 2018-01-01T13:00:00Z and  45m ago ")
  = Some (Returned
            (nilQuery, 0, 0,
             Some (errorAt
                     (BadBetween (63650408400 * 1000000000)
                                 (63650404800 * 1000000000
                                  - 45 * time_Minute))
                     (str "between 2018-01-01T13:00:00Z and  45m ago")
                     (str " "))))
  /\ parse sampleLib 400 (63650404800 * 1000000000)
           (str "between 3h ago and 2018-01-01T12:00:00Z")
     = Some (Returned
               (timeQuery (63650404800 * 1000000000 - 180 * time_Minute)
                          (63650404800 * 1000000000),
                63650404800 * 1000000000 - 180 * time_Minute,
                63650404800 * 1000000000, None)).
Proof.
  split.
  - apply (between_validation sampleLib (63650404800 * 1000000000) []
             (Stamp (str " ") (str "2018-01-01T13:00:00Z")) (str " ")
             (Ago (str "  ") (str "45m") (str " ")) (str " ") 400).
    all: try reflexivity.
    + vm_compute. repeat split; reflexivity.
    + vm_compute. repeat split; reflexivity.
    + discriminate.
    + discriminate.
    + vm_compute. lia.
  - apply (between_validation sampleLib (63650404800 * 1000000000) []
             (Ago (str " ") (str "3h") (str " ")) (str " ")
             (Stamp (str " ") (str "2018-01-01T12:00:00Z")) [] 400).
    all: try reflexivity.
    + vm_compute. repeat split; reflexivity.
    + vm_compute. repeat split; reflexivity.
    + discriminate.
    + discriminate.
    + vm_compute. lia.
Defined.

(** ** The time span of [after A] and [before B], the zero time included *)

Lemma widen_after_slack (A : Time) s e :
  (s = 0 \/ s = fst (withSlack (A, 0))) ->
  widen (s, e) (A, 0) = (fst (withSlack (A, 0)), e).
Proof.
  unfold withSlack. cbn [fst snd].
  destruct (Z.eqb_spec A 0) as [-> | HA].
  - intros Hs. assert (s = 0) by tauto. subst s. reflexivity.
  - apply widen_after. exact HA.
Qed.

Lemma widen_before_slack (B : Time) s e :
  (e = 0 \/ e = snd (withSlack (0, B))) ->
  widen (s, e) (0, B) = (s, snd (withSlack (0, B))).
Proof.
  unfold withSlack. cbn [fst snd].
  destruct (Z.eqb_spec B 0) as [-> | HB].
  - intros He. assert (e = 0) by tauto. subst e. reflexivity.
  - apply widen_before. exact HB.
Qed.

Lemma widen_slack_fold (A B : Time) leaves : forall s e,
  (forall l, In l leaves -> l = (A, 0) \/ l = (0, B)) ->
  (s = 0 \/ s = fst (withSlack (A, B))) ->
  (e = 0 \/ e = snd (withSlack (A, B))) ->
  (fst (fold_left widen leaves (s, e)) = fst (withSlack (A, B))
   \/ (fst (fold_left widen leaves (s, e)) = s /\ ~ In (A, 0) leaves))
  /\ (snd (fold_left widen leaves (s, e)) = snd (withSlack (A, B))
      \/ (snd (fold_left widen leaves (s, e)) = e /\ ~ In (0, B) leaves)).
Proof.
  induction leaves as [ | l leaves IH ]; intros s e Hall Hs He.
  - split; right; split; auto.
  - cbn [fold_left].
    assert (Hl : l = (A, 0) \/ l = (0, B)) by (apply Hall; left; reflexivity).
    assert (Hall' : forall l', In l' leaves -> l' = (A, 0) \/ l' = (0, B))
      by (intros l' H'; apply Hall; right; exact H').
    change (fst (withSlack (A, B))) with (fst (withSlack (A, 0))) in *.
    change (snd (withSlack (A, B))) with (snd (withSlack (0, B))) in *.
    destruct Hl as [-> | ->].
    + rewrite (widen_after_slack A s e Hs).
      destruct (IH (fst (withSlack (A, 0))) e Hall' (or_intror eq_refl) He)
        as [H1 H2].
      split.
      * left. destruct H1 as [H1 | [H1 _]]; exact H1.
      * destruct H2 as [H2 | [H2 Hn]]; [ left; exact H2 | ].
        destruct (Z.eq_dec B 0) as [-> | HB].
        { left. rewrite H2. cbn in He |- *. tauto. }
        right. split; [ exact H2 | ].
        intros [Hin | Hin]; [ | contradiction ].
        injection Hin as _ Hb. congruence.
    + rewrite (widen_before_slack B s e He).
      destruct (IH s (snd (withSlack (0, B))) Hall' Hs (or_intror eq_refl))
        as [H1 H2].
      split.
      * destruct H1 as [H1 | [H1 Hn]]; [ left; exact H1 | ].
        destruct (Z.eq_dec A 0) as [-> | HA].
        { left. rewrite H1. cbn in Hs |- *. tauto. }
        right. split; [ exact H1 | ].
        intros [Hin | Hin]; [ | contradiction ].
        injection Hin as Ha _. congruence.
      * left. destruct H2 as [H2 | [H2 _]]; exact H2.
Qed.

(** C4. Over a tree whose time leaves are [after A] and [before B] (each at
    least once, in any place and order, and no other time leaf),
    [GetTimeSpan] seeded with the zero bounds returns
    [(A - 1 minute, B + 1 minute)] when neither [A] nor [B] is the zero
    time; a bound at the zero time is a bound that the leaf has not, and it
    stays unset: the start is then the zero time rather than one minute
    before it, and likewise the stop.  Over a tree with no time leaf
    [GetTimeSpan] returns the bounds it was given. *)
Theorem GetTimeSpan_spec :
  (forall q A B,
     hasNil q = false -> A <= B ->
     (forall l, In l (timeLeaves q) -> l = (A, 0) \/ l = (0, B)) ->
     In (A, 0) (timeLeaves q) -> In (0, B) (timeLeaves q) ->
     GetTimeSpan q 0 0
     = Returned (if A =? 0 then 0 else A - time_Minute,
                 if B =? 0 then 0 else B + time_Minute)
     /\ (A <> 0 -> B <> 0 ->
         GetTimeSpan q 0 0 = Returned (A - time_Minute, B + time_Minute)))
  /\ (forall q startTime stopTime,
        hasNil q = false -> timeLeaves q = [] ->
        GetTimeSpan q startTime stopTime = Returned (startTime, stopTime)).
Proof.
  split.
  - intros q A B Hn _ Hall HinA HinB.
    assert (H : GetTimeSpan q 0 0 = Returned (withSlack (A, B))).
    { rewrite (GetTimeSpan_leaves q 0 0 Hn).
      destruct (widen_slack_fold A B (timeLeaves q) 0 0 Hall
                  (or_introl eq_refl) (or_introl eq_refl)) as [H1 H2].
      destruct (fold_left widen (timeLeaves q) (0, 0)) as [s e].
      cbn [fst snd] in H1, H2.
      destruct H1 as [-> | [_ H1]]; [ | contradiction ].
      destruct H2 as [-> | [_ H2]]; [ | contradiction ].
      reflexivity. }
    split; [ exact H | ].
    intros HA HB. rewrite H. unfold withSlack. cbn [fst snd].
    apply Z.eqb_neq in HA, HB. rewrite HA, HB. reflexivity.
  - intros q s e Hn Hl.
    rewrite (GetTimeSpan_leaves q s e Hn), Hl. reflexivity.
Qed.

Lemma GetTimeSpan_spec_witness :
  GetTimeSpan
    (unionQuery
       [intersectQuery [portQuery 80; timeQuery (100 * time_Minute) 0];
        intersectQuery [protocolQuery 6; timeQuery 0 (200 * time_Minute)]])
    0 0
  = Returned (99 * time_Minute, 201 * time_Minute)
  /\ GetTimeSpan (unionQuery [portQuery 80; protocolQuery 6]) 5 7
     = Returned (5, 7).
Proof.
  split.
  - apply (proj1 GetTimeSpan_spec
             (unionQuery
                [intersectQuery [portQuery 80; timeQuery (100 * time_Minute) 0];
                 intersectQuery
                   [protocolQuery 6; timeQuery 0 (200 * time_Minute)]])
             (100 * time_Minute) (200 * time_Minute)).
    + reflexivity.
    + unfold time_Minute. lia.
    + simpl. intros l [<- | [<- | []]]; auto.
    + simpl. auto.
    + simpl. auto.
    + discriminate.
    + discriminate.
  - apply (proj2 GetTimeSpan_spec); reflexivity.
Defined.

(** C4 as written fails at the zero time.  [after 0001-01-01T00:00:00Z] is
    [after A] for [A] the zero time, and [A <= B] for the [B] five minutes
    later; the parsed tree holds the two leaves, yet its time span starts at
    the zero time, unset, and not one minute before [A]. *)
Lemma GetTimeSpan_zero_time_counterexample :
  parse yearOneLib 400 0
        (str "after 0001-01-01T00:00:00Z and before 0001-01-01T00:05:00Z")
  = Some (Returned
            (intersectQuery [timeQuery 0 0; timeQuery 0 (5 * time_Minute)],
             0, 5 * time_Minute, None))
  /\ 0 <= 5 * time_Minute
  /\ GetTimeSpan
       (intersectQuery [timeQuery 0 0; timeQuery 0 (5 * time_Minute)]) 0 0
     = Returned (0, 5 * time_Minute + time_Minute)
  /\ (0, 5 * time_Minute + time_Minute)
     <> (0 - time_Minute, 5 * time_Minute + time_Minute).
Proof.
  split; [ vm_compute; reflexivity | ].
  split; [ vm_compute; discriminate | ].
  split; [ vm_compute; reflexivity | ].
  vm_compute. discriminate.
Qed.

(** ** No index out of range *)

Lemma tables_checked :
  forallb shiftsListed allStates = true
  /\ forallb reductionFits allStates = true
  /\ forallb (fun t => (0 <=? fst t) && (fst t <? 42)
                       && (0 <? snd t) && (snd t <? 42)) transitions = true.
Proof. repeat split; vm_compute; reflexivity. Qed.

Lemma in_allStates s : 0 <= s < 42 -> In s allStates.
Proof.
  intros H. unfold allStates. apply in_map_iff.
  exists (Z.to_nat s). split; [ lia | apply in_seq; lia ].
Qed.

Lemma follows_range a b :
  follows a b = true -> 0 <= a < 42 /\ 0 < b < 42.
Proof.
  unfold follows. intros H. apply existsb_exists in H.
  destruct H as [[a' b'] [Hin H]]. cbn [fst snd] in H.
  apply andb_true_iff in H. destruct H as [Ha Hb].
  apply Z.eqb_eq in Ha, Hb. subst a' b'.
  pose proof (proj2 (proj2 tables_checked)) as Hall.
  rewrite forallb_forall in Hall. specialize (Hall _ Hin).
  cbn [fst snd] in Hall.
  repeat (apply andb_true_iff in Hall; destruct Hall as [Hall ?]).
  lia.
Qed.

Lemma validPath_head s rest :
  validPath (s :: rest) = true -> 0 <= s < 42.
Proof.
  cbn [validPath]. destruct rest as [ | s' rest ]; intros H.
  - apply Z.eqb_eq in H. lia.
  - apply andb_true_iff in H. destruct H as [H _].
    apply follows_range in H. lia.
Qed.

Lemma validPath_tail s s' rest :
  validPath (s :: s' :: rest) = true ->
  follows s' s = true /\ validPath (s' :: rest) = true.
Proof. cbn [validPath]. intros H. apply andb_true_iff in H. exact H. Qed.

Lemma validPath_cons s s' rest :
  follows s' s = true -> validPath (s' :: rest) = true ->
  validPath (s :: s' :: rest) = true.
Proof. intros H1 H2. cbn [validPath] in *. rewrite H1, H2. reflexivity. Qed.

Lemma validPath_all path :
  validPath path = true -> Forall (fun s => 0 <= s < 42) path.
Proof.
  induction path as [ | s rest IH ]; intros H; [ discriminate | ].
  constructor; [ exact (validPath_head s rest H) | ].
  destruct rest as [ | s' rest ]; [ constructor | ].
  apply IH. exact (proj2 (validPath_tail _ _ _ H)).
Qed.

(** What [backAll] checks holds of every stack. *)
Lemma backAll_path k : forall s rest P,
  backAll k s P = true -> validPath (s :: rest) = true ->
  (k < length (s :: rest))%nat
  /\ P (nth k (s :: rest) 0) = true
  /\ validPath (skipn k (s :: rest)) = true.
Proof.
  induction k as [ | k IH ]; intros s rest P Hb Hv.
  - cbn [backAll] in Hb. cbn. repeat split; [ lia | exact Hb | exact Hv ].
  - cbn [backAll] in Hb. apply andb_true_iff in Hb. destruct Hb as [Hs Hb].
    apply negb_true_iff, Z.eqb_neq in Hs.
    destruct rest as [ | s' rest ].
    + cbn [validPath] in Hv. apply Z.eqb_eq in Hv. congruence.
    + destruct (validPath_tail _ _ _ Hv) as [Hf Hv'].
      rewrite forallb_forall in Hb.
      specialize (Hb s' (in_allStates s' (validPath_head _ _ Hv'))).
      rewrite Hf in Hb. cbn [negb orb] in Hb.
      destruct (IH s' rest P Hb Hv') as (H1 & H2 & H3).
      cbn [length nth skipn] in *. repeat split; [ lia | exact H2 | exact H3 ].
Qed.

Lemma state_checked (f : Z -> bool) s :
  forallb f allStates = true -> 0 <= s < 42 -> f s = true.
Proof.
  intros H Hs. rewrite forallb_forall in H. apply H.
  apply in_allStates. exact Hs.
Qed.

(** ** The entries of the tables *)

Lemma Act_range z : 0 <= at_ parserAct z < 42.
Proof.
  apply (at_index (fun v => 0 <= v < 42)); [ | lia ].
  repeat constructor; lia.
Qed.

Lemma Def_range z : -2 <= at_ parserDef z <= 20 /\ at_ parserDef z <> -1.
Proof.
  apply (at_index (fun v => -2 <= v <= 20 /\ v <> -1)); [ | lia ].
  repeat constructor; lia.
Qed.

Lemma R1_range z : 0 <= at_ parserR1 z <= 4.
Proof.
  apply (at_index (fun v => 0 <= v <= 4)); [ | lia ].
  repeat constructor; lia.
Qed.

Lemma Pgo_range z : 0 <= at_ parserPgo z < 44.
Proof.
  apply (at_index (fun v => 0 <= v < 44)); [ | lia ].
  repeat constructor; lia.
Qed.

Lemma inTable_spec tbl i :
  inTable tbl i = true <-> 0 <= i < Z.of_nat (length tbl).
Proof.
  unfold inTable, len. rewrite andb_true_iff, Z.leb_le, Z.ltb_lt. tauto.
Qed.

Lemma inTable_bound tbl i n :
  Z.of_nat (length tbl) = n -> 0 <= i < n -> inTable tbl i = true.
Proof. intros <- H. apply inTable_spec. exact H. Qed.

Lemma translate_ok_always c : translate_ok c = true.
Proof.
  unfold translate_ok.
  destruct (Z.leb_spec c 0) as [H0 | H0]; [ reflexivity | ].
  destruct (Z.ltb_spec c (len parserTok1)) as [H1 | H1].
  - apply andb_true_iff. split.
    + apply inTable_spec. unfold len in H1. lia.
    + destruct (at_ parserTok1 c =? 0); reflexivity.
  - destruct ((parserPrivate <=? c)
              && (c <? parserPrivate + len parserTok2)) eqn:E.
    + apply andb_true_iff in E. destruct E as [E1 E2].
      apply Z.leb_le in E1. apply Z.ltb_lt in E2.
      apply andb_true_iff. split.
      * apply inTable_spec. unfold len in E2. lia.
      * destruct (at_ parserTok2 (c - parserPrivate) =? 0); reflexivity.
    + cbn [parserTok3 tok3_ok tok3_loop].
      destruct (Z.eqb_spec 0 c) as [E0 | E0]; [ lia | reflexivity ].
Qed.

(** ** Every jump within the bounds *)

Ltac split_andb :=
  repeat match goal with
         | |- (_ && _) = true => apply andb_true_iff; split
         end.

Lemma cursor_ok_steady p : steady p -> cursor_ok (plex p) = true.
Proof. intros (_ & H & _). apply Nat.leb_le. exact H. Qed.

Lemma Error_ok_cursor x : cursor_ok x = true -> Error_ok x = true.
Proof. unfold Error_ok. destruct (err x); auto. Qed.

Lemma cursor_ok_Error x m : cursor_ok (Error x m) = cursor_ok x.
Proof.
  unfold cursor_ok. destruct (Error_cursor x m) as [-> ->]. reflexivity.
Qed.

Lemma recover_ok_range S :
  Forall (fun s => 0 <= s < 42) (map yys S) -> recover_ok S = true.
Proof.
  induction S as [ | v S IH ]; intros H; [ reflexivity | ].
  cbn [map] in H. inversion H as [ | ? ? Hv Hrest ]; subst.
  cbn [recover_ok]. apply andb_true_iff. split.
  - eapply inTable_bound; [ cbv; reflexivity | lia ].
  - cbv zeta.
    destruct ((0 <=? at_ parserPact (yys v) + parserErrCode)
              && (at_ parserPact (yys v) + parserErrCode <? parserLast))
      eqn:E; [ | apply IH; exact Hrest ].
    apply andb_true_iff in E. destruct E as [E1 E2].
    apply Z.leb_le in E1. apply Z.ltb_lt in E2. unfold parserLast in E2.
    rewrite Chk_never_error.
    split_andb.
    + eapply inTable_bound; [ cbv; reflexivity | lia ].
    + pose proof (Act_range (at_ parserPact (yys v) + parserErrCode)).
      eapply inTable_bound; [ cbv; reflexivity | lia ].
    + apply IH. exact Hrest.
Qed.

Lemma on_error_sound p :
  steady p -> pushedOn p -> on_error_ok p = true /\ sound (on_error p).
Proof.
  intros Hs (rest & Hm & Hv). split.
  - unfold on_error_ok. rewrite (proj1 Hs). cbn [Z.eqb orb].
    apply andb_true_iff. split.
    + apply Error_ok_cursor, cursor_ok_steady. exact Hs.
    + apply recover_ok_range. rewrite Hm. apply validPath_all. exact Hv.
  - rewrite (on_error_aborts p (proj1 Hs)). exact I.
Qed.

Lemma nth_0_skipn {A} (l : list A) k d : nth 0 (skipn k l) d = nth k l d.
Proof.
  revert l. induction k as [ | k IH ]; intros l; [ reflexivity | ].
  destruct l as [ | a l ]; [ reflexivity | ]. cbn [skipn nth]. apply IH.
Qed.

Lemma slice_ok_more k k' (S : list parserSymType) :
  (k' < length S)%nat -> k = k' -> slice_ok k S = true.
Proof. intros H ->. apply Nat.ltb_lt. exact H. Qed.

Lemma action_ok_deep n S x :
  1 <= n <= 20 -> (Z.to_nat (at_ parserR2 n) < length S)%nat ->
  cursor_ok x = true -> action_ok n S x = true.
Proof.
  intros Hn Hk Hc.
  assert (He : Error_ok x = true) by (apply Error_ok_cursor; exact Hc).
  assert (Hcases : n = 1 \/ n = 2 \/ n = 3 \/ n = 4 \/ n = 5 \/ n = 6 \/ n = 7
                   \/ n = 8 \/ n = 9 \/ n = 10 \/ n = 11 \/ n = 12 \/ n = 13
                   \/ n = 14 \/ n = 15 \/ n = 16 \/ n = 17 \/ n = 18
                   \/ n = 19 \/ n = 20) by lia.
  repeat (destruct Hcases as [-> | Hcases]); try subst n;
    match type of Hk with
    | (?k < _)%nat => let v := eval vm_compute in k in change k with v in Hk
    end;
    apply Nat.ltb_lt in Hk; cbn [action_ok]; unfold range_ok, slice_ok;
    rewrite ?Hk; cbn [andb]; try reflexivity;
    repeat match goal with
           | |- context [if ?b then _ else _] => destruct b
           end; try exact He; try reflexivity.
  all: rewrite ?He; cbn [andb]; try reflexivity.
  apply Error_ok_cursor. rewrite cursor_ok_Error. exact Hc.
Qed.

Lemma skipn_head_nth (l : list Z) k :
  (k < length l)%nat -> exists t, skipn k l = nth k l 0 :: t.
Proof.
  revert l. induction k as [ | k IH ]; intros l H.
  - destruct l as [ | a l ]; [ simpl in H; lia | ]. exists l. reflexivity.
  - destruct l as [ | a l ]; [ simpl in H; lia | ].
    cbn [skipn nth]. apply IH. simpl in H. lia.
Qed.

Lemma reduce_sound p n :
  steady p -> pushedOn p ->
  n = at_ parserDef (parserstate p) -> n <> 0 -> n <> -2 ->
  reduce_ok p n = true /\ sound (reduce p n).
Proof.
  intros Hs (rest & Hm & Hv) Hn Hn0 Hn2.
  pose proof (validPath_head _ _ Hv) as Hst.
  pose proof (Def_range (parserstate p)) as [Hd Hd1]. rewrite <- Hn in Hd, Hd1.
  assert (Hn20 : 1 <= n <= 20) by lia.
  pose proof (state_checked reductionFits _ (proj1 (proj2 tables_checked))
                Hst) as Hfit.
  unfold reductionFits in Hfit. rewrite <- Hn in Hfit.
  destruct (Z.eqb_spec n 0) as [ | _ ]; [ contradiction | ].
  destruct (Z.eqb_spec n (-2)) as [ | _ ]; [ contradiction | ].
  cbn [orb] in Hfit.
  destruct (backAll_path _ _ rest _ Hfit Hv) as (Hk & Hgoto & Hrest).
  rewrite <- Hm in Hk, Hgoto, Hrest. rewrite length_map in Hk.
  set (k := Z.to_nat (at_ parserR2 n)) in *.
  assert (Hs0 : nth k (map yys (parserS p)) 0
                = yys (nth 0 (skipn k (parserS p)) zeroSym)).
  { rewrite nth_0_skipn. change 0 with (yys zeroSym) at 1.
    apply map_nth. }
  pose proof (validPath_all _ Hv) as Hall. rewrite <- Hm in Hall.
  assert (Hs0r : 0 <= yys (nth 0 (skipn k (parserS p)) zeroSym) < 42).
  { rewrite <- Hs0. rewrite Forall_forall in Hall. apply Hall.
    apply nth_In. rewrite length_map. exact Hk. }
  pose proof (R1_range n) as HR1.
  pose proof (Pgo_range (at_ parserR1 n)) as HPgo.
  split.
  - unfold reduce_ok. fold k. cbv zeta.
    split_andb.
    + eapply inTable_bound; [ cbv; reflexivity | lia ].
    + apply Nat.leb_le. lia.
    + eapply inTable_bound; [ cbv; reflexivity | lia ].
    + eapply inTable_bound; [ cbv; reflexivity | lia ].
    + apply Nat.ltb_lt. exact Hk.
    + destruct (Z.leb_spec parserLast
                  (at_ parserPgo (at_ parserR1 n)
                   + yys (nth 0 (skipn k (parserS p)) zeroSym) + 1))
        as [Hj | Hj].
      * eapply inTable_bound; [ cbv; reflexivity | lia ].
      * unfold parserLast in Hj.
        split_andb.
        -- eapply inTable_bound; [ cbv; reflexivity | lia ].
        -- match goal with
           | |- context [at_ parserAct ?z] => pose proof (Act_range z)
           end.
           eapply inTable_bound; [ cbv; reflexivity | lia ].
        -- destruct (negb _); [ | reflexivity ].
           eapply inTable_bound; [ cbv; reflexivity | lia ].
    + apply action_ok_deep; [ exact Hn20 | exact Hk | ].
      apply cursor_ok_steady. exact Hs.
  - unfold reduce. fold k.
    destruct (action n (parserS p) _ (plex p)) as [VAL x].
    cbn [sound]. unfold pathOf. cbn [parserstate parserS].
    rewrite <- skipn_map.
    destruct (skipn_head_nth (map yys (parserS p)) k) as [t Ht];
      [ rewrite length_map; exact Hk | ].
    rewrite Ht in Hrest |- *.
    apply validPath_cons; [ | exact Hrest ].
    unfold gotoState in Hgoto. rewrite Hs0 in Hgoto |- *.
    exact Hgoto.
Qed.

Lemma lookahead_ok_steady (lib : GoLib) p :
  steady p -> lookahead_ok lib p = true.
Proof.
  intros Hs. unfold lookahead_ok.
  destruct (char p <? 0); [ | reflexivity ].
  rewrite (cursor_ok_steady p Hs), translate_ok_always. reflexivity.
Qed.

Lemma lookahead_pushedOn (lib : GoLib) p :
  pushedOn p -> pushedOn (lookahead lib p).
Proof.
  unfold lookahead, parserlex1, pushedOn.
  destruct (char p <? 0); [ | auto ].
  destruct (Lex lib (plex p) (lval p)) as [[x lv] c]. auto.
Qed.

Lemma parserdefault_sound (lib : GoLib) p :
  steady p -> pushedOn p ->
  parserdefault_ok lib p = true /\ sound (parserdefault lib p).
Proof.
  intros Hs Hp.
  assert (Hst : 0 <= parserstate p < 42).
  { destruct Hp as (rest & _ & Hv). exact (validPath_head _ _ Hv). }
  assert (Hdef : inTable parserDef (parserstate p) = true)
    by (eapply inTable_bound; [ cbv; reflexivity | lia ]).
  unfold parserdefault_ok, parserdefault. rewrite Hdef. cbn [andb]. cbv zeta.
  destruct (Z.eqb_spec (at_ parserDef (parserstate p)) (-2)) as [E2 | E2].
  - destruct (lookahead_steady lib p Hs) as (Hs' & _ & Hstate & _).
    rewrite (lookahead_ok_steady lib p Hs). cbn [andb].
    apply Def_exception in E2. rewrite Hstate, E2.
    change (exca_find parserExca 1) with (Some [1; -1; -2; 0]).
    cbn [exca_scan].
    destruct ((1 <? 0) || (1 =? parsertoken (lookahead lib p)));
      [ split; [ reflexivity | exact I ] | ].
    change ((-2 <? 0) || (-2 =? parsertoken (lookahead lib p))) with true.
    cbn match. change (0 <? 0) with false. change (0 =? 0) with true.
    cbn match.
    apply on_error_sound; [ exact Hs' | ].
    apply lookahead_pushedOn. exact Hp.
  - destruct (Z.eqb_spec (at_ parserDef (parserstate p)) 0) as [E0 | E0].
    + apply on_error_sound; assumption.
    + apply reduce_sound; auto.
Qed.

Lemma parsernewstate_sound (lib : GoLib) p :
  steady p -> pushedOn p ->
  parsernewstate_ok lib p = true /\ sound (parsernewstate lib p).
Proof.
  intros Hs Hp.
  assert (Hst : 0 <= parserstate p < 42).
  { destruct Hp as (rest & _ & Hv). exact (validPath_head _ _ Hv). }
  assert (Hpact : inTable parserPact (parserstate p) = true)
    by (eapply inTable_bound; [ cbv; reflexivity | lia ]).
  unfold parsernewstate_ok, parsernewstate. rewrite Hpact. cbn [andb].
  cbv zeta.
  destruct (at_ parserPact (parserstate p) <=? parserFlag) eqn:Eflag;
    [ apply parserdefault_sound; assumption | ].
  destruct (lookahead_steady lib p Hs) as (Hs' & _ & Hstate & _).
  pose proof (lookahead_pushedOn lib p Hp) as Hp'.
  rewrite (lookahead_ok_steady lib p Hs). cbn [andb].
  pose proof (parserdefault_sound lib _ Hs' Hp') as Hdef.
  set (n := at_ parserPact (parserstate p) + parsertoken (lookahead lib p))
    in *.
  destruct ((n <? 0) || (parserLast <=? n)) eqn:Erange; [ exact Hdef | ].
  apply orb_false_iff in Erange. destruct Erange as [E1 E2].
  apply Z.ltb_ge in E1. apply Z.leb_gt in E2. unfold parserLast in E2.
  assert (Hact : inTable parserAct n = true)
    by (eapply inTable_bound; [ cbv; reflexivity | lia ]).
  assert (Hchk : inTable parserChk (at_ parserAct n) = true).
  { pose proof (Act_range n).
    eapply inTable_bound; [ cbv; reflexivity | lia ]. }
  rewrite Hact, Hchk. cbn [andb].
  destruct (at_ parserChk (at_ parserAct n) =? parsertoken (lookahead lib p))
    eqn:Eshift; [ | exact Hdef ].
  split; [ reflexivity | ].
  cbn [sound]. unfold pathOf. cbn [parserstate parserS].
  destruct Hp' as (rest & Hm & Hv). rewrite Hm, Hstate.
  apply validPath_cons; [ | rewrite <- Hstate; exact Hv ].
  pose proof (state_checked shiftsListed _ (proj1 tables_checked) Hst)
    as Hlisted.
  unfold shiftsListed in Hlisted. rewrite Eflag in Hlisted.
  cbn [orb] in Hlisted. rewrite forallb_forall in Hlisted.
  specialize (Hlisted n).
  assert (Hin : In n (map Z.of_nat (seq 0 44))).
  { apply in_map_iff. exists (Z.to_nat n).
    split; [ lia | apply in_seq; lia ]. }
  specialize (Hlisted Hin).
  apply Z.eqb_eq in Eshift.
  assert (Etok : (at_ parserChk (at_ parserAct n)
                  =? n - at_ parserPact (parserstate p)) = true).
  { apply Z.eqb_eq. rewrite Eshift. unfold n. lia. }
  rewrite Etok in Hlisted. cbn [negb orb] in Hlisted. exact Hlisted.
Qed.

Lemma parserstack_sound (lib : GoLib) p :
  steady p -> validPath (pathOf p) = true ->
  parserstack_ok lib p = true /\ sound (parserstack lib p).
Proof.
  intros Hs Hv. unfold parserstack_ok, parserstack.
  apply parsernewstate_sound; [ exact Hs | ].
  exists (map yys (parserS p)). split; [ reflexivity | exact Hv ].
Qed.

Lemma run_checked_Ret (lib : GoLib) fuel r x :
  run_checked lib fuel (Ret r x) = Some (Returned (r, x)).
Proof. destruct fuel; reflexivity. Qed.

(** With the bounds checked the run is the same. *)
Lemma run_checked_run (lib : GoLib) fuel : forall p,
  steady p -> validPath (pathOf p) = true ->
  run_checked lib fuel (ToStack p) = run lib fuel (ToStack p).
Proof.
  induction fuel as [ | fuel IH ]; intros p Hs Hv; [ reflexivity | ].
  cbn [run_checked run].
  destruct (parserstack_sound lib p Hs Hv) as [Hok Hsound].
  rewrite Hok.
  pose proof (parserstack_progress lib p Hs) as Hprog.
  destruct (parserstack lib p) as [p' | p' | r x | ];
    cbn [sound progress] in Hsound, Hprog.
  - apply IH; [ exact (proj1 Hprog) | exact Hsound ].
  - contradiction.
  - rewrite run_checked_Ret, run_Ret. reflexivity.
  - contradiction.
Qed.

Lemma pathOf_initial x : validPath (pathOf (initial x)) = true.
Proof. reflexivity. Qed.

(** [parse] never ends in a run-time panic.  With every index of the
    generated tables, every index and slice of the value stack and the
    slices of the input that [Lex] and [Error] take checked as Go checks
    them, [parse] runs as it does without the checks, and it does not reach
    a panic: the states on the stack always follow each other as the tables
    allow, which keeps the stack as deep as each production needs and every
    state an index of the tables. *)
Theorem parse_never_panics (lib : GoLib) (fuel : nat) (now : Time)
  (input : gostring) :
  parse_checked lib fuel now input = parse lib fuel now input
  /\ parse_checked lib fuel now input <> Some Panicked.
Proof.
  assert (E : parse_checked lib fuel now input = parse lib fuel now input).
  { unfold parse_checked, parse, parserParse.
    rewrite (run_checked_run lib fuel (initial (newLex now input))
               (initial_steady (newLex now input) eq_refl)
               (pathOf_initial (newLex now input))).
    reflexivity. }
  split; [ exact E | ].
  rewrite E. apply exception_found.
Qed.

